(** * rgf: EV3 RGF bitmaps, their wire format and the image converters

    A shallow embedding of [rgf.go] and the properties its specification
    states.  Go values are modelled as follows.

    - [uint8] and [int] values are integers of [Z]; a conversion to [uint8]
      is written [uint8] (reduction modulo 256) and the arithmetic of [int]
      (64 bits) is wrapped by [int_wrap] where the source can overflow.
    - A slice is a [list]; indexing outside of it panics in Go, so every
      indexed read ([index]) and write ([store]) returns an [option], and
      [None] stands for the run-time panic.
    - A [*Bitmap] that is mutated in place is passed and returned explicitly,
      with its rows held by value.  Rows are slices and may share their
      bytes: where that matters the functions are given a second time over
      a memory of byte arrays, and related to the first by [view].
    - [float64] is the kernel's binary64 type [float].
    - [io.Reader] and [io.Writer] are type classes; [bytes.Buffer] and
      [bytes.Reader] of the Go standard library are their in-memory
      instances. *)

From Stdlib Require Import ZArith Lia Bool String.
From Stdlib Require Import Floats.PrimFloat Numbers.Cyclic.Int63.Uint63.
From stdpp Require Import base option list.

Local Open Scope Z_scope.

(* ===================================================================== *)
(** ** Machine integers, slices and loops *)
(* ===================================================================== *)

(** Conversion to [uint8]: the value modulo 2^8. *)
Definition uint8 (z : Z) : Z := z mod 256.

(** Arithmetic on [int] wraps around in two's complement (64 bits). *)
Definition int_wrap (z : Z) : Z := (z + 2 ^ 63) mod 2 ^ 64 - 2 ^ 63.

(** [l[i]] as an expression: a panic ([None]) outside [0 <= i < len(l)]. *)
Definition index {A} (l : list A) (i : Z) : option A :=
  if i <? 0 then None else l !! Z.to_nat i.

(** [l[i] = v]: a panic ([None]) outside [0 <= i < len(l)]. *)
Definition store {A} (l : list A) (i : Z) (v : A) : option (list A) :=
  if (0 <=? i) && (i <? Z.of_nat (length l))
  then Some (<[Z.to_nat i := v]> l)
  else None.

(** [make([]T, n)]: [n] zero values; a negative length panics. *)
Definition make {A} (zero : A) (n : Z) : option (list A) :=
  if n <? 0 then None else Some (replicate (Z.to_nat n) zero).

(** [for i := start; ...; i++ { body }] run for [n] iterations; the body
    transforms the state and may panic. *)
Fixpoint for_loop {St} (n : nat) (i : Z) (body : Z → St → option St) (s : St)
  : option St :=
  match n with
  | O => Some s
  | S n' => s' ← body i s; for_loop n' (i + 1) body s'
  end.

(** [for i := 0; i < bound; i++ { body }]. *)
Definition for_range {St} (bound : Z) (body : Z → St → option St) (s : St)
  : option St :=
  for_loop (Z.to_nat bound) 0 body s.

(* ===================================================================== *)
(** ** Bitmap *)
(* ===================================================================== *)

Record Bitmap := {
  Width : Z;                  (* uint8 *)
  Height : Z;                 (* uint8 *)
  PixelRows : list (list Z)   (* [][]uint8 *)
}.

(** [stride := (int(bmp.Width) + 7) / 8] (division of [int] truncates). *)
Definition stride_of (width : Z) : Z := (width + 7) ÷ 8.

(** [Create]: the row table is made first, then every row is allocated. *)
Definition Create (W H : Z) : option Bitmap :=
  rows ← make [] H;
  let stride := stride_of W in
  rows ← for_range H (λ y rows, row ← make 0 stride; store rows y row) rows;
  Some {| Width := W; Height := H; PixelRows := rows |}.

(** [Get]: [true] when the pixel at [x, y] is black. *)
Definition Bitmap_Get (img : Bitmap) (x y : Z) : option bool :=
  if (Width img <=? x) || (Height img <=? y) then Some false
  else
    let ByteIndex := x / 8 in
    let BitIndex := x mod 8 in
    row ← index (PixelRows img) y;
    b ← index row ByteIndex;
    Some (Z.land (Z.shiftr b BitIndex) 1 =? 1).

(** [Set]: writes one bit of the addressed byte in place. *)
Definition Bitmap_Set (img : Bitmap) (x y : Z) (black : bool)
  : option Bitmap :=
  if (Width img <=? x) || (Height img <=? y) then Some img
  else
    let ByteIndex := x / 8 in
    let BitIndex := x mod 8 in
    row ← index (PixelRows img) y;
    b ← index row ByteIndex;
    let b' :=
      if black then uint8 (Z.lor b (uint8 (Z.shiftl 1 BitIndex)))
      else uint8 (Z.land b (uint8 (Z.lxor 255 (uint8 (Z.shiftl 1 BitIndex)))))
    in
    row' ← store row ByteIndex b';
    rows' ← store (PixelRows img) y row';
    Some {| Width := Width img; Height := Height img; PixelRows := rows' |}.

(** The invariant of the data model: both dimensions are [uint8] values,
    there are [Height] rows, and every row holds [stride] bytes. *)
Definition is_byte (b : Z) : bool := (0 <=? b) && (b <? 256).

Definition row_ok (stride : nat) (row : list Z) : bool :=
  (length row =? stride)%nat && forallb is_byte row.

Definition wfb (img : Bitmap) : bool :=
  is_byte (Width img) && is_byte (Height img)
  && (length (PixelRows img) =? Z.to_nat (Height img))%nat
  && forallb (row_ok (Z.to_nat (stride_of (Width img)))) (PixelRows img).

Definition wf (img : Bitmap) : Prop := wfb img = true.

(* ===================================================================== *)
(** ** Streams: [io.Writer], [io.Reader] and their in-memory instances *)
(* ===================================================================== *)

(** Go's [error] values that occur here: the two errors [Read] creates
    with [errors.New], and the errors of the underlying stream. *)
Inductive error :=
| errors_New (text : string)
| io_EOF
| io_ErrUnexpectedEOF
| stream_fault (code : nat).

(** [w.Write(p)] returns the number of bytes written and an error. *)
Class Writer (W : Type) := io_Write : W → list Z → Z * option error * W.

(** [r.Read(p)] for a buffer [p] of the given length returns the bytes it
    stored at the start of [p] (their number is Go's [n]) and an error. *)
Class Reader (R : Type) := io_Read : R → nat → list Z * option error * R.

(** The contract of [io.Writer]: [0 <= n <= len(p)], and an error is
    returned whenever [n < len(p)]. *)
Definition writer_contract (W : Type) `{Writer W} : Prop :=
  ∀ (w : W) (p : list Z),
    0 ≤ (io_Write w p).1.1 ≤ Z.of_nat (length p)
    ∧ ((io_Write w p).1.1 < Z.of_nat (length p) → (io_Write w p).1.2 ≠ None).

(** The buffer [p] after a read stored [data] at its start. *)
Definition fill (p data : list Z) : list Z :=
  take (length p) (data ++ drop (length data) p).

(** [bytes.Buffer]: [Write] appends and never fails; [Read] drains the
    unread bytes, returns [io.EOF] when none is left, except that a read
    into an empty buffer [p] returns [0, nil]. *)
Record bytes_Buffer := { buf : list Z }.

#[export] Instance bytes_Buffer_Writer : Writer bytes_Buffer :=
  λ b p, (Z.of_nat (length p), None, {| buf := buf b ++ p |}).

#[export] Instance bytes_Buffer_Reader : Reader bytes_Buffer :=
  λ b k,
    match buf b with
    | [] => if (k =? 0)%nat then ([], None, b) else ([], Some io_EOF, b)
    | _ => (take k (buf b), None, {| buf := drop k (buf b) |})
    end.

(** [bytes.Reader] (and [strings.Reader]): [Read] returns [io.EOF] as soon
    as no byte is left, whatever the length of [p]. *)
Record bytes_Reader := { unread : list Z }.

#[export] Instance bytes_Reader_Reader : Reader bytes_Reader :=
  λ r k,
    match unread r with
    | [] => ([], Some io_EOF, r)
    | _ => (take k (unread r), None, {| unread := drop k (unread r) |})
    end.

(** [iotest.OneByteReader(r)]: a read into a non-empty [p] is a read of one
    byte from [r]; a read into an empty [p] returns [0, nil]. *)
Record iotest_OneByteReader (R : Type) := { inner : R }.

Arguments inner {R} _.

#[export] Instance iotest_OneByteReader_Reader {R} `{Reader R}
  : Reader (iotest_OneByteReader R) :=
  λ r k,
    if (k =? 0)%nat then ([], None, r)
    else
      let '(data, err, r') := io_Read (inner r) 1 in
      (data, err, {| inner := r' |}).

(** The rows loop of [Write]: [n] accumulates the bytes written. *)
Fixpoint write_rows {W} `{Writer W} (rows : list (list Z)) (n : Z) (w : W)
  : Z * option error * W :=
  match rows with
  | [] => (n, None, w)
  | row :: rest =>
      let '(n2, err, w') := io_Write w row in
      let n := int_wrap (n + n2) in
      match err with
      | Some e => (n, Some e, w')
      | None => write_rows rest n w'
      end
  end.

(** [Write]: the header, then every row. *)
Definition Bitmap_Write {W} `{Writer W} (img : Bitmap) (w : W)
  : Z * option error * W :=
  let header := [uint8 (Width img); uint8 (Height img)] in
  let '(n, err, w') := io_Write w header in
  match err with
  | Some e => (n, Some e, w')
  | None => write_rows (PixelRows img) n w'
  end.

(** The rows loop of [Read]: each row buffer [v] of the fresh bitmap is
    filled by one call of the reader. *)
Fixpoint read_rows {R} `{Reader R} (stride : Z) (rows : list (list Z)) (r : R)
  : option (list (list Z)) * option error * R :=
  match rows with
  | [] => (Some [], None, r)
  | v :: rest =>
      let '(data, err, r') := io_Read r (length v) in
      match err with
      | Some e => (None, Some e, r')
      | None =>
          if Z.of_nat (length data) <? stride
          then (None, Some (errors_New "Bitmap is truncated"), r')
          else
            let '(res, err', r'') := read_rows stride rest r' in
            (cons (fill v data) <$> res, err', r'')
      end
  end.

(** [Read]: the result is Go's pair of a [*Bitmap] ([None] is [nil]) and
    an [error] ([None] is [nil]), with the reader after the call.  The
    outer [option] is [None] when the call panics. *)
Definition Read {R} `{Reader R} (r : R)
  : option (option Bitmap * option error * R) :=
  let header := [0; 0] in
  let '(data, err, r') := io_Read r (length header) in
  match err with
  | Some e => Some (None, Some e, r')
  | None =>
      if negb (length data =? 2)%nat
      then Some (None, Some (errors_New "Bitmap header is truncated"), r')
      else
        let header := fill header data in
        w ← index header 0;
        h ← index header 1;
        let stride := stride_of w in
        bmp ← Create w h;
        let '(rows, err', r'') := read_rows stride (PixelRows bmp) r' in
        match rows with
        | Some rows' =>
            Some (Some {| Width := Width bmp; Height := Height bmp;
                          PixelRows := rows' |}, err', r'')
        | None => Some (None, err', r'')
        end
  end.

(* ===================================================================== *)
(** ** Source images and the two converters *)
(* ===================================================================== *)

Definition int_add (a b : Z) : Z := int_wrap (a + b).
Definition int_sub (a b : Z) : Z := int_wrap (a - b).
Definition int_mul (a b : Z) : Z := int_wrap (a * b).

(** [image.Image]: the rectangle of [Bounds()] and the colour lookup
    [At]; the colour type is the interface [color.Color]. *)
Record Image (Color : Type) := {
  MinX : Z; MinY : Z; MaxX : Z; MaxY : Z;
  At : Z → Z → Color
}.
Arguments MinX {Color}.
Arguments MinY {Color}.
Arguments MaxX {Color}.
Arguments MaxY {Color}.
Arguments At {Color}.

(** One bound of [createFromImageSize]: below 0 gives 0, above 255 gives
    255. *)
Definition clip (v : Z) : Z :=
  if v <? 0 then 0 else if 255 <? v then 255 else v.

Section Convert.
Context {Color : Type}.

(** [colorToGray(col).Y]: the 8-bit luminance that Go's
    [color.GrayModel] gives to a colour. *)
Variable colorToGray : Color → Z.

Definition createFromImageSize (src : Image Color) : option (Bitmap * Z * Z) :=
  let w := int_sub (MaxX src) (MinX src) in
  let h := int_sub (MaxY src) (MinY src) in
  let w := clip w in
  let h := clip h in
  bmp ← Create (uint8 w) (uint8 h);
  Some (bmp, w, h).

(** The luminance read by the loops at the cell [x, y] of the window. *)
Definition lumAt (src : Image Color) (x y : Z) : Z :=
  let col := At src (int_add x (MinX src)) (int_add y (MinY src)) in
  colorToGray col.

Definition ByThreshold (src : Image Color) (threshold : Z) : option Bitmap :=
  '(bmp, w, h) ← createFromImageSize src;
  for_range h (λ y bmp,
    for_range w (λ x bmp,
      let lum := lumAt src x y in
      Bitmap_Set bmp (uint8 x) (uint8 y) (lum <? threshold)) bmp) bmp.

(** [float64(lum) / 255.0]. *)
Definition normalize (lum : Z) : float :=
  (PrimFloat.of_uint63 (Uint63.of_Z lum) / 255)%float.

Definition floatGrayMap (src : Image Color) (w h : Z) : option (list float) :=
  grayMap ← make 0%float (int_mul w h);
  for_range h (λ y grayMap,
    for_range w (λ x grayMap,
      let lum := lumAt src x y in
      store grayMap (int_add (int_mul y w) x) (normalize lum)) grayMap) grayMap.

End Convert.

(** [grayMap[i] += d]. *)
Definition add_at (grayMap : list float) (i : Z) (d : float)
  : option (list float) :=
  v ← index grayMap i; store grayMap i (v + d)%float.

(** The quantization of one residual value. *)
Definition quantize (orig : float) : float :=
  if (0.5 <=? orig)%float then 1%float else 0%float.

(** The index expressions of the loop body of [floydSteinbergDither]. *)
Definition here_index (w x y : Z) : Z := int_add (int_mul y w) x.
Definition east_index (w x y : Z) : Z :=
  int_add (int_add (int_mul (int_add y 0) w) x) 1.
Definition southwest_index (w x y : Z) : Z :=
  int_sub (int_add (int_mul (int_add y 1) w) x) 1.
Definition south_index (w x y : Z) : Z :=
  int_add (int_add (int_mul (int_add y 1) w) x) 0.
Definition southeast_index (w x y : Z) : Z :=
  int_add (int_add (int_mul (int_add y 1) w) x) 1.

(** The body of the loops of [floydSteinbergDither] at the cell [x, y]. *)
Definition dither_cell (w h x y : Z) (grayMap : list float)
  : option (list float) :=
  orig ← index grayMap (here_index w x y);
  let new := quantize orig in
  grayMap ← store grayMap (here_index w x y) new;
  let quantError := (orig - new)%float in
  grayMap ← (if negb (x =? int_sub w 1)
             then add_at grayMap (east_index w x y) (quantError * 7 / 16)%float
             else Some grayMap);
  if negb (y =? int_sub h 1) then
    grayMap ← add_at grayMap (southwest_index w x y) (quantError * 3 / 16)%float;
    grayMap ← add_at grayMap (south_index w x y) (quantError * 5 / 16)%float;
    if negb (x =? int_sub w 1)
    then add_at grayMap (southeast_index w x y) (quantError * 1 / 16)%float
    else Some grayMap
  else Some grayMap.

Definition floydSteinbergDither (grayMap : list float) (w h : Z)
  : option (list float) :=
  for_range h (λ y grayMap,
    for_range w (λ x grayMap, dither_cell w h x y grayMap) grayMap) grayMap.

Definition fillByGrayMap (src : list float) (dst : Bitmap) (w h : Z)
  : option Bitmap :=
  for_range h (λ y dst,
    for_range w (λ x dst,
      v ← index src (int_add (int_mul y w) x);
      let white := (0.5 <? v)%float in
      Bitmap_Set dst (uint8 x) (uint8 y) (negb white)) dst) dst.

Definition ByDither {Color} (colorToGray : Color → Z) (src : Image Color)
  : option Bitmap :=
  '(bmp, w, h) ← createFromImageSize src;
  grayMap ← floatGrayMap colorToGray src w h;
  grayMap ← floydSteinbergDither grayMap w h;
  fillByGrayMap grayMap bmp w h.

(* ===================================================================== *)
(** ** The bitmap as an [image.Image] *)
(* ===================================================================== *)

(** [image.Rectangle] and [image.Rect], which puts the corners in order. *)
Record Rectangle := { Min_X : Z; Min_Y : Z; Max_X : Z; Max_Y : Z }.

Definition image_Rect (x0 y0 x1 y1 : Z) : Rectangle :=
  let '(x0, x1) := if x1 <? x0 then (x1, x0) else (x0, x1) in
  let '(y0, y1) := if y1 <? y0 then (y1, y0) else (y0, y1) in
  {| Min_X := x0; Min_Y := y0; Max_X := x1; Max_Y := y1 |}.

(** The two colours [At] returns: [color.Black] and [color.White]. *)
Inductive color := color_Black | color_White.

(** The colour models of [image/color]. *)
Inductive color_Model :=
| color_RGBAModel | color_RGBA64Model | color_NRGBAModel | color_GrayModel.

Definition Bitmap_Bounds (img : Bitmap) : Rectangle :=
  image_Rect 0 0 (Width img) (Height img).

Definition Bitmap_At (img : Bitmap) (x y : Z) : option color :=
  if (x <? 0) || (Width img <=? x) || (y <? 0) || (Height img <=? y)
  then Some color_White
  else
    black ← Bitmap_Get img (uint8 x) (uint8 y);
    Some (if black : bool then color_Black else color_White).

Definition Bitmap_ColorModel (img : Bitmap) : color_Model := color_RGBAModel.

(* ===================================================================== *)
(** ** The diffusion rule as the specification words it *)
(* ===================================================================== *)

(** A neighbour receives its share only when it lies inside
    [0, w) x [0, h); nothing is written otherwise. *)
Definition diffuse_to (w h nx ny : Z) (d : float) (grid : list float)
  : option (list float) :=
  if (0 <=? nx) && (nx <? w) && (0 <=? ny) && (ny <? h)
  then add_at grid (ny * w + nx) d
  else Some grid.

Definition spec_dither_cell (w h x y : Z) (grid : list float)
  : option (list float) :=
  orig ← index grid (y * w + x);
  let new := quantize orig in
  grid ← store grid (y * w + x) new;
  let quantError := (orig - new)%float in
  grid ← diffuse_to w h (x + 1) y (quantError * 7 / 16)%float grid;
  grid ← diffuse_to w h (x - 1) (y + 1) (quantError * 3 / 16)%float grid;
  grid ← diffuse_to w h x (y + 1) (quantError * 5 / 16)%float grid;
  diffuse_to w h (x + 1) (y + 1) (quantError * 1 / 16)%float grid.

Definition spec_dither (grid : list float) (w h : Z) : option (list float) :=
  for_range h (λ y grid,
    for_range w (λ x grid, spec_dither_cell w h x y grid) grid) grid.

(* ===================================================================== *)
(** ** Rows as slices of a shared memory *)
(* ===================================================================== *)

(** In Go a row is a slice, a window on a backing array, and [Set] writes
    the array in place: two rows may be windows on the same bytes.  The
    functions that read or write the bytes of the rows are given here a
    second time, over a memory of byte arrays.  The [Bitmap] value itself
    (the dimensions and the table of slice headers) is changed by none of
    them, so only the memory is threaded through. *)

(** A slice header: the backing array by its place in the memory, the
    start of the window in it, and [len(s)].  Nothing here appends to a
    slice or slices it again, so the capacity is left out. *)
Record slice := {
  s_array : nat;
  s_offset : nat;
  s_len : nat
}.

(** The byte arrays that have been allocated, in the order of allocation. *)
Abbreviation memory := (list (list Z)).

(** A [Bitmap] whose rows are slices of the memory. *)
Record MBitmap := {
  MWidth : Z;                 (* uint8 *)
  MHeight : Z;                (* uint8 *)
  MPixelRows : list slice     (* [][]uint8 *)
}.

(** [s[i]] as an expression: a panic outside [0 <= i < len(s)]. *)
Definition slice_index (m : memory) (s : slice) (i : Z) : option Z :=
  if (0 <=? i) && (i <? Z.of_nat (s_len s))
  then a ← m !! s_array s; a !! (s_offset s + Z.to_nat i)%nat
  else None.

(** [s[i] = v]: the backing array is written in place. *)
Definition slice_store (m : memory) (s : slice) (i : Z) (v : Z)
  : option memory :=
  if (0 <=? i) && (i <? Z.of_nat (s_len s))
  then
    a ← m !! s_array s;
    if (s_offset s + Z.to_nat i <? length a)%nat
    then Some (<[s_array s := <[(s_offset s + Z.to_nat i)%nat := v]> a]> m)
    else None
  else None.

(** The bytes a slice shows, as [w.Write(s)] receives them. *)
Definition slice_bytes (m : memory) (s : slice) : option (list Z) :=
  a ← m !! s_array s;
  if (s_offset s + s_len s <=? length a)%nat
  then Some (take (s_len s) (drop (s_offset s) a))
  else None.

(** [make([]uint8, n)]: a new array of [n] zero bytes, and the slice that
    shows all of it. *)
Definition make_bytes (m : memory) (n : Z) : option (memory * slice) :=
  if n <? 0 then None
  else Some (m ++ [replicate (Z.to_nat n) 0],
             {| s_array := length m; s_offset := 0; s_len := Z.to_nat n |}).

(** The zero value of a slice, as [make([][]uint8, Height)] fills the row
    table with. *)
Definition nil_slice : slice :=
  {| s_array := 0; s_offset := 0; s_len := 0 |}.

(** [Create]: every row is a slice of an array of its own. *)
Definition Mem_Create (m : memory) (W H : Z) : option (memory * MBitmap) :=
  rows ← make nil_slice H;
  let stride := stride_of W in
  '(m, rows) ← for_range H (λ y '(m, rows),
                  '(m, row) ← make_bytes m stride;
                  rows ← store rows y row;
                  Some (m, rows)) (m, rows);
  Some (m, {| MWidth := W; MHeight := H; MPixelRows := rows |}).

(** [Get]. *)
Definition Mem_Get (m : memory) (img : MBitmap) (x y : Z) : option bool :=
  if (MWidth img <=? x) || (MHeight img <=? y) then Some false
  else
    let ByteIndex := x / 8 in
    let BitIndex := x mod 8 in
    row ← index (MPixelRows img) y;
    b ← slice_index m row ByteIndex;
    Some (Z.land (Z.shiftr b BitIndex) 1 =? 1).

(** [Set]: one bit of the addressed byte is written, in the memory. *)
Definition Mem_Set (m : memory) (img : MBitmap) (x y : Z) (black : bool)
  : option memory :=
  if (MWidth img <=? x) || (MHeight img <=? y) then Some m
  else
    let ByteIndex := x / 8 in
    let BitIndex := x mod 8 in
    row ← index (MPixelRows img) y;
    b ← slice_index m row ByteIndex;
    let b' :=
      if black then uint8 (Z.lor b (uint8 (Z.shiftl 1 BitIndex)))
      else uint8 (Z.land b (uint8 (Z.lxor 255 (uint8 (Z.shiftl 1 BitIndex)))))
    in
    slice_store m row ByteIndex b'.

(** The rows loop of [Write]: every row is passed to the writer as the
    memory holds it. *)
Fixpoint Mem_write_rows {W} `{Writer W} (m : memory) (rows : list slice)
    (n : Z) (w : W) : option (Z * option error * W) :=
  match rows with
  | [] => Some (n, None, w)
  | row :: rest =>
      data ← slice_bytes m row;
      let '(n2, err, w') := io_Write w data in
      let n := int_wrap (n + n2) in
      match err with
      | Some e => Some (n, Some e, w')
      | None => Mem_write_rows m rest n w'
      end
  end.

(** [Write]. *)
Definition Mem_Write {W} `{Writer W} (m : memory) (img : MBitmap) (w : W)
  : option (Z * option error * W) :=
  let header := [uint8 (MWidth img); uint8 (MHeight img)] in
  let '(n, err, w') := io_Write w header in
  match err with
  | Some e => Some (n, Some e, w')
  | None => Mem_write_rows m (MPixelRows img) n w'
  end.

(** [fillByGrayMap]: the destination is written in the memory. *)
Definition Mem_fillByGrayMap (src : list float) (m : memory) (dst : MBitmap)
    (w h : Z) : option memory :=
  for_range h (λ y m,
    for_range w (λ x m,
      v ← index src (int_add (int_mul y w) x);
      let white := (0.5 <? v)%float in
      Mem_Set m dst (uint8 x) (uint8 y) (negb white)) m) m.

(* ===================================================================== *)
(** ** Helper notions used by the statements *)
(* ===================================================================== *)

(** The byte a bit is written to by [Set]. *)
Definition set_bit (b BitIndex : Z) (black : bool) : Z :=
  if black then uint8 (Z.lor b (uint8 (Z.shiftl 1 BitIndex)))
  else uint8 (Z.land b (uint8 (Z.lxor 255 (uint8 (Z.shiftl 1 BitIndex))))).

(** The smallest number of bytes that hold [width] bits. *)
Definition ceil8 (width : Z) : Z :=
  width / 8 + (if width mod 8 =? 0 then 0 else 1).

(** The byte stream [Write] produces in an empty [bytes.Buffer]. *)
Definition encode (img : Bitmap) : list Z :=
  buf (Bitmap_Write img {| buf := [] |}).2.

(** The bitmap a memory holds for a [Bitmap] with slices as rows: every
    row with the bytes its slice shows; none when a slice reaches outside
    its array. *)
Definition view (m : memory) (img : MBitmap) : option Bitmap :=
  rows ← mapM (slice_bytes m) (MPixelRows img);
  Some {| Width := MWidth img; Height := MHeight img; PixelRows := rows |}.

(** The invariant of the data model, for the bitmap the memory holds. *)
Definition mwf (m : memory) (img : MBitmap) : Prop :=
  match view m img with Some bmp => wfb bmp | None => false end = true.

(** Two slices show a common byte. *)
Definition overlap (s t : slice) : bool :=
  (s_array s =? s_array t)%nat
  && (s_offset s <? s_offset t + s_len t)%nat
  && (s_offset t <? s_offset s + s_len s)%nat
  && (0 <? s_len s)%nat && (0 <? s_len t)%nat.

(** No two rows of the table show a common byte, as is the case for the
    rows [Create] allocates. *)
Fixpoint rows_disjoint (rows : list slice) : bool :=
  match rows with
  | [] => true
  | s :: rest => forallb (λ t, negb (overlap s t)) rest && rows_disjoint rest
  end.

(** The slice [Create] makes for the row [k]: all of a new array of
    [stride] bytes, the [k]-th after the [base] arrays the memory held. *)
Definition fresh_row (base stride k : nat) : slice :=
  {| s_array := base + k; s_offset := 0; s_len := stride |}.

(** Two bitmaps of 10 x 2 pixels over a memory: the rows of the first are
    two arrays, as [Create] lays them out in an empty memory; the rows of
    the second are both the first array. *)
Definition rows_apart : MBitmap :=
  {| MWidth := 10; MHeight := 2;
     MPixelRows := [fresh_row 0 2 0; fresh_row 0 2 1] |}.

Definition rows_shared : MBitmap :=
  {| MWidth := 10; MHeight := 2;
     MPixelRows := [fresh_row 0 2 0; fresh_row 0 2 0] |}.

(** The byte stream [Write] produces in an empty [bytes.Buffer] from the
    memory. *)
Definition Mem_encode (m : memory) (img : MBitmap) : option (list Z) :=
  '(_, _, w) ← Mem_Write m img {| buf := [] |};
  Some (buf w).

(** The reader after [i] row reads of [k] bytes each that all returned no
    error and at least [stride] bytes; [None] when one of them did not. *)
Fixpoint after_rows {R} `{Reader R} (stride : Z) (k i : nat) (r : R)
  : option R :=
  match i with
  | O => Some r
  | S i' =>
      let '(data, err, r') := io_Read r k in
      match err with
      | Some _ => None
      | None =>
          if Z.of_nat (length data) <? stride then None
          else after_rows stride k i' r'
      end
  end.

(** The loops visit the cells row by row, each row from left to right:
    the cell [x', y'] has been visited when the body runs at [x, y]. *)
Definition already_visited (x' y' x y : Z) : bool :=
  (y' <? y) || ((y' =? y) && (x' <=? x)).

(** A grey image given by the rows of its luminance values, with the
    colour type [Z] and the identity as [colorToGray]. *)
Definition gray_image (rows : list (list Z)) : Image Z :=
  {| MinX := 0; MinY := 0;
     MaxX := Z.of_nat (length (default [] (rows !! 0%nat)));
     MaxY := Z.of_nat (length rows);
     At := λ x y, default 0 (row ← rows !! Z.to_nat y; row !! Z.to_nat x) |}.

(** A grid that holds nothing but 0.0 and 1.0. *)
Definition binary (grid : list float) : Prop :=
  ∀ j v, grid !! j = Some v → v = 1%float ∨ v = 0%float.

(** What the first step of the pass leaves in the first cell: the
    quantized value, to which a grid of width 1 with more than one row
    adds the southwest share. *)
Definition first_cell_value (w h : Z) (orig : float) : float :=
  if decide (w = 1 ∧ h ≠ 1)
  then (quantize orig + (orig - quantize orig) * 3 / 16)%float
  else quantize orig.

(* ===================================================================== *)
(** ** The embedding on small inputs *)
(* ===================================================================== *)

Example Create_10_2 :
  Create 10 2
  = Some {| Width := 10; Height := 2; PixelRows := [[0; 0]; [0; 0]] |}.
Proof. reflexivity. Qed.

Example Set_then_Get :
  (bmp ← Create 10 2;
   bmp ← Bitmap_Set bmp 9 1 true;
   black ← Bitmap_Get bmp 9 1;
   white ← Bitmap_Get bmp 8 1;
   Some (PixelRows bmp, black, white))
  = Some ([[0; 0]; [0; 2]], true, false).
Proof. reflexivity. Qed.

Example Get_outside : Bitmap_Get {| Width := 10; Height := 2;
                                    PixelRows := [[255; 3]; [255; 3]] |} 10 0
                      = Some false.
Proof. reflexivity. Qed.

Example Write_10_2 :
  Bitmap_Write {| Width := 10; Height := 2; PixelRows := [[0; 0]; [0; 2]] |}
    {| buf := [] |}
  = (6, None, {| buf := [10; 2; 0; 0; 0; 2] |}).
Proof. reflexivity. Qed.

Example Read_10_2 :
  Read {| unread := [10; 2; 0; 0; 0; 2] |}
  = Some (Some {| Width := 10; Height := 2; PixelRows := [[0; 0]; [0; 2]] |},
          None, {| unread := [] |}).
Proof. reflexivity. Qed.

Example Read_one_byte :
  Read {| unread := [10] |}
  = Some (None, Some (errors_New "Bitmap header is truncated"),
          {| unread := [] |}).
Proof. reflexivity. Qed.

Example Read_short_row :
  Read {| unread := [10; 2; 0; 0; 0] |}
  = Some (None, Some (errors_New "Bitmap is truncated"), {| unread := [] |}).
Proof. reflexivity. Qed.

Example ByThreshold_tie :
  ByThreshold (λ c : Z, c) (gray_image [[127; 128; 129]]) 128
  = Some {| Width := 3; Height := 1; PixelRows := [[1]] |}.
Proof. vm_compute. reflexivity. Qed.

Example quantize_tie : quantize 0.5 = 1%float.
Proof. reflexivity. Qed.

Example dither_row :
  floydSteinbergDither [0.75; 0.625]%float 2 1 = Some [1; 1]%float.
Proof. vm_compute. reflexivity. Qed.

(* ===================================================================== *)
(** ** Slices, loops and machine arithmetic *)
(* ===================================================================== *)

Lemma index_nonneg {A} (l : list A) (i : Z) :
  0 ≤ i → index l i = l !! Z.to_nat i.
Proof. intros Hi. unfold index. destruct (Z.ltb_spec i 0); [lia | done]. Qed.

Lemma index_is_Some {A} (l : list A) (i : Z) :
  0 ≤ i < Z.of_nat (length l) → is_Some (index l i).
Proof.
  intros Hi. rewrite index_nonneg by lia. apply lookup_lt_is_Some. lia.
Qed.

Lemma store_in_range {A} (l : list A) (i : Z) (v : A) :
  0 ≤ i < Z.of_nat (length l) → store l i v = Some (<[Z.to_nat i := v]> l).
Proof.
  intros Hi. unfold store.
  destruct (Z.leb_spec 0 i); [| lia].
  destruct (Z.ltb_spec i (Z.of_nat (length l))); [done | lia].
Qed.

Lemma store_Some_inv {A} (l l' : list A) (i : Z) (v : A) :
  store l i v = Some l' →
  0 ≤ i < Z.of_nat (length l) ∧ l' = <[Z.to_nat i := v]> l.
Proof.
  unfold store. destruct (Z.leb_spec 0 i), (Z.ltb_spec i (Z.of_nat (length l)));
    simpl; intros [= <-]; split; (lia || done).
Qed.

Lemma int_wrap_small (z : Z) : - 2 ^ 63 ≤ z < 2 ^ 63 → int_wrap z = z.
Proof.
  intros Hz. unfold int_wrap. rewrite Z.mod_small; lia.
Qed.

Lemma uint8_small (z : Z) : 0 ≤ z < 256 → uint8 z = z.
Proof. intros Hz. unfold uint8. apply Z.mod_small. lia. Qed.

Lemma uint8_range (z : Z) : 0 ≤ uint8 z < 256.
Proof. unfold uint8. apply Z.mod_pos_bound. lia. Qed.

Lemma stride_of_div (w : Z) : 0 ≤ w → stride_of w = (w + 7) / 8.
Proof. intros Hw. unfold stride_of. apply Z.quot_div_nonneg; lia. Qed.

Lemma stride_of_ceil8 (w : Z) : 0 ≤ w → stride_of w = ceil8 w.
Proof.
  intros Hw. rewrite stride_of_div by done. unfold ceil8.
  destruct (Z.eqb_spec (w mod 8) 0); Z.div_mod_to_equations; lia.
Qed.

(** An invariant indexed by the loop counter holds after the loop, and the
    loop does not panic, when every iteration re-establishes it. *)
Lemma for_loop_inv {St} (P : Z → St → Prop) (body : Z → St → option St)
    (n : nat) (i : Z) (s : St) :
  P i s →
  (∀ j t, i ≤ j < i + Z.of_nat n → P j t →
          ∃ t', body j t = Some t' ∧ P (j + 1) t') →
  ∃ t, for_loop n i body s = Some t ∧ P (i + Z.of_nat n) t.
Proof.
  revert i s. induction n as [| n IH]; intros i s Hs Hstep.
  - exists s. split; [done |]. by replace (i + Z.of_nat 0) with i by lia.
  - destruct (Hstep i s) as (t' & Hb & Ht'); [lia | done |].
    destruct (IH (i + 1) t') as (t & Hl & Ht); [done | |].
    + intros j u Hj Hu. apply Hstep; [lia | done].
    + exists t. simpl. rewrite Hb. simpl. split; [done |].
      by replace (i + Z.of_nat (S n)) with (i + 1 + Z.of_nat n) by lia.
Qed.

Lemma for_range_inv {St} (P : Z → St → Prop) (body : Z → St → option St)
    (bound : Z) (s : St) :
  P 0 s →
  (∀ j t, 0 ≤ j < bound → P j t → ∃ t', body j t = Some t' ∧ P (j + 1) t') →
  ∃ t, for_range bound body s = Some t ∧ P (Z.max 0 bound) t.
Proof.
  intros Hs Hstep. unfold for_range.
  destruct (for_loop_inv P body (Z.to_nat bound) 0 s) as (t & Hl & Ht);
    [done | | ].
  - intros j u Hj Hu. apply Hstep; [lia | done].
  - exists t. split; [done |].
    by replace (Z.max 0 bound) with (0 + Z.of_nat (Z.to_nat bound)) by lia.
Qed.

(** Two loops whose bodies agree on the range of the counter agree. *)
Lemma for_loop_ext {St} (f g : Z → St → option St) (n : nat) (i : Z) (s : St) :
  (∀ j t, i ≤ j < i + Z.of_nat n → f j t = g j t) →
  for_loop n i f s = for_loop n i g s.
Proof.
  revert i s. induction n as [| n IH]; intros i s Hfg; [done |].
  simpl. rewrite Hfg by lia. destruct (g i s) as [t |]; [| done].
  simpl. apply IH. intros j u Hj. apply Hfg. lia.
Qed.

Lemma for_range_ext {St} (f g : Z → St → option St) (bound : Z) (s : St) :
  (∀ j t, 0 ≤ j < bound → f j t = g j t) →
  for_range bound f s = for_range bound g s.
Proof.
  intros Hfg. apply for_loop_ext. intros j t Hj. apply Hfg. lia.
Qed.

(* ===================================================================== *)
(** ** Bitmaps: the invariant, [Create], [Get] and [Set] *)
(* ===================================================================== *)

Lemma is_byte_spec (b : Z) : is_byte b = true ↔ 0 ≤ b < 256.
Proof. unfold is_byte. rewrite andb_true_iff, Z.leb_le, Z.ltb_lt. done. Qed.

Lemma forallb_Forall {A} (f : A → bool) (l : list A) :
  forallb f l = true ↔ Forall (λ a, f a = true) l.
Proof.
  induction l as [| a l IH]; simpl.
  - split; [constructor | done].
  - rewrite andb_true_iff, IH, Forall_cons. done.
Qed.

Lemma row_ok_spec (stride : nat) (row : list Z) :
  row_ok stride row = true ↔
  length row = stride ∧ Forall (λ b, 0 ≤ b < 256) row.
Proof.
  unfold row_ok. rewrite andb_true_iff, Nat.eqb_eq, forallb_Forall.
  split; intros [H1 H2]; (split; [done |]);
    eapply Forall_impl; eauto; intros b; apply is_byte_spec.
Qed.

Lemma wf_spec (img : Bitmap) :
  wf img ↔
  0 ≤ Width img < 256 ∧ 0 ≤ Height img < 256
  ∧ length (PixelRows img) = Z.to_nat (Height img)
  ∧ Forall (λ row, length row = Z.to_nat (stride_of (Width img))
                   ∧ Forall (λ b, 0 ≤ b < 256) row) (PixelRows img).
Proof.
  unfold wf, wfb.
  rewrite !andb_true_iff, !is_byte_spec, Nat.eqb_eq, forallb_Forall.
  split.
  - intros [[[Hw Hh] Hl] Hr]. repeat split; try lia.
    eapply Forall_impl; eauto. intros row. apply row_ok_spec.
  - intros (Hw & Hh & Hl & Hr). repeat split; try lia.
    eapply Forall_impl; eauto. intros row. apply row_ok_spec.
Qed.

(** [Create] never panics on [uint8] dimensions and yields zeroed rows. *)
Lemma Create_rows (W H : Z) :
  0 ≤ W → 0 ≤ H →
  Create W H = Some {| Width := W; Height := H;
    PixelRows := replicate (Z.to_nat H) (replicate (Z.to_nat (stride_of W)) 0) |}.
Proof.
  intros HW HH. unfold Create, make.
  destruct (Z.ltb_spec H 0); [lia |]. simpl.
  assert (Hs : 0 ≤ stride_of W) by (rewrite stride_of_div by done; Z.div_mod_to_equations; lia).
  destruct (Z.ltb_spec (stride_of W) 0); [lia |].
  set (row0 := replicate (Z.to_nat (stride_of W)) 0).
  destruct (for_range_inv
    (λ y (rows : list (list Z)),
       length rows = Z.to_nat H
       ∧ ∀ k, (k < Z.to_nat y)%nat → rows !! k = Some row0)
    (λ y rows, row ← Some row0; store rows y row) H
    (replicate (Z.to_nat H) [])) as (rows & Hrun & Hlen & Hrows).
  - split; [by rewrite length_replicate | intros k Hk; lia].
  - intros y rows Hy [Hlen Hrows]. simpl.
    rewrite store_in_range by lia. eexists. split; [done |].
    split; [by rewrite length_insert |].
    intros k Hk. destruct (decide (k = Z.to_nat y)) as [-> | Hne].
    + apply list_lookup_insert_eq. lia.
    + rewrite list_lookup_insert_ne by done. apply Hrows. lia.
  - rewrite Hrun. simpl. do 2 f_equal.
    apply list_eq. intros k.
    destruct (decide (k < Z.to_nat H)%nat) as [Hk | Hk].
    + rewrite Hrows by lia. symmetry. by apply lookup_replicate_2.
    + rewrite !lookup_ge_None_2; [done | rewrite length_replicate; lia | lia].
Qed.

Lemma Create_wf (W H : Z) (bmp : Bitmap) :
  0 ≤ W < 256 → 0 ≤ H < 256 → Create W H = Some bmp →
  wf bmp ∧ Width bmp = W ∧ Height bmp = H.
Proof.
  intros HW HH. rewrite Create_rows by lia. intros [= <-]. simpl.
  split; [| done]. apply wf_spec. simpl. repeat split; try lia.
  - by rewrite length_replicate.
  - apply Forall_replicate. split; [by rewrite length_replicate |].
    apply Forall_replicate. lia.
Qed.

(** The byte that holds the pixel [x, y] in a bitmap that satisfies the
    invariant. *)
Lemma wf_byte_at (img : Bitmap) (x y : Z) :
  wf img → 0 ≤ x < Width img → 0 ≤ y < Height img →
  ∃ row b,
    PixelRows img !! Z.to_nat y = Some row
    ∧ length row = Z.to_nat (stride_of (Width img))
    ∧ row !! Z.to_nat (x / 8) = Some b
    ∧ 0 ≤ x / 8 < Z.of_nat (length row).
Proof.
  intros (Hw & Hh & Hl & Hr)%wf_spec Hx Hy.
  destruct (lookup_lt_is_Some_2 (PixelRows img) (Z.to_nat y)) as [row Hrow];
    [lia |].
  rewrite Forall_lookup in Hr. destruct (Hr _ _ Hrow) as [Hlen _].
  assert (Hb : 0 ≤ x / 8 < Z.of_nat (length row)).
  { rewrite Hlen, stride_of_div by lia. Z.div_mod_to_equations. lia. }
  destruct (lookup_lt_is_Some_2 row (Z.to_nat (x / 8))) as [b Hbyte]; [lia |].
  by exists row, b.
Qed.

(** *** Bit-level facts *)

Lemma get_bit_testbit (b k : Z) :
  0 ≤ k → (Z.land (Z.shiftr b k) 1 =? 1) = Z.testbit b k.
Proof.
  intros Hk. change 1 with (Z.ones 1) at 1.
  rewrite Z.land_ones by lia. change (2 ^ 1) with 2.
  rewrite <- Z.bit0_mod, Z.shiftr_spec by lia. rewrite Z.add_0_l.
  by destruct (Z.testbit b k).
Qed.

Lemma bit_index_cases (k : Z) :
  0 ≤ k < 8 →
  k = 0 ∨ k = 1 ∨ k = 2 ∨ k = 3 ∨ k = 4 ∨ k = 5 ∨ k = 6 ∨ k = 7.
Proof. lia. Qed.

Lemma testbit_uint8 (z j : Z) :
  0 ≤ j < 8 → Z.testbit (uint8 z) j = Z.testbit z j.
Proof.
  intros Hj. unfold uint8. change 256 with (2 ^ 8).
  apply Z.mod_pow2_bits_low. lia.
Qed.

(** [set_bit] writes [black] into bit [k] and keeps the other seven. *)
Lemma set_bit_testbit (b k j : Z) (black : bool) :
  0 ≤ k < 8 → 0 ≤ j < 8 →
  Z.testbit (set_bit b k black) j
  = if decide (j = k) then black else Z.testbit b j.
Proof.
  intros Hk Hj. unfold set_bit.
  destruct black; rewrite testbit_uint8 by done;
    [rewrite Z.lor_spec | rewrite Z.land_spec];
    destruct (bit_index_cases k Hk) as [-> | [-> | [-> | [-> | [-> | [-> | [-> | ->]]]]]]];
    destruct (bit_index_cases j Hj) as [-> | [-> | [-> | [-> | [-> | [-> | [-> | ->]]]]]]];
    simpl; auto using orb_false_r, orb_true_r, andb_false_r, andb_true_r.
Qed.

Lemma set_bit_range (b k : Z) (black : bool) : 0 ≤ set_bit b k black < 256.
Proof. unfold set_bit. destruct black; apply uint8_range. Qed.

(** *** [Get] and [Set] on a bitmap that satisfies the invariant *)

Lemma Get_in_range (img : Bitmap) (x y : Z) (row : list Z) (b : Z) :
  0 ≤ x < Width img → 0 ≤ y < Height img →
  PixelRows img !! Z.to_nat y = Some row →
  row !! Z.to_nat (x / 8) = Some b →
  Bitmap_Get img x y = Some (Z.testbit b (x mod 8)).
Proof.
  intros Hx Hy Hrow Hbyte. unfold Bitmap_Get.
  destruct (Z.leb_spec (Width img) x); [lia |].
  destruct (Z.leb_spec (Height img) y); [lia |]. simpl.
  rewrite index_nonneg, Hrow by lia. simpl.
  rewrite index_nonneg, Hbyte by (Z.div_mod_to_equations; lia). simpl.
  rewrite get_bit_testbit by (Z.div_mod_to_equations; lia). done.
Qed.

Lemma Get_out_of_range (img : Bitmap) (x y : Z) :
  Width img ≤ x ∨ Height img ≤ y → Bitmap_Get img x y = Some false.
Proof.
  intros Hxy. unfold Bitmap_Get.
  destruct (Z.leb_spec (Width img) x), (Z.leb_spec (Height img) y);
    simpl; (done || lia).
Qed.

Lemma Set_out_of_range (img : Bitmap) (x y : Z) (black : bool) :
  Width img ≤ x ∨ Height img ≤ y → Bitmap_Set img x y black = Some img.
Proof.
  intros Hxy. unfold Bitmap_Set.
  destruct (Z.leb_spec (Width img) x), (Z.leb_spec (Height img) y);
    simpl; (done || lia).
Qed.

Lemma Set_in_range (img : Bitmap) (x y : Z) (black : bool)
    (row : list Z) (b : Z) :
  0 ≤ x < Width img → 0 ≤ y < Height img →
  PixelRows img !! Z.to_nat y = Some row →
  row !! Z.to_nat (x / 8) = Some b →
  Bitmap_Set img x y black =
  Some {| Width := Width img; Height := Height img;
          PixelRows := <[Z.to_nat y :=
                          <[Z.to_nat (x / 8) := set_bit b (x mod 8) black]> row]>
                       (PixelRows img) |}.
Proof.
  intros Hx Hy Hrow Hbyte. unfold Bitmap_Set.
  destruct (Z.leb_spec (Width img) x); [lia |].
  destruct (Z.leb_spec (Height img) y); [lia |]. simpl.
  pose proof (lookup_lt_Some _ _ _ Hrow) as Hly.
  pose proof (lookup_lt_Some _ _ _ Hbyte) as Hlx.
  rewrite index_nonneg, Hrow by lia. simpl.
  rewrite index_nonneg, Hbyte by (Z.div_mod_to_equations; lia). simpl.
  fold (set_bit b (x mod 8) black).
  rewrite store_in_range by (Z.div_mod_to_equations; lia). simpl.
  rewrite store_in_range by lia. done.
Qed.

(** [Set] keeps the invariant and the dimensions. *)
Lemma Set_wf (img img' : Bitmap) (x y : Z) (black : bool) :
  wf img → 0 ≤ x → 0 ≤ y → Bitmap_Set img x y black = Some img' →
  wf img' ∧ Width img' = Width img ∧ Height img' = Height img.
Proof.
  intros Hwf Hx Hy HS.
  destruct (Z.le_gt_cases (Width img) x) as [Hox | Hix];
    [rewrite Set_out_of_range in HS by lia; by injection HS as <- |].
  destruct (Z.le_gt_cases (Height img) y) as [Hoy | Hiy];
    [rewrite Set_out_of_range in HS by lia; by injection HS as <- |].
  destruct (wf_byte_at img x y) as (row & b & Hrow & Hlen & Hbyte & Hb);
    [done | lia | lia |].
  rewrite (Set_in_range img x y black row b) in HS by (done || lia).
  injection HS as <-. simpl. split; [| done].
  apply wf_spec in Hwf as (Hw & Hh & Hl & Hr).
  apply wf_spec. simpl. repeat split; try lia.
  - by rewrite length_insert.
  - apply Forall_insert; [done |].
    rewrite Forall_lookup in Hr. destruct (Hr _ _ Hrow) as [_ Hbytes].
    split; [by rewrite length_insert |].
    apply Forall_insert; [done | apply set_bit_range].
Qed.

(** A pixel read after a write: the written pixel has the written value
    and every other pixel keeps its own. *)
Lemma Get_Set (img img' : Bitmap) (x y x' y' : Z) (black : bool) :
  wf img → 0 ≤ x < Width img → 0 ≤ y < Height img →
  0 ≤ x' < Width img → 0 ≤ y' < Height img →
  Bitmap_Set img x y black = Some img' →
  Bitmap_Get img' x' y'
  = if decide (x' = x ∧ y' = y) then Some black else Bitmap_Get img x' y'.
Proof.
  intros Hwf Hx Hy Hx' Hy' HS.
  destruct (wf_byte_at img x y) as (row & b & Hrow & Hlen & Hbyte & Hb);
    [done .. |].
  destruct (wf_byte_at img x' y') as (row' & b' & Hrow' & Hlen' & Hbyte' & Hb');
    [done .. |].
  rewrite (Set_in_range img x y black row b) in HS by done.
  injection HS as <-.
  rewrite (Get_in_range img x' y' row' b') by done.
  pose proof (lookup_lt_Some _ _ _ Hrow) as Hly.
  pose proof (lookup_lt_Some _ _ _ Hbyte) as Hlx.
  destruct (decide (y' = y)) as [-> | Hny].
  - assert (row' = row) as -> by congruence.
    destruct (decide (x' / 8 = x / 8)) as [Heq | Hnb].
    + rewrite Heq in Hbyte'. assert (b' = b) as -> by congruence.
      erewrite Get_in_range; simpl; [| done | done | | ].
      2: by apply list_lookup_insert_eq.
      2: { rewrite Heq. by apply list_lookup_insert_eq. }
      rewrite set_bit_testbit by (Z.div_mod_to_equations; lia).
      repeat case_decide; try done.
      * exfalso. Z.div_mod_to_equations. lia.
      * exfalso. Z.div_mod_to_equations. lia.
    + erewrite Get_in_range; simpl; [| done | done | | ].
      2: by apply list_lookup_insert_eq.
      2: { rewrite list_lookup_insert_ne; [done |].
           intros Heq. apply Hnb. apply Z2Nat.inj in Heq; lia. }
      case_decide as Hd; [| done]. destruct Hd as [-> _]. done.
  - erewrite Get_in_range; simpl; [| done | done | | done].
    2: { rewrite list_lookup_insert_ne; [done |].
         intros Heq. apply Hny. apply Z2Nat.inj in Heq; lia. }
    case_decide as Hd; [| done]. destruct Hd as [_ ->]. done.
Qed.

(** C5. On a bitmap that satisfies the invariant of the data model,
    [Set(x, y, b)] followed by [Get(x, y)] returns [b] for every in-range
    coordinate; for an out-of-range coordinate [Set] leaves the bitmap as
    it is and [Get] returns [false]; neither call panics. *)
Theorem C5_set_get (img : Bitmap) (x y : Z) (b : bool) :
  wf img → 0 ≤ x < 256 → 0 ≤ y < 256 →
  (x < Width img ∧ y < Height img →
   ∃ img', Bitmap_Set img x y b = Some img'
           ∧ Bitmap_Get img' x y = Some b)
  ∧ (Width img ≤ x ∨ Height img ≤ y →
     Bitmap_Set img x y b = Some img ∧ Bitmap_Get img x y = Some false)
  ∧ is_Some (Bitmap_Set img x y b)
  ∧ is_Some (Bitmap_Get img x y).
Proof.
  intros Hwf Hx Hy.
  assert (Hin : x < Width img ∧ y < Height img →
                ∃ img', Bitmap_Set img x y b = Some img'
                        ∧ Bitmap_Get img' x y = Some b
                        ∧ is_Some (Bitmap_Get img x y)).
  { intros [Hxw Hyh].
    destruct (wf_byte_at img x y) as (row & v & Hrow & Hlen & Hbyte & Hb);
      [done | lia | lia |].
    eexists. split; [apply (Set_in_range img x y b row v); (done || lia) |].
    split.
    - erewrite Get_Set;
        [| done | | | | | apply (Set_in_range img x y b row v); (done || lia)];
        try lia.
      by rewrite decide_True.
    - rewrite (Get_in_range img x y row v) by (done || lia). done. }
  assert (Hout : Width img ≤ x ∨ Height img ≤ y →
                 Bitmap_Set img x y b = Some img
                 ∧ Bitmap_Get img x y = Some false).
  { intros Ho. by rewrite Set_out_of_range, Get_out_of_range. }
  split; [| split; [done |]].
  - intros Hi. destruct (Hin Hi) as (img' & HS & HG & _). eauto.
  - destruct (Z.lt_ge_cases x (Width img)) as [Hxw | Hxw];
      [destruct (Z.lt_ge_cases y (Height img)) as [Hyh | Hyh] |].
    + destruct Hin as (img' & HS & _ & HG); [done |]. rewrite HS. eauto.
    + destruct Hout as [-> ->]; [lia |]. eauto.
    + destruct Hout as [-> ->]; [lia |]. eauto.
Qed.

Lemma C5_set_get_witness :
  wf {| Width := 10; Height := 2; PixelRows := [[0; 0]; [0; 0]] |}
  ∧ ∃ img', Bitmap_Set {| Width := 10; Height := 2;
                          PixelRows := [[0; 0]; [0; 0]] |} 9 1 true = Some img'
            ∧ Bitmap_Get img' 9 1 = Some true.
Proof.
  split; [reflexivity |].
  apply (proj1 (C5_set_get
                  {| Width := 10; Height := 2; PixelRows := [[0; 0]; [0; 0]] |}
                  9 1 true eq_refl ltac:(lia) ltac:(lia))).
  simpl. lia.
Defined.

(* ===================================================================== *)
(** ** The wire format: [Write] *)
(* ===================================================================== *)

Lemma length_concat_uniform {A} (rows : list (list A)) (s : nat) :
  Forall (λ row, length row = s) rows →
  length (concat rows) = (length rows * s)%nat.
Proof.
  induction 1 as [| row rows Hrow _ IH]; simpl; [done |].
  rewrite length_app, IH, Hrow. done.
Qed.

Lemma wf_body_length (img : Bitmap) :
  wf img →
  Z.of_nat (length (concat (PixelRows img)))
  = Height img * ceil8 (Width img).
Proof.
  intros (Hw & Hh & Hl & Hr)%wf_spec.
  rewrite (length_concat_uniform _ (Z.to_nat (stride_of (Width img)))).
  - rewrite Hl, <- stride_of_ceil8 by lia.
    assert (0 ≤ stride_of (Width img))
      by (rewrite stride_of_div by lia; Z.div_mod_to_equations; lia).
    lia.
  - eapply Forall_impl; eauto. by intros row [? _].
Qed.

Lemma ceil8_bound (w : Z) : 0 ≤ w < 256 → 0 ≤ ceil8 w ≤ 32.
Proof.
  intros Hw. unfold ceil8.
  destruct (Z.eqb_spec (w mod 8) 0); Z.div_mod_to_equations; lia.
Qed.

(** With a writer that keeps the contract of [io.Writer], a rows loop that
    ends without an error has counted every byte of every row. *)
Lemma write_rows_count {W} `{Writer W} (rows : list (list Z)) (n n' : Z)
    (w w' : W) :
  writer_contract W →
  0 ≤ n → n + Z.of_nat (length (concat rows)) < 2 ^ 63 →
  write_rows rows n w = (n', None, w') →
  n' = n + Z.of_nat (length (concat rows)).
Proof.
  intros Hc. revert n w. induction rows as [| row rows IH]; intros n w Hn Hb.
  - simpl. intros [= <- _]. lia.
  - simpl in *. rewrite length_app in Hb.
    destruct (Hc w row) as [Hrange Hshort].
    destruct (io_Write w row) as [[n2 err] w1]. simpl in *.
    destruct err as [e |]; [done |].
    assert (n2 = Z.of_nat (length row)) as ->.
    { destruct (Z.lt_ge_cases n2 (Z.of_nat (length row))) as [Hlt | Hge];
        [by destruct (Hshort Hlt) | lia]. }
    rewrite int_wrap_small by lia.
    intros Hrun. apply IH in Hrun; [| lia | lia].
    rewrite Hrun, length_app. lia.
Qed.

Lemma bytes_Buffer_contract : writer_contract bytes_Buffer.
Proof. intros w p. simpl. split; [lia | intros ?; lia]. Qed.

(** In a [bytes.Buffer] the rows loop appends the rows in order. *)
Lemma write_rows_buffer (rows : list (list Z)) (n : Z) (s : list Z) :
  0 ≤ n → n + Z.of_nat (length (concat rows)) < 2 ^ 63 →
  write_rows rows n {| buf := s |}
  = (n + Z.of_nat (length (concat rows)), None,
     {| buf := s ++ concat rows |}).
Proof.
  revert n s. induction rows as [| row rows IH]; intros n s Hn Hb; simpl.
  - by rewrite Z.add_0_r, app_nil_r.
  - simpl in Hb. rewrite length_app in Hb.
    rewrite int_wrap_small by lia.
    rewrite IH by lia. rewrite length_app, <- app_assoc.
    f_equal. f_equal. lia.
Qed.

Lemma Write_buffer (img : Bitmap) :
  wf img →
  Bitmap_Write img {| buf := [] |}
  = (2 + Height img * ceil8 (Width img), None,
     {| buf := [Width img; Height img] ++ concat (PixelRows img) |}).
Proof.
  intros Hwf. pose proof (wf_body_length img Hwf) as Hlen.
  apply wf_spec in Hwf as (Hw & Hh & _).
  pose proof (ceil8_bound (Width img) Hw).
  unfold Bitmap_Write. simpl.
  rewrite !uint8_small by lia.
  rewrite write_rows_buffer by (simpl; nia).
  simpl. rewrite Hlen. done.
Qed.

Lemma encode_wf (img : Bitmap) :
  wf img → encode img = [Width img; Height img] ++ concat (PixelRows img).
Proof. intros Hwf. unfold encode. by rewrite Write_buffer. Qed.

(** C7. On a successful [Write] to a writer that keeps the contract of
    [io.Writer], the count returned is [2 + height * ceil(width/8)]; a
    [bytes.Buffer] always succeeds and receives exactly that many bytes:
    the two header bytes and [height] rows of [stride] bytes. *)
Theorem C7_write_size {W} `{Writer W} (img : Bitmap) (w : W) :
  writer_contract W → wf img →
  (∀ n w', Bitmap_Write img w = (n, None, w') →
           n = 2 + Height img * ceil8 (Width img))
  ∧ (Bitmap_Write img {| buf := [] |}).1
    = (2 + Height img * ceil8 (Width img), None)
  ∧ Z.of_nat (length (encode img)) = 2 + Height img * ceil8 (Width img).
Proof.
  intros Hc Hwf. pose proof (wf_body_length img Hwf) as Hlen.
  split; [| split].
  - intros n w'. unfold Bitmap_Write.
    apply wf_spec in Hwf as (Hw & Hh & _).
    pose proof (ceil8_bound (Width img) Hw).
    destruct (Hc w [uint8 (Width img); uint8 (Height img)]) as [Hrange Hshort].
    destruct (io_Write w _) as [[n0 err] w0]. simpl in *.
    destruct err as [e |]; [done |].
    assert (n0 = 2) as ->.
    { destruct (Z.lt_ge_cases n0 2) as [Hlt | Hge];
        [by destruct (Hshort Hlt) | lia]. }
    intros Hrun. apply write_rows_count in Hrun; [lia | done | lia | nia].
  - by rewrite Write_buffer.
  - rewrite encode_wf by done. simpl. lia.
Qed.

Lemma C7_write_size_witness :
  Bitmap_Write {| Width := 10; Height := 3;
                  PixelRows := [[1; 0]; [255; 3]; [0; 2]] |} {| buf := [] |}
  = (8, None, {| buf := [10; 3; 1; 0; 255; 3; 0; 2] |})
  ∧ 8 = 2 + 3 * ceil8 10.
Proof.
  split; [reflexivity |].
  apply (proj1 (C7_write_size
                  {| Width := 10; Height := 3;
                     PixelRows := [[1; 0]; [255; 3]; [0; 2]] |} {| buf := [] |}
                  bytes_Buffer_contract eq_refl)
           8 {| buf := [10; 3; 1; 0; 255; 3; 0; 2] |}).
  reflexivity.
Defined.

(* ===================================================================== *)
(** ** The wire format: [Read] *)
(* ===================================================================== *)

Lemma fill_full (p data : list Z) : length p = length data → fill p data = data.
Proof.
  intros Hlen. unfold fill.
  rewrite Hlen, drop_ge, app_nil_r by lia. apply firstn_all.
Qed.

(** The rows loop ends either with every row and no error, or with no row
    at all and an error. *)
Lemma read_rows_all_or_nothing {R} `{Reader R} (stride : Z)
    (rows : list (list Z)) (r : R) :
  (∃ rows' r', read_rows stride rows r = (Some rows', None, r')
               ∧ length rows' = length rows)
  ∨ (∃ e r', read_rows stride rows r = (None, Some e, r')).
Proof.
  revert r. induction rows as [| v rows IH]; intros r; simpl.
  - left. by exists [], r.
  - destruct (io_Read r (length v)) as [[data err] r1].
    destruct err as [e |]; [right; eauto |].
    destruct (Z.of_nat (length data) <? stride); [right; eauto |].
    destruct (IH r1) as [(rows' & r' & -> & Hlen) | (e & r' & ->)]; simpl.
    + left. exists (fill v data :: rows'), r'. simpl. by rewrite Hlen.
    + right. eauto.
Qed.

(** The first row read that returns an error, or fewer than [stride]
    bytes, decides the result of the rows loop. *)
Lemma read_rows_first_failure {R} `{Reader R} (stride : Z) (k i n : nat)
    (v : list Z) (r r2 r3 : R) (data : list Z) (err : option error) :
  length v = k → (i < n)%nat →
  after_rows stride k i r = Some r2 →
  io_Read r2 k = (data, err, r3) →
  (∀ e, err = Some e →
        read_rows stride (replicate n v) r = (None, Some e, r3))
  ∧ (err = None → Z.of_nat (length data) < stride →
     read_rows stride (replicate n v) r
     = (None, Some (errors_New "Bitmap is truncated"), r3)).
Proof.
  intros Hv. revert n r. induction i as [| i IH]; intros n r Hi Hafter Hread.
  - simpl in Hafter. injection Hafter as ->.
    destruct n as [| n]; [lia |]. simpl. rewrite Hv, Hread. split.
    + by intros e ->.
    + intros -> Hshort. by destruct (Z.ltb_spec (Z.of_nat (length data)) stride); [| lia].
  - destruct n as [| n]; [lia |]. simpl in *. rewrite Hv.
    destruct (io_Read r k) as [[data1 err1] r1].
    destruct err1 as [e1 |]; [done |].
    destruct (Z.of_nat (length data1) <? stride); [done |].
    destruct (IH n r1) as [He Hs]; [lia | done | done |].
    split.
    + intros e Herr. by rewrite (He e Herr).
    + intros Herr Hshort. by rewrite (Hs Herr Hshort).
Qed.

(** [Read] after a header read that returned two bytes and no error. *)
Lemma Read_after_header {R} `{Reader R} (r r1 : R) (w h : Z) :
  io_Read r 2 = ([w; h], None, r1) → 0 ≤ w → 0 ≤ h →
  Read r =
  let '(rows, err, r2) :=
    read_rows (stride_of w)
      (replicate (Z.to_nat h) (replicate (Z.to_nat (stride_of w)) 0)) r1 in
  match rows with
  | Some rows' =>
      Some (Some {| Width := w; Height := h; PixelRows := rows' |}, err, r2)
  | None => Some (None, err, r2)
  end.
Proof.
  intros Hhdr Hw Hh. unfold Read. simpl. rewrite Hhdr. simpl.
  rewrite Create_rows by done. simpl. done.
Qed.

(** C4 (as amended). An error returned by a read of the stream is
    returned unchanged, whatever count comes with it; a header read
    without error but with a count other than 2 gives the truncated-header
    error; the first row read without error but with fewer than [stride]
    bytes gives the truncated-body error; and an error is never
    accompanied by a bitmap. *)
Theorem C4_read_failures {R} `{Reader R} (r r1 : R) (hdr : list Z)
    (err : option error) :
  io_Read r 2 = (hdr, err, r1) →
  (∀ e, err = Some e → Read r = Some (None, Some e, r1))
  ∧ (err = None → length hdr ≠ 2%nat →
     Read r = Some (None, Some (errors_New "Bitmap header is truncated"), r1))
  ∧ (∀ w h i r2 r3 data err2,
       err = None → hdr = [w; h] → 0 ≤ w → 0 ≤ h → (i < Z.to_nat h)%nat →
       after_rows (stride_of w) (Z.to_nat (stride_of w)) i r1 = Some r2 →
       io_Read r2 (Z.to_nat (stride_of w)) = (data, err2, r3) →
       (∀ e, err2 = Some e → Read r = Some (None, Some e, r3))
       ∧ (err2 = None → Z.of_nat (length data) < stride_of w →
          Read r = Some (None, Some (errors_New "Bitmap is truncated"), r3)))
  ∧ (∀ bmp e r', Read r = Some (bmp, Some e, r') → bmp = None)
  ∧ (∀ bmp r', Read r = Some (bmp, None, r') → bmp ≠ None).
Proof.
  intros Hhdr. split; [| split; [| split; [| split]]].
  - intros e ->. unfold Read. simpl. by rewrite Hhdr.
  - intros -> Hlen. unfold Read. simpl. rewrite Hhdr.
    destruct (Nat.eqb_spec (length hdr) 2); [lia | done].
  - intros w h i r2 r3 data err2 -> -> Hw Hh Hi Hafter Hread.
    rewrite (Read_after_header r r1 w h) by done.
    destruct (read_rows_first_failure (stride_of w) (Z.to_nat (stride_of w))
                i (Z.to_nat h) (replicate (Z.to_nat (stride_of w)) 0)
                r1 r2 r3 data err2) as [He Hs];
      [by rewrite length_replicate | done | done | done |].
    split.
    + intros e Herr. by rewrite (He e Herr).
    + intros Herr Hshort. by rewrite (Hs Herr Hshort).
  - intros bmp e r'. unfold Read. simpl. rewrite Hhdr.
    destruct err as [e0 |]; [by intros [= <- _ _] |].
    destruct (negb (length hdr =? 2)%nat); [by intros [= <- _ _] |].
    destruct (index (fill [0; 0] hdr) 0) as [w |]; [| done]. simpl.
    destruct (index (fill [0; 0] hdr) 1) as [h |]; [| done]. simpl.
    destruct (Create w h) as [b0 |]; [| done]. simpl.
    destruct (read_rows_all_or_nothing (stride_of w) (PixelRows b0) r1)
      as [(rows' & r2 & -> & _) | (e1 & r2 & ->)]; [done |].
    by intros [= <- _ _].
  - intros bmp r'. unfold Read. simpl. rewrite Hhdr.
    destruct err as [e0 |]; [done |].
    destruct (negb (length hdr =? 2)%nat); [done |].
    destruct (index (fill [0; 0] hdr) 0) as [w |]; [| done]. simpl.
    destruct (index (fill [0; 0] hdr) 1) as [h |]; [| done]. simpl.
    destruct (Create w h) as [b0 |]; [| done]. simpl.
    destruct (read_rows_all_or_nothing (stride_of w) (PixelRows b0) r1)
      as [(rows' & r2 & -> & _) | (e1 & r2 & ->)]; [| done].
    by intros [= <- _].
Qed.

Lemma C4_read_failures_witness :
  io_Read {| unread := [16; 2; 7; 7; 9] |} 2
  = ([16; 2], None, {| unread := [7; 7; 9] |})
  ∧ Read {| unread := [16; 2; 7; 7; 9] |}
    = Some (None, Some (errors_New "Bitmap is truncated"), {| unread := [] |}).
Proof.
  split; [reflexivity |].
  apply (proj1 (proj2 (proj2 (C4_read_failures
                  {| unread := [16; 2; 7; 7; 9] |} {| unread := [7; 7; 9] |}
                  [16; 2] None eq_refl)))
           16 2 1%nat {| unread := [9] |} {| unread := [] |} [9] None
           eq_refl eq_refl ltac:(lia) ltac:(lia) ltac:(simpl; lia)
           eq_refl eq_refl);
    [reflexivity | vm_compute; reflexivity].
Defined.

(** C4, as first stated, fails: with no byte available the header read
    yields fewer than 2 bytes, yet the error of [Read] is the stream's
    [io.EOF] and not the truncated-header error; and a row read that
    yields fewer than [stride] bytes at the end of the stream gives
    [io.EOF] and not the truncated-body error. *)
Lemma C4_counterexample :
  (io_Read {| unread := [] |} 2).1 = ([], Some io_EOF)
  ∧ Read {| unread := [] |} = Some (None, Some io_EOF, {| unread := [] |})
  ∧ Read {| buf := [] |} = Some (None, Some io_EOF, {| buf := [] |})
  ∧ io_EOF ≠ errors_New "Bitmap header is truncated"
  ∧ (io_Read {| unread := [] |} 1).1 = ([], Some io_EOF)
  ∧ Read {| unread := [8; 1] |} = Some (None, Some io_EOF, {| unread := [] |})
  ∧ io_EOF ≠ errors_New "Bitmap is truncated".
Proof. repeat split; (reflexivity || discriminate). Qed.

(** *** Reading back what [Write] produced *)

(** A reader [mk s] over the unread bytes [s] serves a read of [length d]
    bytes when [d] is next in the stream; [allow_empty] tells whether it
    also serves a read of no byte. *)
Lemma read_rows_stream {R} `{Reader R} (mk : list Z → R) (allow_empty : bool) :
  (∀ d rest, d ≠ [] ∨ allow_empty = true →
             io_Read (mk (d ++ rest)) (length d) = (d, None, mk rest)) →
  ∀ (stride : Z) (rows bufs : list (list Z)) (rest : list Z),
    Forall2 (λ v row, length v = length row) bufs rows →
    Forall (λ row, stride ≤ Z.of_nat (length row)
                   ∧ (row ≠ [] ∨ allow_empty = true)) rows →
    read_rows stride bufs (mk (concat rows ++ rest)) = (Some rows, None, mk rest).
Proof.
  intros Hserve stride rows bufs rest Hshape. revert rest.
  induction Hshape as [| v row bufs rows Hlen _ IH]; intros rest Hrows; [done |].
  apply Forall_cons in Hrows as [[Hstride Hne] Hrows].
  simpl. rewrite <- app_assoc, Hlen, Hserve by done.
  destruct (Z.ltb_spec (Z.of_nat (length row)) stride); [lia |].
  rewrite IH by done. simpl. by rewrite fill_full.
Qed.

Lemma bytes_Buffer_serves (d rest : list Z) :
  io_Read {| buf := d ++ rest |} (length d) = (d, None, {| buf := rest |}).
Proof.
  unfold io_Read, bytes_Buffer_Reader. simpl.
  destruct (d ++ rest) as [| c s] eqn:E.
  - apply app_eq_nil in E as [-> ->]. done.
  - rewrite <- E, take_app_length, drop_app_length. done.
Qed.

Lemma bytes_Reader_serves (d rest : list Z) :
  d ≠ [] →
  io_Read {| unread := d ++ rest |} (length d) = (d, None, {| unread := rest |}).
Proof.
  intros Hd. unfold io_Read, bytes_Reader_Reader. simpl.
  destruct (d ++ rest) as [| c s] eqn:E.
  - by apply app_eq_nil in E as [-> _].
  - rewrite <- E, take_app_length, drop_app_length. done.
Qed.

Lemma fresh_rows_shape (rows : list (list Z)) (n s : nat) :
  length rows = n → Forall (λ row, length row = s) rows →
  Forall2 (λ v row : list Z, length v = length row)
          (replicate n (replicate s 0)) rows.
Proof.
  intros <-. induction 1 as [| row rows Hrow _ IH]; simpl; constructor.
  - by rewrite length_replicate.
  - done.
Qed.





(** The reader has to serve the reads in full: [Read] makes one call for
    the header and one per row, so through a reader that hands out one
    byte per call it fails on the header of every encoding. *)
Example Read_one_byte_per_call :
  Read {| inner := {| unread := encode {| Width := 10; Height := 2;
                                          PixelRows := [[129; 3]; [64; 1]] |} |} |}
  = Some (None, Some (errors_New "Bitmap header is truncated"),
          {| inner := {| unread := [2; 129; 3; 64; 1] |} |}).
Proof. reflexivity. Qed.

(* ===================================================================== *)
(** ** Painting a bitmap pixel by pixel *)
(* ===================================================================== *)

Lemma clip_range (v : Z) : 0 ≤ clip v ≤ 255.
Proof.
  unfold clip. destruct (Z.ltb_spec v 0); [lia |].
  destruct (Z.ltb_spec 255 v); lia.
Qed.

Lemma createFromImageSize_spec {Color} (src : Image Color) :
  ∃ bmp,
    createFromImageSize src
    = Some (bmp, clip (int_sub (MaxX src) (MinX src)),
                 clip (int_sub (MaxY src) (MinY src)))
    ∧ wf bmp
    ∧ Width bmp = clip (int_sub (MaxX src) (MinX src))
    ∧ Height bmp = clip (int_sub (MaxY src) (MinY src)).
Proof.
  unfold createFromImageSize.
  pose proof (clip_range (int_sub (MaxX src) (MinX src))) as Hw.
  pose proof (clip_range (int_sub (MaxY src) (MinY src))) as Hh.
  rewrite !uint8_small by lia.
  set (W := clip (int_sub (MaxX src) (MinX src))) in *.
  set (H := clip (int_sub (MaxY src) (MinY src))) in *.
  assert (HC : Create W H = Some {| Width := W; Height := H;
    PixelRows := replicate (Z.to_nat H) (replicate (Z.to_nat (stride_of W)) 0) |})
    by (apply Create_rows; lia).
  rewrite HC. simpl. eexists. split; [done |].
  apply Create_wf in HC; [done | lia | lia].
Qed.

Lemma Set_succeeds (img : Bitmap) (x y : Z) (black : bool) :
  wf img → 0 ≤ x < Width img → 0 ≤ y < Height img →
  ∃ img', Bitmap_Set img x y black = Some img'.
Proof.
  intros Hwf Hx Hy.
  destruct (wf_byte_at img x y) as (row & b & Hrow & _ & Hbyte & _);
    [done .. |].
  rewrite (Set_in_range img x y black row b) by done. eauto.
Qed.

(** Two nested loops over the rows and the columns whose body sets the
    pixel [x, y] to [g x y] paint exactly the picture [g]. *)
Lemma paint_loops (body : Z → Z → Bitmap → option Bitmap) (g : Z → Z → bool)
    (bmp : Bitmap) :
  wf bmp →
  (∀ x y b, 0 ≤ x < Width bmp → 0 ≤ y < Height bmp →
            body x y b = Bitmap_Set b (uint8 x) (uint8 y) (g x y)) →
  ∃ bmp',
    for_range (Height bmp)
      (λ y b, for_range (Width bmp) (λ x b, body x y b) b) bmp = Some bmp'
    ∧ wf bmp' ∧ Width bmp' = Width bmp ∧ Height bmp' = Height bmp
    ∧ ∀ x y, 0 ≤ x < Width bmp → 0 ≤ y < Height bmp →
             Bitmap_Get bmp' x y = Some (g x y).
Proof.
  intros Hwf Hbody.
  pose proof Hwf as (HW & HH & _)%wf_spec.
  set (W := Width bmp) in *. set (H := Height bmp) in *.
  destruct (for_range_inv
    (λ y b, wf b ∧ Width b = W ∧ Height b = H
            ∧ ∀ x' y', 0 ≤ x' < W → 0 ≤ y' < y →
                       Bitmap_Get b x' y' = Some (g x' y'))
    (λ y b, for_range W (λ x b, body x y b) b) H bmp)
    as (bmp' & Hrun & Hwf' & HW' & HH' & Hpix).
  - repeat split; try done. intros x' y' _ Hy'. lia.
  - intros y b Hy (Hwfb & HWb & HHb & Hdone).
    destruct (for_range_inv
      (λ x b, wf b ∧ Width b = W ∧ Height b = H
              ∧ (∀ x' y', 0 ≤ x' < W → 0 ≤ y' < y →
                          Bitmap_Get b x' y' = Some (g x' y'))
              ∧ ∀ x', 0 ≤ x' < x → Bitmap_Get b x' y = Some (g x' y))
      (λ x b, body x y b) W b)
      as (b' & Hrow & Hwf1 & HW1 & HH1 & Hold & Hnew).
    + repeat split; try done. intros x' Hx'. lia.
    + intros x c Hx (Hwfc & HWc & HHc & Hrows & Hcols).
      rewrite Hbody, !uint8_small by lia.
      destruct (Set_succeeds c x y (g x y)) as [c' HS]; [done | lia | lia |].
      exists c'. split; [done |].
      destruct (Set_wf c c' x y (g x y)) as (Hwfc' & HWc' & HHc');
        [done | lia | lia | done |].
      repeat split; try congruence.
      * intros x' y' Hx' Hy'.
        rewrite (Get_Set c c' x y x' y' (g x y)) by (done || lia).
        rewrite decide_False by lia. by apply Hrows.
      * intros x' Hx'.
        rewrite (Get_Set c c' x y x' y (g x y)) by (done || lia).
        case_decide as Hd; [by destruct Hd as [-> _] | apply Hcols; lia].
    + exists b'. split; [done |]. repeat split; try done.
      intros x' y' Hx' Hy'.
      destruct (decide (y' = y)) as [-> | Hne].
      * apply Hnew. lia.
      * apply Hold; lia.
  - exists bmp'. split; [done |]. repeat split; try done.
    intros x y Hx Hy. apply Hpix; lia.
Qed.

Lemma Get_true_in_range (img : Bitmap) (x y : Z) :
  Bitmap_Get img x y = Some true → 0 ≤ x < Width img ∧ 0 ≤ y < Height img.
Proof.
  unfold Bitmap_Get, index.
  destruct (Z.leb_spec (Width img) x), (Z.leb_spec (Height img) y);
    simpl; try done.
  destruct (Z.ltb_spec y 0); [done |].
  destruct (PixelRows img !! Z.to_nat y) as [row |]; [| done]. simpl.
  destruct (Z.ltb_spec (x / 8) 0); [done |].
  intros _. Z.div_mod_to_equations. lia.
Qed.

(* ===================================================================== *)
(** ** [ByThreshold] *)
(* ===================================================================== *)

Lemma ByThreshold_spec {Color} (colorToGray : Color → Z) (src : Image Color)
    (threshold : Z) :
  ∃ bmp,
    ByThreshold colorToGray src threshold = Some bmp
    ∧ wf bmp
    ∧ Width bmp = clip (int_sub (MaxX src) (MinX src))
    ∧ Height bmp = clip (int_sub (MaxY src) (MinY src))
    ∧ ∀ x y, 0 ≤ x < Width bmp → 0 ≤ y < Height bmp →
             Bitmap_Get bmp x y = Some (lumAt colorToGray src x y <? threshold).
Proof.
  unfold ByThreshold.
  destruct (createFromImageSize_spec src) as (bmp0 & -> & Hwf & HW & HH).
  simpl. rewrite <- HW, <- HH.
  destruct (paint_loops
    (λ x y b, Bitmap_Set b (uint8 x) (uint8 y)
                (lumAt colorToGray src x y <? threshold))
    (λ x y, lumAt colorToGray src x y <? threshold) bmp0)
    as (bmp & Hrun & Hwf' & HW' & HH' & Hpix); [done | done |].
  exists bmp. rewrite HW', HH'. done.
Qed.

(** C6. For every source image and threshold, [ByThreshold] returns a
    bitmap of the clipped size of the source in which the pixel [x, y] is
    black exactly when the 8-bit luminance of the source pixel of that
    cell is strictly below the threshold; a luminance equal to the
    threshold gives white. *)
Theorem C6_threshold_pixels {Color} (colorToGray : Color → Z)
    (src : Image Color) (threshold : Z) :
  ∃ bmp,
    ByThreshold colorToGray src threshold = Some bmp
    ∧ wf bmp
    ∧ Width bmp = clip (int_sub (MaxX src) (MinX src))
    ∧ Height bmp = clip (int_sub (MaxY src) (MinY src))
    ∧ ∀ x y, 0 ≤ x < clip (int_sub (MaxX src) (MinX src)) →
             0 ≤ y < clip (int_sub (MaxY src) (MinY src)) →
        (Bitmap_Get bmp x y = Some true
         ↔ colorToGray (At src (int_add x (MinX src)) (int_add y (MinY src)))
           < threshold)
        ∧ (Bitmap_Get bmp x y = Some false
           ↔ threshold
             ≤ colorToGray (At src (int_add x (MinX src)) (int_add y (MinY src)))).
Proof.
  destruct (ByThreshold_spec colorToGray src threshold)
    as (bmp & Hrun & Hwf & HW & HH & Hpix).
  exists bmp. do 4 (split; [done |]). intros x y Hx Hy.
  rewrite (Hpix x y) by lia. unfold lumAt.
  destruct (Z.ltb_spec
    (colorToGray (At src (int_add x (MinX src)) (int_add y (MinY src))))
    threshold); split; split; (done || lia || intros; f_equal; lia).
Qed.

(** C8. [ByThreshold] is monotonic in its threshold: for [t1 <= t2] every
    pixel that is black in the bitmap for [t1] is black in the one for
    [t2]. *)
Theorem C8_threshold_monotonic {Color} (colorToGray : Color → Z)
    (src : Image Color) (t1 t2 : Z) :
  t1 ≤ t2 →
  ∃ bmp1 bmp2,
    ByThreshold colorToGray src t1 = Some bmp1
    ∧ ByThreshold colorToGray src t2 = Some bmp2
    ∧ ∀ x y, Bitmap_Get bmp1 x y = Some true → Bitmap_Get bmp2 x y = Some true.
Proof.
  intros Ht.
  destruct (ByThreshold_spec colorToGray src t1)
    as (bmp1 & Hrun1 & _ & HW1 & HH1 & Hpix1).
  destruct (ByThreshold_spec colorToGray src t2)
    as (bmp2 & Hrun2 & _ & HW2 & HH2 & Hpix2).
  exists bmp1, bmp2. split; [done |]. split; [done |].
  intros x y Hblack.
  destruct (Get_true_in_range bmp1 x y Hblack) as [Hx Hy].
  rewrite Hpix1 in Hblack by done.
  rewrite Hpix2 by lia. f_equal.
  injection Hblack as Hlt. apply Z.ltb_lt in Hlt. apply Z.ltb_lt. lia.
Qed.

Lemma C8_threshold_monotonic_witness :
  100 ≤ 120
  ∧ ∃ bmp1 bmp2,
      ByThreshold (λ c : Z, c)
        {| MinX := 0; MinY := 0; MaxX := 3; MaxY := 1;
           At := λ x y, 90 + 20 * x |} 100 = Some bmp1
      ∧ ByThreshold (λ c : Z, c)
          {| MinX := 0; MinY := 0; MaxX := 3; MaxY := 1;
             At := λ x y, 90 + 20 * x |} 120 = Some bmp2
      ∧ ∀ x y, Bitmap_Get bmp1 x y = Some true → Bitmap_Get bmp2 x y = Some true.
Proof.
  split; [lia |].
  apply (C8_threshold_monotonic (λ c : Z, c)
           {| MinX := 0; MinY := 0; MaxX := 3; MaxY := 1;
              At := λ x y, 90 + 20 * x |} 100 120).
  lia.
Defined.

(* ===================================================================== *)
(** ** The dithering pass: every access is inside the grid *)
(* ===================================================================== *)

Section Indices.
Variables w h x y : Z.
Hypothesis Hx : 0 ≤ x < w.
Hypothesis Hy : 0 ≤ y < h.
Hypothesis Hsize : w * h < 2 ^ 63.

Lemma cell_below_size : y * w + x < w * h.
Proof using Hx Hy. nia. Qed.

Lemma int_sub_w_1 : int_sub w 1 = w - 1.
Proof using Hx Hy Hsize. unfold int_sub. apply int_wrap_small. nia. Qed.

Lemma int_sub_h_1 : int_sub h 1 = h - 1.
Proof using Hx Hy Hsize. unfold int_sub. apply int_wrap_small. nia. Qed.

Lemma here_index_exact : here_index w x y = y * w + x.
Proof using Hx Hy Hsize.
  unfold here_index, int_add, int_mul.
  rewrite (int_wrap_small (y * w)) by nia. apply int_wrap_small. nia.
Qed.

Lemma east_index_exact : east_index w x y = y * w + x + 1.
Proof using Hx Hy Hsize.
  unfold east_index, int_add, int_mul.
  rewrite (int_wrap_small (y + 0)) by nia.
  rewrite (int_wrap_small ((y + 0) * w)) by nia.
  rewrite (int_wrap_small ((y + 0) * w + x)) by nia.
  rewrite int_wrap_small by nia. lia.
Qed.

Hypothesis Hrow : y ≠ h - 1.

Lemma next_row_below_size : (y + 1) * w + x + 1 ≤ w * h.
Proof using Hx Hy Hrow. nia. Qed.

Lemma southwest_index_exact : southwest_index w x y = (y + 1) * w + x - 1.
Proof using Hx Hy Hsize Hrow.
  pose proof next_row_below_size.
  unfold southwest_index, int_add, int_sub, int_mul.
  rewrite (int_wrap_small (y + 1)) by nia.
  rewrite (int_wrap_small ((y + 1) * w)) by nia.
  rewrite (int_wrap_small ((y + 1) * w + x)) by nia.
  apply int_wrap_small. nia.
Qed.

Lemma south_index_exact : south_index w x y = (y + 1) * w + x.
Proof using Hx Hy Hsize Hrow.
  pose proof next_row_below_size.
  unfold south_index, int_add, int_mul.
  rewrite (int_wrap_small (y + 1)) by nia.
  rewrite (int_wrap_small ((y + 1) * w)) by nia.
  rewrite (int_wrap_small ((y + 1) * w + x)) by nia.
  rewrite int_wrap_small by nia. lia.
Qed.

Lemma southeast_index_exact : southeast_index w x y = (y + 1) * w + x + 1.
Proof using Hx Hy Hsize Hrow.
  pose proof next_row_below_size.
  unfold southeast_index, int_add, int_mul.
  rewrite (int_wrap_small (y + 1)) by nia.
  rewrite (int_wrap_small ((y + 1) * w)) by nia.
  rewrite (int_wrap_small ((y + 1) * w + x)) by nia.
  apply int_wrap_small. nia.
Qed.

End Indices.

Lemma add_at_in_range (g : list float) (i : Z) (d : float) :
  0 ≤ i < Z.of_nat (length g) →
  ∃ v, g !! Z.to_nat i = Some v
       ∧ add_at g i d = Some (<[Z.to_nat i := (v + d)%float]> g).
Proof.
  intros Hi. unfold add_at.
  destruct (lookup_lt_is_Some_2 g (Z.to_nat i)) as [v Hv]; [lia |].
  exists v. split; [done |].
  rewrite index_nonneg, Hv by lia. simpl. by apply store_in_range.
Qed.

Lemma add_at_length (g g' : list float) (i : Z) (d : float) :
  0 ≤ i < Z.of_nat (length g) → add_at g i d = Some g' → length g' = length g.
Proof.
  intros Hi Hadd. destruct (add_at_in_range g i d Hi) as (v & _ & Heq).
  rewrite Heq in Hadd. injection Hadd as <-. apply length_insert.
Qed.

(** One cell of the pass on a grid of [w * h] values: no access leaves the
    grid, the cells before the current one are left as they are, and the
    current cell keeps its quantized value when the row has at least two
    cells or is the last one. *)
Lemma dither_cell_frame (w h x y : Z) (g : list float) :
  0 ≤ x < w → 0 ≤ y < h →
  Z.of_nat (length g) = w * h → w * h < 2 ^ 63 →
  ∃ g' orig,
    dither_cell w h x y g = Some g'
    ∧ length g' = length g
    ∧ g !! Z.to_nat (y * w + x) = Some orig
    ∧ (∀ j, (j < Z.to_nat (y * w + x))%nat → g' !! j = g !! j)
    ∧ (2 ≤ w ∨ y = h - 1 →
       g' !! Z.to_nat (y * w + x) = Some (quantize orig)).
Proof.
  intros Hx Hy Hlen Hsize.
  pose proof (cell_below_size w h x y Hx Hy) as Hcell.
  unfold dither_cell.
  rewrite (int_sub_w_1 w h x y), (int_sub_h_1 w h x y) by done.
  rewrite (here_index_exact w h x y) by done.
  destruct (lookup_lt_is_Some_2 g (Z.to_nat (y * w + x))) as [orig Ho]; [nia |].
  rewrite index_nonneg, Ho by nia. simpl.
  rewrite store_in_range by nia. simpl.
  set (g1 := <[Z.to_nat (y * w + x) := quantize orig]> g).
  assert (Hl1 : length g1 = length g) by apply length_insert.
  assert (Hf1 : ∀ j, (j < Z.to_nat (y * w + x))%nat → g1 !! j = g !! j).
  { intros j Hj. unfold g1. apply list_lookup_insert_ne. lia. }
  assert (Hq1 : g1 !! Z.to_nat (y * w + x) = Some (quantize orig)).
  { unfold g1. apply list_lookup_insert_eq. nia. }
  clearbody g1.
  (* east *)
  assert (∃ g2, (if negb (x =? w - 1)
                 then add_at g1 (east_index w x y)
                        ((orig - quantize orig) * 7 / 16)%float
                 else Some g1) = Some g2
                ∧ length g2 = length g
                ∧ (∀ j, (j < Z.to_nat (y * w + x))%nat → g2 !! j = g !! j)
                ∧ g2 !! Z.to_nat (y * w + x) = Some (quantize orig))
    as (g2 & -> & Hl2 & Hf2 & Hq2).
  { destruct (Z.eqb_spec x (w - 1)) as [Hxe | Hxe]; simpl; [eauto |].
    rewrite (east_index_exact w h x y) by done.
    destruct (add_at_in_range g1 (y * w + x + 1)
                ((orig - quantize orig) * 7 / 16)%float) as (v & _ & ->); [nia |].
    eexists. split; [done |]. split; [by rewrite length_insert |]. split.
    - intros j Hj. rewrite list_lookup_insert_ne by lia. by apply Hf1.
    - rewrite list_lookup_insert_ne by nia. done. }
  simpl. clear g1 Hl1 Hf1 Hq1.
  destruct (Z.eqb_spec y (h - 1)) as [Hye | Hye]; simpl.
  { exists g2, orig. done. }
  pose proof (next_row_below_size w h x y Hx Hy Hye) as Hnext.
  rewrite (southwest_index_exact w h x y), (south_index_exact w h x y) by done.
  destruct (add_at_in_range g2 ((y + 1) * w + x - 1)
              ((orig - quantize orig) * 3 / 16)%float) as (v3 & _ & ->); [nia |].
  simpl. set (g3 := <[Z.to_nat ((y + 1) * w + x - 1) := _]> g2).
  assert (Hl3 : length g3 = length g) by (unfold g3; by rewrite length_insert).
  assert (Hf3 : ∀ j, (j < Z.to_nat (y * w + x))%nat → g3 !! j = g !! j).
  { intros j Hj. unfold g3. rewrite list_lookup_insert_ne by nia. by apply Hf2. }
  assert (Hq3 : 2 ≤ w → g3 !! Z.to_nat (y * w + x) = Some (quantize orig)).
  { intros Hw2. unfold g3. rewrite list_lookup_insert_ne by nia. done. }
  clearbody g3.
  destruct (add_at_in_range g3 ((y + 1) * w + x)
              ((orig - quantize orig) * 5 / 16)%float) as (v4 & _ & ->); [nia |].
  simpl. set (g4 := <[Z.to_nat ((y + 1) * w + x) := _]> g3).
  assert (Hl4 : length g4 = length g) by (unfold g4; by rewrite length_insert).
  assert (Hf4 : ∀ j, (j < Z.to_nat (y * w + x))%nat → g4 !! j = g !! j).
  { intros j Hj. unfold g4. rewrite list_lookup_insert_ne by nia. by apply Hf3. }
  assert (Hq4 : 2 ≤ w → g4 !! Z.to_nat (y * w + x) = Some (quantize orig)).
  { intros Hw2. unfold g4. rewrite list_lookup_insert_ne by nia. by apply Hq3. }
  clearbody g4.
  destruct (Z.eqb_spec x (w - 1)) as [Hxe | Hxe]; simpl.
  { exists g4, orig. repeat split; try done. intros [Hw2 | ?]; [by apply Hq4 | lia]. }
  rewrite (southeast_index_exact w h x y) by done.
  destruct (add_at_in_range g4 ((y + 1) * w + x + 1)
              ((orig - quantize orig) * 1 / 16)%float) as (v5 & _ & ->); [nia |].
  eexists _, orig. split; [done |]. split; [by rewrite length_insert |].
  split; [done |]. split.
  - intros j Hj. rewrite list_lookup_insert_ne by nia. by apply Hf4.
  - intros [Hw2 | ?]; [| lia]. rewrite list_lookup_insert_ne by nia. by apply Hq4.
Qed.

Lemma dither_cell_safe (w h x y : Z) (g : list float) :
  0 ≤ x < w → 0 ≤ y < h →
  Z.of_nat (length g) = w * h → w * h < 2 ^ 63 →
  ∃ g', dither_cell w h x y g = Some g'
        ∧ length g' = length g
        ∧ ∀ j, (j < Z.to_nat (y * w + x))%nat → g' !! j = g !! j.
Proof.
  intros Hx Hy Hlen Hsize.
  destruct (dither_cell_frame w h x y g) as (g' & orig & Hrun & Hl & _ & Hf & _);
    [done .. |].
  by exists g'.
Qed.

(** The whole pass on a grid of [w * h] values never panics. *)
Lemma floydSteinbergDither_safe (g : list float) (w h : Z) :
  0 ≤ w → 0 ≤ h → Z.of_nat (length g) = w * h → w * h < 2 ^ 63 →
  ∃ g', floydSteinbergDither g w h = Some g' ∧ length g' = length g.
Proof.
  intros Hw Hh Hlen Hsize. unfold floydSteinbergDither.
  destruct (for_range_inv (λ _ (t : list float), length t = length g)
    (λ y t, for_range w (λ x t, dither_cell w h x y t) t) h g)
    as (g' & Hrun & Hl); [done | | eauto].
  intros y t Hy Ht.
  destruct (for_range_inv (λ _ (u : list float), length u = length g)
    (λ x u, dither_cell w h x y u) w t) as (t' & Hrow & Hl'); [done | | eauto].
  intros x u Hx Hu.
  destruct (dither_cell_safe w h x y u) as (u' & Hcell & Hlu & _);
    [done | done | lia | done |].
  exists u'. split; [done | lia].
Qed.

(** C10 (as amended). On a grid of [w * h] values (a slice, so its length
    is an [int]) the pass never panics, and every index expression that
    the body evaluates at a cell lies inside the grid.  At the first column of a row that is not the last, the
    unguarded southwest write targets the flat index [(y+1)*w - 1], which
    lies in the grid: it is the last cell of the current row, which is the
    current cell itself when [w = 1] and a cell still to be visited when
    [w >= 2]. *)
Theorem C10_dither_in_bounds (grayMap : list float) (w h : Z) :
  0 ≤ w → 0 ≤ h →
  Z.of_nat (length grayMap) = w * h → w * h < 2 ^ 63 →
  (∃ g', floydSteinbergDither grayMap w h = Some g'
         ∧ length g' = length grayMap)
  ∧ (∀ x y, 0 ≤ x < w → 0 ≤ y < h →
       0 ≤ here_index w x y < Z.of_nat (length grayMap)
       ∧ (x ≠ w - 1 → 0 ≤ east_index w x y < Z.of_nat (length grayMap))
       ∧ (y ≠ h - 1 →
          0 ≤ southwest_index w x y < Z.of_nat (length grayMap)
          ∧ 0 ≤ south_index w x y < Z.of_nat (length grayMap)
          ∧ (x ≠ w - 1 →
             0 ≤ southeast_index w x y < Z.of_nat (length grayMap))))
  ∧ (∀ y, 0 < w → 0 ≤ y < h - 1 →
       southwest_index w 0 y = (y + 1) * w - 1
       ∧ 0 ≤ southwest_index w 0 y < Z.of_nat (length grayMap)
       ∧ southwest_index w 0 y = here_index w (w - 1) y
       ∧ (already_visited (w - 1) y 0 y = true ↔ w = 1)).
Proof.
  intros Hw Hh Hlen Hsize. split; [| split].
  - by apply floydSteinbergDither_safe.
  - intros x y Hx Hy.
    rewrite (here_index_exact w h x y), (east_index_exact w h x y) by done.
    split; [nia |]. split; [nia |]. intros Hrow.
    rewrite (southwest_index_exact w h x y), (south_index_exact w h x y),
      (southeast_index_exact w h x y) by done.
    pose proof (next_row_below_size w h x y Hx Hy Hrow).
    split; [nia |]. split; nia.
  - intros y Hw0 Hy.
    rewrite (southwest_index_exact w h 0 y) by lia.
    rewrite (here_index_exact w h (w - 1) y) by lia.
    split; [lia |]. split; [nia |]. split; [lia |].
    unfold already_visited.
    rewrite Z.ltb_irrefl, Z.eqb_refl. simpl.
    destruct (Z.leb_spec (w - 1) 0); split; (done || lia).
Qed.

Lemma C10_dither_in_bounds_witness :
  Z.of_nat (length [0.75; 0.625; 0.75; 0.75]%float) = 2 * 2
  ∧ ∃ g', floydSteinbergDither [0.75; 0.625; 0.75; 0.75]%float 2 2 = Some g'
          ∧ length g' = length [0.75; 0.625; 0.75; 0.75]%float.
Proof.
  split; [reflexivity |].
  apply (proj1 (C10_dither_in_bounds [0.75; 0.625; 0.75; 0.75]%float 2 2
                  ltac:(lia) ltac:(lia) eq_refl ltac:(lia))).
Defined.

(** C10, as first stated, fails for [w = 2]: at the cell (0, 0) of a 2 x 2
    grid the southwest write targets the index 1, the cell (1, 0), which
    the loops have not visited yet; the share it receives changes the
    value that cell is quantized from (0.46875 instead of 0.515625), and
    so its result (0 instead of 1). *)
Lemma C10_counterexample :
  southwest_index 2 0 0 = 1
  ∧ here_index 2 1 0 = 1
  ∧ already_visited 1 0 0 0 = false
  ∧ dither_cell 2 2 0 0 [0.75; 0.625; 0.75; 0.75]%float
    = Some [1; 0.46875; 0.671875; 0.734375]%float
  ∧ (0.625 + (0.75 - 1) * 7 / 16 = 0.515625)%float
  ∧ floydSteinbergDither [0.75; 0.625; 0.75; 0.75]%float 2 2
    = Some [1; 0; 1; 1]%float.
Proof. repeat split; vm_compute; reflexivity. Qed.

(* ===================================================================== *)
(** ** [ByDither]: the three passes never panic *)
(* ===================================================================== *)

Lemma floatGrayMap_safe {Color} (colorToGray : Color → Z) (src : Image Color)
    (w h : Z) :
  0 ≤ w ≤ 255 → 0 ≤ h ≤ 255 →
  ∃ g, floatGrayMap colorToGray src w h = Some g
       ∧ Z.of_nat (length g) = w * h.
Proof.
  intros Hw Hh. unfold floatGrayMap, make.
  assert (int_mul w h = w * h) as ->
    by (unfold int_mul; apply int_wrap_small; nia).
  destruct (Z.ltb_spec (w * h) 0); [nia |]. simpl.
  set (g0 := replicate (Z.to_nat (w * h)) 0%float).
  assert (Hl0 : Z.of_nat (length g0) = w * h)
    by (unfold g0; rewrite length_replicate; lia).
  clearbody g0.
  destruct (for_range_inv (λ _ (t : list float), Z.of_nat (length t) = w * h)
    (λ y t, for_range w
       (λ x t, store t (int_add (int_mul y w) x)
                 (normalize (lumAt colorToGray src x y))) t) h g0)
    as (g & Hrun & Hl); [done | | eauto].
  intros y t Hy Ht.
  destruct (for_range_inv (λ _ (u : list float), Z.of_nat (length u) = w * h)
    (λ x u, store u (int_add (int_mul y w) x)
              (normalize (lumAt colorToGray src x y))) w t)
    as (t' & Hrow & Hl'); [done | | eauto].
  intros x u Hx Hu.
  change (int_add (int_mul y w) x) with (here_index w x y).
  rewrite (here_index_exact w h x y) by (done || nia).
  rewrite store_in_range by nia.
  eexists. split; [done |]. by rewrite length_insert.
Qed.

Lemma fillByGrayMap_spec (src : list float) (dst : Bitmap) (w h : Z) :
  wf dst → Width dst = w → Height dst = h →
  Z.of_nat (length src) = w * h →
  ∃ bmp,
    fillByGrayMap src dst w h = Some bmp
    ∧ wf bmp ∧ Width bmp = w ∧ Height bmp = h
    ∧ ∀ x y, 0 ≤ x < w → 0 ≤ y < h →
        ∃ v, src !! Z.to_nat (y * w + x) = Some v
             ∧ Bitmap_Get bmp x y = Some (negb (0.5 <? v)%float).
Proof.
  intros Hwf <- <- Hlen.
  pose proof Hwf as (HW & HH & _)%wf_spec.
  destruct (paint_loops
    (λ x y b,
       v ← index src (int_add (int_mul y (Width dst)) x);
       Bitmap_Set b (uint8 x) (uint8 y) (negb (0.5 <? v)%float))
    (λ x y, negb (0.5 <?
       default 0%float (src !! Z.to_nat (y * Width dst + x)))%float) dst)
    as (bmp & Hrun & Hwf' & HW' & HH' & Hpix); [done | |].
  - intros x y b Hx Hy.
    change (int_add (int_mul y (Width dst)) x)
      with (here_index (Width dst) x y).
    rewrite (here_index_exact (Width dst) (Height dst) x y) by (done || nia).
    destruct (lookup_lt_is_Some_2 src (Z.to_nat (y * Width dst + x)))
      as [v Hv]; [nia |].
    rewrite index_nonneg, Hv by nia. done.
  - exists bmp. split; [done |]. repeat split; try done.
    intros x y Hx Hy.
    destruct (lookup_lt_is_Some_2 src (Z.to_nat (y * Width dst + x)))
      as [v Hv]; [nia |].
    exists v. split; [done |]. rewrite (Hpix x y Hx Hy), Hv. done.
Qed.

(** [ByDither] returns a bitmap of the clipped size whose pixel [x, y] is
    black exactly when the dithered grid does not hold a value above 0.5
    at [y * w + x]. *)
Lemma ByDither_spec {Color} (colorToGray : Color → Z) (src : Image Color) :
  ∃ bmp grid final,
    ByDither colorToGray src = Some bmp
    ∧ wf bmp
    ∧ Width bmp = clip (int_sub (MaxX src) (MinX src))
    ∧ Height bmp = clip (int_sub (MaxY src) (MinY src))
    ∧ floatGrayMap colorToGray src (Width bmp) (Height bmp) = Some grid
    ∧ floydSteinbergDither grid (Width bmp) (Height bmp) = Some final
    ∧ ∀ x y, 0 ≤ x < Width bmp → 0 ≤ y < Height bmp →
        ∃ v, final !! Z.to_nat (y * Width bmp + x) = Some v
             ∧ Bitmap_Get bmp x y = Some (negb (0.5 <? v)%float).
Proof.
  unfold ByDither.
  destruct (createFromImageSize_spec src) as (bmp0 & -> & Hwf & HW & HH).
  simpl. rewrite <- HW, <- HH.
  pose proof Hwf as (HWr & HHr & _)%wf_spec.
  destruct (floatGrayMap_safe colorToGray src (Width bmp0) (Height bmp0))
    as (grid & Hgrid & Hlg); [lia | lia |].
  rewrite Hgrid. simpl.
  destruct (floydSteinbergDither_safe grid (Width bmp0) (Height bmp0))
    as (final & Hfinal & Hlf); [lia | lia | done | nia |].
  rewrite Hfinal. simpl.
  destruct (fillByGrayMap_spec final bmp0 (Width bmp0) (Height bmp0))
    as (bmp & Hrun & Hwf' & HW' & HH' & Hpix); [done | done | done | lia |].
  exists bmp, grid, final. rewrite HW', HH'. done.
Qed.

(* ===================================================================== *)
(** ** The converters read the clipped window only *)
(* ===================================================================== *)

Section Window.
Context {Color : Type}.
Variable colorToGray : Color → Z.
Variables src src' : Image Color.
Hypothesis HminX : MinX src' = MinX src.
Hypothesis HminY : MinY src' = MinY src.
Hypothesis HmaxX : MaxX src' = MaxX src.
Hypothesis HmaxY : MaxY src' = MaxY src.
Hypothesis Hwindow :
  ∀ x y, 0 ≤ x < clip (int_sub (MaxX src) (MinX src)) →
         0 ≤ y < clip (int_sub (MaxY src) (MinY src)) →
         At src' (int_add x (MinX src)) (int_add y (MinY src))
         = At src (int_add x (MinX src)) (int_add y (MinY src)).

Lemma createFromImageSize_bounds :
  createFromImageSize src' = createFromImageSize src.
Proof using HminX HminY HmaxX HmaxY.
  unfold createFromImageSize. by rewrite HminX, HminY, HmaxX, HmaxY.
Qed.

Lemma lumAt_window (x y : Z) :
  0 ≤ x < clip (int_sub (MaxX src) (MinX src)) →
  0 ≤ y < clip (int_sub (MaxY src) (MinY src)) →
  lumAt colorToGray src' x y = lumAt colorToGray src x y.
Proof using HminX HminY Hwindow.
  intros Hx Hy. unfold lumAt. rewrite HminX, HminY. by rewrite Hwindow.
Qed.

Lemma ByThreshold_window (threshold : Z) :
  ByThreshold colorToGray src' threshold = ByThreshold colorToGray src threshold.
Proof using HminX HminY HmaxX HmaxY Hwindow.
  unfold ByThreshold. rewrite createFromImageSize_bounds.
  destruct (createFromImageSize_spec src) as (bmp0 & -> & _). simpl.
  apply for_range_ext. intros y b Hy.
  apply for_range_ext. intros x c Hx.
  by rewrite lumAt_window.
Qed.

Lemma ByDither_window :
  ByDither colorToGray src' = ByDither colorToGray src.
Proof using HminX HminY HmaxX HmaxY Hwindow.
  unfold ByDither. rewrite createFromImageSize_bounds.
  destruct (createFromImageSize_spec src) as (bmp0 & -> & _). simpl.
  assert (floatGrayMap colorToGray src'
            (clip (int_sub (MaxX src) (MinX src)))
            (clip (int_sub (MaxY src) (MinY src)))
          = floatGrayMap colorToGray src
              (clip (int_sub (MaxX src) (MinX src)))
              (clip (int_sub (MaxY src) (MinY src)))) as ->; [| done].
  unfold floatGrayMap.
  destruct (make 0%float _) as [g0 |]; [| done]. simpl.
  apply for_range_ext. intros y b Hy.
  apply for_range_ext. intros x c Hx.
  by rewrite lumAt_window.
Qed.

End Window.

(** C9. Both converters return a bitmap whose dimensions are the extents
    of the source (the differences [Max - Min] of its bounds, as [int]
    values), clipped to 0..255: a negative extent gives 0 and an extent
    above 255 gives 255.  Only the window of that size at the
    top-left corner of the source is read: an image with the same bounds
    and the same colours in the window gives the same bitmaps.  A source
    of 300 x 10 gives [Width = 255] and [Height = 10]. *)
Theorem C9_clamped_dimensions {Color} (colorToGray : Color → Z)
    (src : Image Color) (threshold : Z) :
  ∃ bt bd,
    ByThreshold colorToGray src threshold = Some bt
    ∧ ByDither colorToGray src = Some bd
    ∧ Width bt = clip (int_sub (MaxX src) (MinX src))
    ∧ Height bt = clip (int_sub (MaxY src) (MinY src))
    ∧ Width bd = Width bt ∧ Height bd = Height bt
    ∧ (int_sub (MaxX src) (MinX src) < 0 → Width bt = 0)
    ∧ (255 < int_sub (MaxX src) (MinX src) → Width bt = 255)
    ∧ (0 ≤ int_sub (MaxX src) (MinX src) ≤ 255 →
       Width bt = int_sub (MaxX src) (MinX src))
    ∧ (int_sub (MaxY src) (MinY src) < 0 → Height bt = 0)
    ∧ (255 < int_sub (MaxY src) (MinY src) → Height bt = 255)
    ∧ (0 ≤ int_sub (MaxY src) (MinY src) ≤ 255 →
       Height bt = int_sub (MaxY src) (MinY src))
    ∧ (∀ src' : Image Color,
         MinX src' = MinX src → MinY src' = MinY src →
         MaxX src' = MaxX src → MaxY src' = MaxY src →
         (∀ x y, 0 ≤ x < Width bt → 0 ≤ y < Height bt →
                 At src' (int_add x (MinX src)) (int_add y (MinY src))
                 = At src (int_add x (MinX src)) (int_add y (MinY src))) →
         ByThreshold colorToGray src' threshold = Some bt
         ∧ ByDither colorToGray src' = Some bd)
    ∧ (MaxX src - MinX src = 300 → MaxY src - MinY src = 10 →
       Width bt = 255 ∧ Height bt = 10 ∧ Width bd = 255 ∧ Height bd = 10).
Proof.
  destruct (ByThreshold_spec colorToGray src threshold)
    as (bt & Hbt & _ & HWt & HHt & _).
  destruct (ByDither_spec colorToGray src)
    as (bd & grid & final & Hbd & _ & HWd & HHd & _).
  exists bt, bd. rewrite HWt, HHt, HWd, HHd.
  assert (Hclip : ∀ v, (v < 0 → clip v = 0) ∧ (255 < v → clip v = 255)
                       ∧ (0 ≤ v ≤ 255 → clip v = v)).
  { intros v. unfold clip.
    destruct (Z.ltb_spec v 0), (Z.ltb_spec 255 v); repeat split; lia. }
  destruct (Hclip (int_sub (MaxX src) (MinX src))) as (HX1 & HX2 & HX3).
  destruct (Hclip (int_sub (MaxY src) (MinY src))) as (HY1 & HY2 & HY3).
  do 6 (split; [done |]). do 6 (split; [done |]). split.
  - intros src' HminX HminY HmaxX HmaxY Hwin. split.
    + rewrite <- Hbt. by apply ByThreshold_window.
    + rewrite <- Hbd. by apply ByDither_window.
  - intros Hext_x Hext_y. unfold int_sub. rewrite Hext_x, Hext_y. done.
Qed.

(* ===================================================================== *)
(** ** The dithering pass: what a cell holds after it was visited *)
(* ===================================================================== *)

Lemma quantize_cases (v : float) : quantize v = 1%float ∨ quantize v = 0%float.
Proof. unfold quantize. destruct (0.5 <=? v)%float; auto. Qed.

(** X1. When a row has at least two cells, one step of the pass leaves in
    the visited cell the quantization of the value it held, and leaves every
    cell visited before as it is. *)
Theorem dither_cell_freezes (w h x y : Z) (g : list float) :
  2 ≤ w → 0 ≤ x < w → 0 ≤ y < h →
  Z.of_nat (length g) = w * h → w * h < 2 ^ 63 →
  ∃ g' orig,
    dither_cell w h x y g = Some g'
    ∧ g !! Z.to_nat (y * w + x) = Some orig
    ∧ g' !! Z.to_nat (y * w + x)
      = Some (if (0.5 <=? orig)%float then 1%float else 0%float)
    ∧ ∀ j, (j < Z.to_nat (y * w + x))%nat → g' !! j = g !! j.
Proof.
  intros Hw Hx Hy Hlen Hsize.
  destruct (dither_cell_frame w h x y g)
    as (g' & orig & Hrun & _ & Ho & Hf & Hq); [done .. |].
  exists g', orig. repeat split; try done. apply Hq. by left.
Qed.

Lemma dither_cell_freezes_witness :
  ∃ g' orig,
    dither_cell 2 2 1 0 [1; 0.46875; 0.671875; 0.734375]%float = Some g'
    ∧ [1; 0.46875; 0.671875; 0.734375]%float !! Z.to_nat (0 * 2 + 1) = Some orig
    ∧ g' !! Z.to_nat (0 * 2 + 1)
      = Some (if (0.5 <=? orig)%float then 1%float else 0%float)
    ∧ ∀ j, (j < Z.to_nat (0 * 2 + 1))%nat →
           g' !! j = [1; 0.46875; 0.671875; 0.734375]%float !! j.
Proof.
  apply (dither_cell_freezes 2 2 1 0 [1; 0.46875; 0.671875; 0.734375]%float);
    (lia || reflexivity).
Defined.

(** X2. When a row has at least two cells, every cell of the grid holds 0.0
    or 1.0 after the pass: the value stored when the cell was visited is its
    final value. *)
Theorem dither_final_values (g : list float) (w h : Z) :
  2 ≤ w → 0 ≤ h → Z.of_nat (length g) = w * h → w * h < 2 ^ 63 →
  ∃ g', floydSteinbergDither g w h = Some g'
        ∧ length g' = length g
        ∧ ∀ j, (j < length g)%nat →
               g' !! j = Some 1%float ∨ g' !! j = Some 0%float.
Proof.
  intros Hw Hh Hlen Hsize. unfold floydSteinbergDither.
  destruct (for_range_inv
    (λ y (t : list float),
       length t = length g
       ∧ ∀ j, Z.of_nat j < y * w →
              t !! j = Some 1%float ∨ t !! j = Some 0%float)
    (λ y t, for_range w (λ x t, dither_cell w h x y t) t) h g)
    as (g' & Hrun & Hl & Hfin).
  - split; [done |]. intros j Hj. lia.
  - intros y t Hy [Ht Hdone].
    destruct (for_range_inv
      (λ x (u : list float),
         length u = length g
         ∧ ∀ j, Z.of_nat j < y * w + x →
                u !! j = Some 1%float ∨ u !! j = Some 0%float)
      (λ x u, dither_cell w h x y u) w t) as (t' & Hrow & Hl' & Hfin').
    + split; [done |]. intros j Hj. apply Hdone. lia.
    + intros x u Hx [Hu Hseen].
      destruct (dither_cell_frame w h x y u)
        as (u' & orig & Hcell & Hlu & _ & Hf & Hq); [done | done | lia | done |].
      exists u'. split; [done |]. split; [lia |].
      intros j Hj.
      destruct (decide (Z.of_nat j < y * w + x)) as [Hlt | Hge].
      * rewrite Hf by lia. by apply Hseen.
      * assert (j = Z.to_nat (y * w + x)) as -> by lia.
        rewrite Hq by (by left).
        destruct (quantize_cases orig) as [-> | ->]; auto.
    + exists t'. split; [done |]. split; [done |].
      intros j Hj. apply Hfin'. lia.
  - exists g'. split; [done |]. split; [done |].
    intros j Hj. apply Hfin. lia.
Qed.

Lemma dither_final_values_witness :
  ∃ g', floydSteinbergDither [0.75; 0.625; 0.75; 0.75]%float 2 2 = Some g'
        ∧ length g' = length [0.75; 0.625; 0.75; 0.75]%float
        ∧ ∀ j, (j < length [0.75; 0.625; 0.75; 0.75]%float)%nat →
               g' !! j = Some 1%float ∨ g' !! j = Some 0%float.
Proof.
  apply (dither_final_values [0.75; 0.625; 0.75; 0.75]%float 2 2);
    (lia || reflexivity).
Defined.

(** X3. [ByDither] never panics: it returns a bitmap of the clipped size
    [w x h] of the source, and with the grey map of the source ([w * h]
    values) and the grid the dithering pass makes of it (as many values),
    the pixel [x, y] is black exactly when the final value of the grid at
    [y * w + x] is not above 0.5. *)
Theorem ByDither_pixels {Color} (colorToGray : Color → Z) (src : Image Color) :
  ∃ bmp grid final,
    ByDither colorToGray src = Some bmp
    ∧ wf bmp
    ∧ Width bmp = clip (int_sub (MaxX src) (MinX src))
    ∧ Height bmp = clip (int_sub (MaxY src) (MinY src))
    ∧ floatGrayMap colorToGray src
        (clip (int_sub (MaxX src) (MinX src)))
        (clip (int_sub (MaxY src) (MinY src))) = Some grid
    ∧ Z.of_nat (length grid)
      = clip (int_sub (MaxX src) (MinX src))
        * clip (int_sub (MaxY src) (MinY src))
    ∧ floydSteinbergDither grid
        (clip (int_sub (MaxX src) (MinX src)))
        (clip (int_sub (MaxY src) (MinY src))) = Some final
    ∧ length final = length grid
    ∧ ∀ x y, 0 ≤ x < clip (int_sub (MaxX src) (MinX src)) →
             0 ≤ y < clip (int_sub (MaxY src) (MinY src)) →
        ∃ v, final !! Z.to_nat (y * clip (int_sub (MaxX src) (MinX src)) + x)
             = Some v
             ∧ (Bitmap_Get bmp x y = Some true ↔ (0.5 <? v)%float = false)
             ∧ (Bitmap_Get bmp x y = Some false ↔ (0.5 <? v)%float = true).
Proof.
  destruct (ByDither_spec colorToGray src)
    as (bmp & grid & final & Hrun & Hwf & HW & HH & Hgrid & Hfinal & Hpix).
  pose proof (clip_range (int_sub (MaxX src) (MinX src))) as Hw.
  pose proof (clip_range (int_sub (MaxY src) (MinY src))) as Hh.
  rewrite HW, HH in Hgrid, Hfinal, Hpix.
  destruct (floatGrayMap_safe colorToGray src
              (clip (int_sub (MaxX src) (MinX src)))
              (clip (int_sub (MaxY src) (MinY src))))
    as (grid' & Hgrid' & Hlg); [done | done |].
  assert (grid' = grid) as -> by congruence.
  destruct (floydSteinbergDither_safe grid
              (clip (int_sub (MaxX src) (MinX src)))
              (clip (int_sub (MaxY src) (MinY src))))
    as (final' & Hfinal' & Hlf); [lia | lia | done | nia |].
  assert (final' = final) as -> by congruence.
  exists bmp, grid, final. do 8 (split; [done |]).
  intros x y Hx Hy. destruct (Hpix x y Hx Hy) as (v & Hv & HG).
  exists v. split; [done |]. rewrite HG.
  destruct (0.5 <? v)%float; simpl; split; split; (done || by intros [=]).
Qed.

(* ===================================================================== *)
(** ** The southwest write at the first column *)
(* ===================================================================== *)

(** C2 fails on the code.  At the cell (0, 0) of a 2 x 2 grid the
    southwest neighbour (-1, 1) lies outside the grid, and the rule of the
    specification writes nothing for it; the code adds the 3/16 share to
    the index 1, the cell (1, 0), which so receives 7/16 + 3/16 of the
    error.  On the image with the luminances 191, 160 / 191, 191 this
    turns the pixel (1, 0) black and the pixel (1, 1) white, where the
    rule of the specification gives white and black. *)
Lemma C2_southwest_share_misplaced :
  dither_cell 2 2 0 0 [0.75; 0.625; 0.75; 0.75]%float
  = Some [1; 0.46875; 0.671875; 0.734375]%float
  ∧ spec_dither_cell 2 2 0 0 [0.75; 0.625; 0.75; 0.75]%float
    = Some [1; 0.515625; 0.671875; 0.734375]%float
  ∧ ByDither (λ c : Z, c) (gray_image [[191; 160]; [191; 191]])
    = Some {| Width := 2; Height := 2; PixelRows := [[2]; [0]] |}
  ∧ (grid ← floatGrayMap (λ c : Z, c) (gray_image [[191; 160]; [191; 191]]) 2 2;
     grid ← spec_dither grid 2 2;
     bmp ← Create 2 2;
     fillByGrayMap grid bmp 2 2)
    = Some {| Width := 2; Height := 2; PixelRows := [[0]; [2]] |}.
Proof. repeat split; vm_compute; reflexivity. Qed.

(** C3 fails on the code for a grid of width 1.  At the cell (0, 0) of a
    1 x 2 grid the value 1.0 is stored, and the southwest write of the same
    step targets the index 0 again and adds 3/16 of the error to it: the
    cell ends with a value that is neither 1.0 nor 0.0. *)
Lemma C3_stored_value_overwritten :
  dither_cell 1 2 0 0 [0.75; 0.75]%float = Some [0.953125; 0.671875]%float
  ∧ quantize 0.75 = 1%float
  ∧ southwest_index 1 0 0 = here_index 1 0 0
  ∧ floydSteinbergDither [0.75; 0.75]%float 1 2 = Some [0.953125; 1]%float
  ∧ (grid ← floatGrayMap (λ c : Z, c) (gray_image [[191]; [191]]) 1 2;
     final ← floydSteinbergDither grid 1 2;
     v ← final !! 0%nat;
     Some ((v =? 1)%float, (v =? 0)%float, (0.5 <? v)%float))
    = Some (false, false, true)
  ∧ ByDither (λ c : Z, c) (gray_image [[191]; [191]])
    = Some {| Width := 1; Height := 2; PixelRows := [[0]; [0]] |}.
Proof. repeat split; vm_compute; reflexivity. Qed.

(* ===================================================================== *)
(** ** More on [Create] and [Set] *)
(* ===================================================================== *)

Lemma byte_eq (a b : Z) :
  0 ≤ a < 256 → 0 ≤ b < 256 →
  (∀ j, 0 ≤ j < 8 → Z.testbit a j = Z.testbit b j) → a = b.
Proof.
  intros Ha Hb Hbits. apply Z.bits_inj'. intros n Hn.
  destruct (decide (n < 8)) as [Hlt | Hge]; [apply Hbits; lia |].
  rewrite <- (Z.mod_small a (2 ^ 8)), <- (Z.mod_small b (2 ^ 8)) by lia.
  rewrite !Z.mod_pow2_bits_high by lia. done.
Qed.

Lemma set_bit_same_value (b k : Z) :
  0 ≤ b < 256 → 0 ≤ k < 8 → set_bit b k (Z.testbit b k) = b.
Proof.
  intros Hb Hk. apply byte_eq; [apply set_bit_range | done |].
  intros j Hj. rewrite set_bit_testbit by done.
  by case_decide as Hd; [rewrite Hd |].
Qed.

Lemma set_bit_overwrite (b k : Z) (v1 v2 : bool) :
  0 ≤ k < 8 → set_bit (set_bit b k v1) k v2 = set_bit b k v2.
Proof.
  intros Hk. apply byte_eq; [apply set_bit_range .. |].
  intros j Hj. rewrite !set_bit_testbit by done.
  by repeat case_decide.
Qed.

Lemma set_bit_commute (b k1 k2 : Z) (v1 v2 : bool) :
  0 ≤ k1 < 8 → 0 ≤ k2 < 8 → k1 ≠ k2 →
  set_bit (set_bit b k1 v1) k2 v2 = set_bit (set_bit b k2 v2) k1 v1.
Proof.
  intros Hk1 Hk2 Hne. apply byte_eq; [apply set_bit_range .. |].
  intros j Hj. rewrite !set_bit_testbit by done.
  repeat case_decide; subst; try done.
Qed.

(** X4. [Create] on [uint8] dimensions never panics; the bitmap it returns
    has these dimensions, satisfies the invariant of the data model, and
    every pixel of it reads white. *)
Theorem Create_blank (W H : Z) :
  0 ≤ W < 256 → 0 ≤ H < 256 →
  ∃ bmp, Create W H = Some bmp
         ∧ wf bmp ∧ Width bmp = W ∧ Height bmp = H
         ∧ length (PixelRows bmp) = Z.to_nat H
         ∧ (∀ row, row ∈ PixelRows bmp →
                   row = replicate (Z.to_nat (ceil8 W)) 0)
         ∧ ∀ x y, 0 ≤ x < 256 → 0 ≤ y < 256 →
                  Bitmap_Get bmp x y = Some false.
Proof.
  intros HW HH. eexists. split; [apply Create_rows; lia |].
  destruct (Create_wf W H _ HW HH (Create_rows W H ltac:(lia) ltac:(lia)))
    as (Hwf & _ & _).
  split; [done |]. simpl. split; [done |]. split; [done |].
  split; [by rewrite length_replicate |]. split.
  - intros row [-> _]%elem_of_replicate. by rewrite stride_of_ceil8 by lia.
  - intros x y Hx Hy.
    destruct (Z.le_gt_cases W x) as [Hox | Hix];
      [by apply Get_out_of_range; left |].
    destruct (Z.le_gt_cases H y) as [Hoy | Hiy];
      [by apply Get_out_of_range; right |].
    destruct (wf_byte_at _ x y Hwf) as (row & b & Hrow & _ & Hbyte & _);
      [simpl; lia .. |].
    rewrite (Get_in_range _ x y row b) by (done || simpl; lia).
    simpl in Hrow. apply lookup_replicate in Hrow as [-> _].
    apply lookup_replicate in Hbyte as [-> _].
    by rewrite Z.bits_0.
Qed.

Lemma Create_blank_witness :
  ∃ bmp, Create 10 2 = Some bmp
         ∧ wf bmp ∧ Width bmp = 10 ∧ Height bmp = 2
         ∧ length (PixelRows bmp) = Z.to_nat 2
         ∧ (∀ row, row ∈ PixelRows bmp →
                   row = replicate (Z.to_nat (ceil8 10)) 0)
         ∧ ∀ x y, 0 ≤ x < 256 → 0 ≤ y < 256 →
                  Bitmap_Get bmp x y = Some false.
Proof. apply (Create_blank 10 2); lia. Defined.

(** With the rows held by value, [Set] at an in-range pixel keeps the
    dimensions and the invariant, and changes no pixel other than the one
    addressed. *)
Lemma Set_frame (img : Bitmap) (x y : Z) (black : bool) :
  wf img → 0 ≤ x < Width img → 0 ≤ y < Height img →
  ∃ img', Bitmap_Set img x y black = Some img'
          ∧ wf img' ∧ Width img' = Width img ∧ Height img' = Height img
          ∧ ∀ x' y', 0 ≤ x' < 256 → 0 ≤ y' < 256 → (x', y') ≠ (x, y) →
                     Bitmap_Get img' x' y' = Bitmap_Get img x' y'.
Proof.
  intros Hwf Hx Hy.
  destruct (Set_succeeds img x y black) as [img' HS]; [done .. |].
  destruct (Set_wf img img' x y black) as (Hwf' & HW & HH);
    [done | lia | lia | done |].
  exists img'. repeat split; try done.
  intros x' y' Hx' Hy' Hne.
  destruct (Z.le_gt_cases (Width img) x') as [Hox | Hix];
    [rewrite !Get_out_of_range by (left; lia); done |].
  destruct (Z.le_gt_cases (Height img) y') as [Hoy | Hiy];
    [rewrite !Get_out_of_range by (right; lia); done |].
  rewrite (Get_Set img img' x y x' y' black) by (done || lia).
  rewrite decide_False; [done |]. intros [-> ->]. done.
Qed.

(** X6. Writing to a pixel the value it already has leaves the bitmap,
    unused bits of the rows included, exactly as it is. *)
Theorem Set_same_value (img : Bitmap) (x y : Z) (v : bool) :
  wf img → 0 ≤ x < Width img → 0 ≤ y < Height img →
  Bitmap_Get img x y = Some v → Bitmap_Set img x y v = Some img.
Proof.
  intros Hwf Hx Hy HG.
  destruct (wf_byte_at img x y) as (row & b & Hrow & Hlen & Hbyte & Hb);
    [done .. |].
  rewrite (Get_in_range img x y row b) in HG by done. injection HG as <-.
  rewrite (Set_in_range img x y _ row b) by done.
  apply wf_spec in Hwf as (_ & _ & _ & Hr).
  rewrite Forall_lookup in Hr. destruct (Hr _ _ Hrow) as [_ Hbytes].
  rewrite Forall_lookup in Hbytes.
  rewrite set_bit_same_value
    by (eauto || Z.div_mod_to_equations; lia).
  rewrite (list_insert_id row) by done.
  rewrite (list_insert_id (PixelRows img)) by done.
  by destruct img.
Qed.

Lemma Set_same_value_witness :
  Bitmap_Set {| Width := 10; Height := 2;
                PixelRows := [[129; 3]; [64; 1]] |} 9 0 true
  = Some {| Width := 10; Height := 2; PixelRows := [[129; 3]; [64; 1]] |}.
Proof.
  apply (Set_same_value {| Width := 10; Height := 2;
                           PixelRows := [[129; 3]; [64; 1]] |} 9 0 true);
    [reflexivity | simpl; lia | simpl; lia | reflexivity].
Defined.

(** A second [Set] after a first one, both at in-range pixels. *)
Lemma Set_Set (img : Bitmap) (x1 y1 x2 y2 : Z) (v1 v2 : bool)
    (row1 row2 : list Z) (b1 b2 : Z) :
  0 ≤ x1 < Width img → 0 ≤ y1 < Height img →
  0 ≤ x2 < Width img → 0 ≤ y2 < Height img →
  PixelRows img !! Z.to_nat y1 = Some row1 →
  row1 !! Z.to_nat (x1 / 8) = Some b1 →
  <[Z.to_nat y1 := <[Z.to_nat (x1 / 8) := set_bit b1 (x1 mod 8) v1]> row1]>
    (PixelRows img) !! Z.to_nat y2 = Some row2 →
  row2 !! Z.to_nat (x2 / 8) = Some b2 →
  (img1 ← Bitmap_Set img x1 y1 v1; Bitmap_Set img1 x2 y2 v2)
  = Some {| Width := Width img; Height := Height img;
            PixelRows :=
              <[Z.to_nat y2 := <[Z.to_nat (x2 / 8) := set_bit b2 (x2 mod 8) v2]> row2]>
                (<[Z.to_nat y1 :=
                     <[Z.to_nat (x1 / 8) := set_bit b1 (x1 mod 8) v1]> row1]>
                   (PixelRows img)) |}.
Proof.
  intros Hx1 Hy1 Hx2 Hy2 Hrow1 Hb1 Hrow2 Hb2.
  rewrite (Set_in_range img x1 y1 v1 row1 b1) by done. simpl.
  by rewrite (Set_in_range _ x2 y2 v2 row2 b2) by done.
Qed.

(** X7. Two writes to the same pixel amount to the second one alone. *)
Theorem Set_overwrite (img : Bitmap) (x y : Z) (v1 v2 : bool) :
  wf img → 0 ≤ x < Width img → 0 ≤ y < Height img →
  (img1 ← Bitmap_Set img x y v1; Bitmap_Set img1 x y v2)
  = Bitmap_Set img x y v2.
Proof.
  intros Hwf Hx Hy.
  destruct (wf_byte_at img x y) as (row & b & Hrow & Hlen & Hbyte & Hb);
    [done .. |].
  pose proof (lookup_lt_Some _ _ _ Hrow) as Hly.
  pose proof (lookup_lt_Some _ _ _ Hbyte) as Hlx.
  rewrite (Set_Set img x y x y v1 v2 row
             (<[Z.to_nat (x / 8) := set_bit b (x mod 8) v1]> row)
             b (set_bit b (x mod 8) v1)); try done.
  - rewrite (Set_in_range img x y v2 row b) by done.
    rewrite !list_insert_insert_eq, set_bit_overwrite
      by (Z.div_mod_to_equations; lia).
    done.
  - by apply list_lookup_insert_eq.
  - by apply list_lookup_insert_eq.
Qed.

Lemma Set_overwrite_witness :
  (img1 ← Bitmap_Set {| Width := 10; Height := 2;
                        PixelRows := [[129; 3]; [64; 1]] |} 3 1 true;
   Bitmap_Set img1 3 1 false)
  = Bitmap_Set {| Width := 10; Height := 2;
                  PixelRows := [[129; 3]; [64; 1]] |} 3 1 false.
Proof.
  apply (Set_overwrite {| Width := 10; Height := 2;
                          PixelRows := [[129; 3]; [64; 1]] |} 3 1 true false);
    [reflexivity | simpl; lia | simpl; lia].
Defined.

(* ===================================================================== *)
(** ** More on the wire format *)
(* ===================================================================== *)

Lemma lookup_concat_uniform {A} (rows : list (list A)) (s i j : nat)
    (row : list A) (a : A) :
  Forall (λ r, length r = s) rows →
  rows !! i = Some row → row !! j = Some a →
  concat rows !! (i * s + j)%nat = Some a.
Proof.
  intros Huni. revert i. induction Huni as [| r rows Hr _ IH]; intros i Hrow Ha;
    [done |].
  destruct i as [| i]; simpl in *.
  - injection Hrow as ->. by apply lookup_app_l_Some.
  - rewrite lookup_app_r by lia.
    replace (s + i * s + j - length r)%nat with (i * s + j)%nat by lia.
    by apply IH.
Qed.

(** X9. The layout of the stream [Write] produces: byte 0 is the width,
    byte 1 the height, and the pixel [x, y] is bit [x mod 8] (counted from
    the least significant bit) of the byte at offset
    [2 + y * ceil(width/8) + x / 8]. *)
Theorem encode_layout (img : Bitmap) :
  wf img →
  encode img !! 0%nat = Some (Width img)
  ∧ encode img !! 1%nat = Some (Height img)
  ∧ ∀ x y, 0 ≤ x < Width img → 0 ≤ y < Height img →
      ∃ b, encode img !! Z.to_nat (2 + y * ceil8 (Width img) + x / 8) = Some b
           ∧ Bitmap_Get img x y = Some (Z.testbit b (x mod 8)).
Proof.
  intros Hwf. rewrite encode_wf by done. split; [done |]. split; [done |].
  intros x y Hx Hy.
  destruct (wf_byte_at img x y) as (row & b & Hrow & Hlen & Hbyte & Hb);
    [done .. |].
  exists b. split; [| by apply (Get_in_range img x y row b)].
  pose proof Hwf as (HW & HH & Hl & Hr)%wf_spec.
  assert (Hs : 0 ≤ ceil8 (Width img)) by (pose proof (ceil8_bound _ HW); lia).
  replace (Z.to_nat (2 + y * ceil8 (Width img) + x / 8))
    with (2 + (Z.to_nat y * Z.to_nat (stride_of (Width img))
               + Z.to_nat (x / 8)))%nat
    by (rewrite stride_of_ceil8 by lia; nia).
  simpl. apply (lookup_concat_uniform _ _ _ _ row); [| done | done].
  eapply Forall_impl; eauto. by intros r [? _].
Qed.

Lemma encode_layout_witness :
  encode {| Width := 10; Height := 2; PixelRows := [[129; 3]; [64; 1]] |} !! 0%nat
  = Some 10
  ∧ encode {| Width := 10; Height := 2; PixelRows := [[129; 3]; [64; 1]] |} !! 1%nat
    = Some 2
  ∧ ∀ x y, 0 ≤ x < 10 → 0 ≤ y < 2 →
      ∃ b, encode {| Width := 10; Height := 2;
                     PixelRows := [[129; 3]; [64; 1]] |}
             !! Z.to_nat (2 + y * ceil8 10 + x / 8) = Some b
           ∧ Bitmap_Get {| Width := 10; Height := 2;
                           PixelRows := [[129; 3]; [64; 1]] |} x y
             = Some (Z.testbit b (x mod 8)).
Proof.
  apply (encode_layout {| Width := 10; Height := 2;
                          PixelRows := [[129; 3]; [64; 1]] |}).
  reflexivity.
Defined.

Lemma write_rows_app {W} `{Writer W} (rows1 rows2 : list (list Z)) (n : Z)
    (w : W) :
  write_rows (rows1 ++ rows2) n w
  = match write_rows rows1 n w with
    | (n1, Some e, w1) => (n1, Some e, w1)
    | (n1, None, w1) => write_rows rows2 n1 w1
    end.
Proof.
  revert n w. induction rows1 as [| row rows1 IH]; intros n w; simpl; [done |].
  destruct (io_Write w row) as [[n2 err] w']. destruct err; [done |].
  apply IH.
Qed.

(** X10. [Write] stops at the first write that returns an error: it
    returns that error and the writer as that write left it, and its count
    is the count of the bytes written before plus the count the failing
    write reported. *)
Theorem Write_first_failure {W} `{Writer W} (img : Bitmap) (w : W) :
  (∀ n e w',
     io_Write w [uint8 (Width img); uint8 (Height img)] = (n, Some e, w') →
     Bitmap_Write img w = (n, Some e, w'))
  ∧ (∀ n0 w0 (i : nat) ni wi row n2 e w',
       io_Write w [uint8 (Width img); uint8 (Height img)] = (n0, None, w0) →
       write_rows (take i (PixelRows img)) n0 w0 = (ni, None, wi) →
       PixelRows img !! i = Some row →
       io_Write wi row = (n2, Some e, w') →
       Bitmap_Write img w = (int_wrap (ni + n2), Some e, w')).
Proof.
  split.
  - intros n e w' Hhdr. unfold Bitmap_Write. by rewrite Hhdr.
  - intros n0 w0 i ni wi row n2 e w' Hhdr Hprefix Hrow Hfail.
    unfold Bitmap_Write. rewrite Hhdr.
    rewrite <- (take_drop_middle (PixelRows img) i row Hrow) at 1.
    rewrite write_rows_app, Hprefix. simpl. by rewrite Hfail.
Qed.

Lemma Write_buffer_appends (img : Bitmap) (s : list Z) :
  wf img →
  Bitmap_Write img {| buf := s |}
  = (2 + Height img * ceil8 (Width img), None, {| buf := s ++ encode img |}).
Proof.
  intros Hwf. rewrite encode_wf by done.
  pose proof (wf_body_length img Hwf) as Hlen.
  apply wf_spec in Hwf as (Hw & Hh & _).
  pose proof (ceil8_bound (Width img) Hw).
  unfold Bitmap_Write. simpl.
  rewrite !uint8_small by lia.
  rewrite write_rows_buffer by (simpl; nia).
  simpl. rewrite Hlen, <- app_assoc. done.
Qed.

(** The rows loop on a [bytes.Reader] whose stream starts with the rows:
    no read happens at the end of the stream when bytes follow the rows or
    no row is empty. *)
Lemma read_rows_bytes_Reader (stride : Z) (rows bufs : list (list Z))
    (rest : list Z) :
  Forall2 (λ v row : list Z, length v = length row) bufs rows →
  Forall (λ row, stride ≤ Z.of_nat (length row)) rows →
  rest ≠ [] ∨ Forall (λ row, row ≠ []) rows →
  read_rows stride bufs {| unread := concat rows ++ rest |}
  = (Some rows, None, {| unread := rest |}).
Proof.
  intros Hshape. revert rest.
  induction Hshape as [| v row bufs rows Hlen _ IH]; intros rest Hrows Hne;
    [done |].
  apply Forall_cons in Hrows as [Hstride Hrows].
  simpl. rewrite <- app_assoc, Hlen.
  unfold io_Read at 1, bytes_Reader_Reader at 1. simpl.
  destruct (row ++ concat rows ++ rest) as [| c s] eqn:E.
  - apply app_eq_nil in E as [-> [_ ->]%app_eq_nil].
    destruct Hne as [? | Hne]; [done |].
    by apply Forall_cons in Hne as [? _].
  - rewrite <- E, take_app_length, drop_app_length.
    destruct (Z.ltb_spec (Z.of_nat (length row)) stride); [lia |].
    rewrite IH; [by rewrite fill_full | done |].
    destruct Hne as [? | Hne]; [by left | right].
    by apply Forall_cons in Hne as [_ ?].
Qed.

Lemma Read_encode_rest (img : Bitmap) (rest : list Z) :
  wf img →
  Read {| buf := encode img ++ rest |}
  = Some (Some img, None, {| buf := rest |})
  ∧ (rest ≠ [] ∨ 0 < Width img ∨ Height img = 0 →
     Read {| unread := encode img ++ rest |}
     = Some (Some img, None, {| unread := rest |})).
Proof.
  intros Hwf. rewrite encode_wf by done.
  pose proof Hwf as (Hw & Hh & Hl & Hr)%wf_spec.
  assert (Hshape : Forall2 (λ v row : list Z, length v = length row)
            (replicate (Z.to_nat (Height img))
               (replicate (Z.to_nat (stride_of (Width img))) 0))
            (PixelRows img)).
  { apply fresh_rows_shape; [done |].
    eapply Forall_impl; eauto. by intros row [? _]. }
  assert (Hlens : Forall (λ row, stride_of (Width img) ≤ Z.of_nat (length row))
                    (PixelRows img)).
  { eapply Forall_impl; eauto. intros row [Hlen _]. lia. }
  split.
  - rewrite (Read_after_header _ {| buf := concat (PixelRows img) ++ rest |}
               (Width img) (Height img)); [| | lia | lia].
    2: { rewrite <- app_assoc.
         apply (bytes_Buffer_serves [Width img; Height img]). }
    rewrite (read_rows_stream (λ s, {| buf := s |}) true).
    + by destruct img.
    + intros d r _. apply bytes_Buffer_serves.
    + done.
    + apply (Forall_impl _ _ _ Hlens). intros row ?. split; [done | by right].
  - intros Hne.
    rewrite (Read_after_header _ {| unread := concat (PixelRows img) ++ rest |}
               (Width img) (Height img)); [| | lia | lia].
    2: { rewrite <- app_assoc.
         by apply (bytes_Reader_serves [Width img; Height img]). }
    rewrite read_rows_bytes_Reader; [by destruct img | done .. |].
    destruct Hne as [? | [Hpos | Hzero]]; [by left | right | right].
    + apply (Forall_impl _ _ _ Hr). intros row [Hlen _] ->. simpl in Hlen.
      rewrite stride_of_div in Hlen by lia.
      assert (1 ≤ (Width img + 7) / 8) by (Z.div_mod_to_equations; lia). lia.
    + destruct (PixelRows img); [constructor | simpl in Hl; lia].
Qed.

(** X11. [Read] consumes exactly the bytes of one bitmap: when the stream
    of a bitmap is followed by other bytes, [Read] returns the bitmap and
    leaves those bytes unread.  Through a [bytes.Reader] this needs bytes
    to follow, a positive width or a zero height. *)
Theorem Read_leaves_rest (img : Bitmap) (rest : list Z) :
  wf img →
  Read {| buf := encode img ++ rest |}
  = Some (Some img, None, {| buf := rest |})
  ∧ (rest ≠ [] ∨ 0 < Width img ∨ Height img = 0 →
     Read {| unread := encode img ++ rest |}
     = Some (Some img, None, {| unread := rest |})).
Proof. apply Read_encode_rest. Qed.

Lemma Read_leaves_rest_witness :
  Read {| buf := encode {| Width := 10; Height := 2;
                           PixelRows := [[129; 3]; [64; 1]] |} ++ [7; 7] |}
  = Some (Some {| Width := 10; Height := 2; PixelRows := [[129; 3]; [64; 1]] |},
          None, {| buf := [7; 7] |}).
Proof.
  apply (proj1 (Read_leaves_rest
                  {| Width := 10; Height := 2; PixelRows := [[129; 3]; [64; 1]] |}
                  [7; 7] eq_refl)).
Defined.

(** X12. Bitmaps written one after the other into a [bytes.Buffer] are
    read back one after the other, and the buffer is empty afterwards. *)
Theorem Write_Read_sequence (a b : Bitmap) :
  wf a → wf b →
  ∃ n1 n2 w1 w2 r1,
    Bitmap_Write a {| buf := [] |} = (n1, None, w1)
    ∧ Bitmap_Write b w1 = (n2, None, w2)
    ∧ Read w2 = Some (Some a, None, r1)
    ∧ Read r1 = Some (Some b, None, {| buf := [] |}).
Proof.
  intros Ha Hb.
  exists (2 + Height a * ceil8 (Width a)), (2 + Height b * ceil8 (Width b)),
    {| buf := [] ++ encode a |}, {| buf := ([] ++ encode a) ++ encode b |},
    {| buf := encode b |}.
  split; [by apply Write_buffer_appends |].
  split; [by apply Write_buffer_appends |].
  simpl. split.
  - by apply Read_encode_rest.
  - rewrite <- (app_nil_r (encode b)) at 1. by apply Read_encode_rest.
Qed.

Lemma Write_Read_sequence_witness :
  ∃ n1 n2 w1 w2 r1,
    Bitmap_Write {| Width := 10; Height := 1; PixelRows := [[129; 3]] |}
      {| buf := [] |} = (n1, None, w1)
    ∧ Bitmap_Write {| Width := 0; Height := 2; PixelRows := [[]; []] |} w1
      = (n2, None, w2)
    ∧ Read w2
      = Some (Some {| Width := 10; Height := 1; PixelRows := [[129; 3]] |},
              None, r1)
    ∧ Read r1
      = Some (Some {| Width := 0; Height := 2; PixelRows := [[]; []] |},
              None, {| buf := [] |}).
Proof.
  apply (Write_Read_sequence
           {| Width := 10; Height := 1; PixelRows := [[129; 3]] |}
           {| Width := 0; Height := 2; PixelRows := [[]; []] |});
    reflexivity.
Defined.

(** What a successful rows loop on a [bytes.Reader] has read. *)
Lemma read_rows_bytes_Reader_inv (stride : Z) (k : nat)
    (bufs rows' : list (list Z)) (q : list Z) (r' : bytes_Reader) :
  Forall (λ v, length v = k) bufs → stride = Z.of_nat k →
  read_rows stride bufs {| unread := q |} = (Some rows', None, r') →
  q = concat rows' ++ unread r'
  ∧ Forall (λ row, length row = k) rows'
  ∧ length rows' = length bufs.
Proof.
  intros Hbufs ->. revert q rows'.
  induction Hbufs as [| v bufs Hv _ IH]; intros q rows'; simpl.
  - by intros [= <- <-].
  - rewrite Hv. unfold io_Read at 1, bytes_Reader_Reader at 1. simpl.
    destruct q as [| c s]; [done |].
    destruct (Z.ltb_spec (Z.of_nat (length (take k (c :: s)))) (Z.of_nat k));
      [done |].
    destruct (read_rows (Z.of_nat k) bufs {| unread := drop k (c :: s) |})
      as [[res err] r2] eqn:E.
    destruct res as [rows2 |]; simpl; [| done].
    intros [= <- -> <-].
    destruct (IH _ _ E) as (Hq & Hlens & Hlen).
    assert (Hfull : length (take k (c :: s)) = k).
    { pose proof (length_take_le (c :: s) k). rewrite length_take in *. lia. }
    rewrite fill_full by congruence.
    split; [| split].
    + simpl. rewrite <- app_assoc, <- Hq. by rewrite take_drop.
    + by constructor.
    + simpl. by rewrite Hlen.
Qed.

Lemma Forall_concat_inv {A} (P : A → Prop) (ls : list (list A)) :
  Forall P (concat ls) → Forall (Forall P) ls.
Proof.
  induction ls as [| l ls IH]; simpl; [constructor |].
  intros [? ?]%Forall_app. constructor; auto.
Qed.

(** X13. Whatever [Read] accepts from a stream of bytes, [Write]
    reproduces: when [Read] returns a bitmap from a [bytes.Reader], the
    bitmap satisfies the invariant of the data model, and the stream is
    the encoding of that bitmap followed by the bytes left unread. *)
Theorem Read_then_Write (s : list Z) (bmp : Bitmap) (r' : bytes_Reader) :
  Forall (λ b, 0 ≤ b < 256) s →
  Read {| unread := s |} = Some (Some bmp, None, r') →
  wf bmp ∧ s = encode bmp ++ unread r'.
Proof.
  intros Hbytes. unfold Read. simpl.
  unfold io_Read at 1, bytes_Reader_Reader at 1. simpl.
  destruct s as [| w [| h s]]; [done | done |]. simpl.
  apply Forall_cons in Hbytes as [Hw [Hh Hbytes]%Forall_cons].
  rewrite Create_rows by lia. simpl.
  destruct (read_rows _ _ _) as [[res err] r2] eqn:E.
  destruct res as [rows' |]; [| done]. intros [= <- -> <-].
  apply (read_rows_bytes_Reader_inv _ (Z.to_nat (stride_of w))) in E
    as (Hs & Hlens & Hlen).
  2: { apply Forall_replicate. by rewrite length_replicate. }
  2: { rewrite stride_of_div by lia.
       assert (0 ≤ (w + 7) / 8) by (Z.div_mod_to_equations; lia). lia. }
  rewrite length_replicate in Hlen. change (drop 0 s) with s in Hs.
  assert (Hwf : wf {| Width := w; Height := h; PixelRows := rows' |}).
  { apply wf_spec. simpl. repeat split; try lia.
    rewrite Hs in Hbytes. apply Forall_app in Hbytes as [Hbody _].
    apply Forall_concat_inv in Hbody.
    rewrite Forall_forall in Hlens, Hbody. apply Forall_forall.
    intros row Hrow. split; [by apply Hlens | by apply Hbody]. }
  split; [done |]. rewrite encode_wf by done. simpl. by rewrite <- Hs.
Qed.

Lemma Read_then_Write_witness :
  wf {| Width := 10; Height := 2; PixelRows := [[0; 0]; [0; 2]] |}
  ∧ [10; 2; 0; 0; 0; 2; 99]
    = encode {| Width := 10; Height := 2; PixelRows := [[0; 0]; [0; 2]] |}
      ++ unread {| unread := [99] |}.
Proof.
  apply (Read_then_Write [10; 2; 0; 0; 0; 2; 99]
           {| Width := 10; Height := 2; PixelRows := [[0; 0]; [0; 2]] |}
           {| unread := [99] |}).
  - repeat constructor; lia.
  - reflexivity.
Defined.

(** The rows loop on a [bytes.Reader] whose stream ends before the last
    row does. *)
Lemma read_rows_truncated (k m : nat) (rows bufs : list (list Z)) :
  (0 < k)%nat →
  Forall (λ row, length row = k) rows →
  Forall2 (λ v row : list Z, length v = length row) bufs rows →
  (m < length (concat rows))%nat →
  read_rows (Z.of_nat k) bufs {| unread := take m (concat rows) |}
  = (None,
     Some (if (m mod k =? 0)%nat then io_EOF
           else errors_New "Bitmap is truncated"),
     {| unread := [] |}).
Proof.
  intros Hk Hrows Hshape. revert m.
  induction Hshape as [| v row bufs rows Hlen _ IH]; intros m Hm;
    [simpl in Hm; lia |].
  apply Forall_cons in Hrows as [Hrow Hrows].
  simpl in *. rewrite length_app in Hm. rewrite Hlen, Hrow.
  unfold io_Read at 1, bytes_Reader_Reader at 1. simpl.
  destruct (decide (m = 0)%nat) as [-> | Hm0].
  { rewrite take_0. simpl. by rewrite Nat.Div0.mod_0_l. }
  destruct (decide (m < k)%nat) as [Hlt | Hge].
  - rewrite take_app_le by lia.
    destruct (take m row) as [| c s] eqn:E.
    { apply (f_equal length) in E. rewrite length_take in E.
      simpl in E. lia. }
    rewrite <- E. rewrite take_ge, drop_ge by (rewrite length_take; lia).
    rewrite length_take.
    destruct (Z.ltb_spec (Z.of_nat (m `min` length row)) (Z.of_nat k)); [| lia].
    rewrite Nat.mod_small by lia.
    by destruct (Nat.eqb_spec m 0).
  - rewrite take_app_ge by lia. rewrite Hrow.
    destruct (row ++ take (m - k) (concat rows)) as [| c s] eqn:E.
    { apply (f_equal length) in E. rewrite length_app in E. simpl in E. lia. }
    rewrite <- E, <- Hrow, take_app_length, drop_app_length, Hrow.
    destruct (Z.ltb_spec (Z.of_nat k) (Z.of_nat k)); [lia |].
    rewrite IH by (done || lia). simpl.
    replace (m mod k)%nat with ((m - k) mod k)%nat; [done |].
    replace m with ((m - k) + 1 * k)%nat at 2 by lia.
    by rewrite Nat.Div0.mod_add.
Qed.

(** X14. A stream cut short is never accepted: reading the first [m]
    bytes of the encoding of a bitmap, for [m] below its length, through
    a [bytes.Reader] gives no bitmap; the error is [io.EOF] when the cut
    is before the first byte or at the end of a row, the truncated-header
    error when one byte is left, and the truncated-body error when the
    cut is inside a row. *)
Theorem Read_truncated (img : Bitmap) (m : nat) :
  wf img → (m < length (encode img))%nat →
  Read {| unread := take m (encode img) |}
  = Some (None,
          Some (match m with
                | 0%nat => io_EOF
                | 1%nat => errors_New "Bitmap header is truncated"
                | S (S m') =>
                    if (m' mod Z.to_nat (ceil8 (Width img)) =? 0)%nat
                    then io_EOF
                    else errors_New "Bitmap is truncated"
                end),
          {| unread := [] |}).
Proof.
  intros Hwf. rewrite encode_wf by done.
  pose proof Hwf as (Hw & Hh & Hl & Hr)%wf_spec.
  destruct m as [| [| m]]; simpl; intros Hm; [done | done |].
  rewrite (Read_after_header _
             {| unread := take m (concat (PixelRows img)) |}
             (Width img) (Height img)); [| done | lia | lia].
  assert (Hlens : Forall (λ row, length row = Z.to_nat (stride_of (Width img)))
                    (PixelRows img)).
  { apply (Forall_impl _ _ _ Hr). by intros row [? _]. }
  assert (Hbody : (m < length (concat (PixelRows img)))%nat) by lia.
  assert (Hk : (0 < Z.to_nat (stride_of (Width img)))%nat).
  { rewrite (length_concat_uniform _ _ Hlens) in Hbody. nia. }
  replace (stride_of (Width img))
    with (Z.of_nat (Z.to_nat (stride_of (Width img)))) at 1 by lia.
  rewrite (read_rows_truncated _ m (PixelRows img)); try done.
  - by rewrite stride_of_ceil8 by lia.
  - by apply fresh_rows_shape.
Qed.

Lemma Read_truncated_witness :
  Read {| unread := take 5 (encode {| Width := 10; Height := 2;
                                      PixelRows := [[129; 3]; [64; 1]] |}) |}
  = Some (None, Some (errors_New "Bitmap is truncated"), {| unread := [] |}).
Proof.
  apply (Read_truncated {| Width := 10; Height := 2;
                           PixelRows := [[129; 3]; [64; 1]] |} 5 eq_refl).
  simpl. lia.
Defined.

(* ===================================================================== *)
(** ** The bitmap as an image: [Bounds] and [At] *)
(* ===================================================================== *)

Lemma Get_is_Some (img : Bitmap) (x y : Z) :
  wf img → 0 ≤ x → 0 ≤ y → is_Some (Bitmap_Get img x y).
Proof.
  intros Hwf Hx Hy.
  destruct (Z.le_gt_cases (Width img) x) as [Hox | Hix];
    [by rewrite Get_out_of_range by (left; lia) |].
  destruct (Z.le_gt_cases (Height img) y) as [Hoy | Hiy];
    [by rewrite Get_out_of_range by (right; lia) |].
  destruct (wf_byte_at img x y) as (row & b & Hrow & _ & Hbyte & _);
    [done | lia | lia |].
  by rewrite (Get_in_range img x y row b) by (done || lia).
Qed.

Lemma Bitmap_At_Get (img : Bitmap) (x y : Z) :
  wf img →
  Bitmap_At img x y
  = Some (if decide (0 ≤ x < Width img ∧ 0 ≤ y < Height img
                     ∧ Bitmap_Get img x y = Some true)
          then color_Black else color_White).
Proof.
  intros Hwf. pose proof Hwf as (HW & HH & _)%wf_spec.
  unfold Bitmap_At.
  destruct (Z.ltb_spec x 0); simpl; [by rewrite decide_False by lia |].
  destruct (Z.leb_spec (Width img) x); simpl; [by rewrite decide_False by lia |].
  destruct (Z.ltb_spec y 0); simpl; [by rewrite decide_False by lia |].
  destruct (Z.leb_spec (Height img) y); simpl; [by rewrite decide_False by lia |].
  rewrite !uint8_small by lia.
  destruct (Get_is_Some img x y Hwf) as [v Hv]; [lia | lia |].
  rewrite Hv. simpl. destruct v.
  - by rewrite decide_True by (repeat split; (lia || done)).
  - by rewrite decide_False by (by intros (_ & _ & [=])).
Qed.

Lemma Bitmap_Bounds_wf (img : Bitmap) :
  wf img →
  Bitmap_Bounds img
  = {| Min_X := 0; Min_Y := 0; Max_X := Width img; Max_Y := Height img |}.
Proof.
  intros (HW & HH & _)%wf_spec. unfold Bitmap_Bounds, image_Rect.
  destruct (Z.ltb_spec (Width img) 0); [lia |].
  destruct (Z.ltb_spec (Height img) 0); [lia |]. done.
Qed.

(** X15. For a bitmap that satisfies the invariant, [Bounds] is the
    rectangle from (0, 0) to (Width, Height), and [At] never panics, for
    any [int] coordinates: it returns black exactly at the in-bounds
    pixels that [Get] reports black, and white everywhere else. *)
Theorem Bitmap_At_spec (img : Bitmap) :
  wf img →
  Bitmap_Bounds img
  = {| Min_X := 0; Min_Y := 0; Max_X := Width img; Max_Y := Height img |}
  ∧ ∀ x y, ∃ c,
      Bitmap_At img x y = Some c
      ∧ (c = color_Black ↔
         0 ≤ x < Width img ∧ 0 ≤ y < Height img
         ∧ Bitmap_Get img x y = Some true)
      ∧ (c = color_White ↔
         ¬ (0 ≤ x < Width img ∧ 0 ≤ y < Height img
            ∧ Bitmap_Get img x y = Some true)).
Proof.
  intros Hwf. split; [by apply Bitmap_Bounds_wf |].
  intros x y. eexists. split; [by apply Bitmap_At_Get |].
  case_decide; split; split; (done || tauto || by intros).
Qed.

Lemma Bitmap_At_spec_witness :
  Bitmap_Bounds {| Width := 10; Height := 2; PixelRows := [[129; 3]; [64; 1]] |}
  = {| Min_X := 0; Min_Y := 0; Max_X := 10; Max_Y := 2 |}
  ∧ Bitmap_At {| Width := 10; Height := 2; PixelRows := [[129; 3]; [64; 1]] |}
      7 0 = Some color_Black
  ∧ Bitmap_At {| Width := 10; Height := 2; PixelRows := [[129; 3]; [64; 1]] |}
      (-1) 0 = Some color_White.
Proof.
  split; [| split; reflexivity].
  apply (proj1 (Bitmap_At_spec
                  {| Width := 10; Height := 2; PixelRows := [[129; 3]; [64; 1]] |}
                  eq_refl)).
Defined.

(** An image that shows a bitmap: its bounds are [Bounds()] and its colour
    at every point is the one [At] returns. *)
Lemma view_lumAt (colorToGray : color → Z) (img : Bitmap) (src : Image color)
    (x y : Z) :
  wf img →
  MinX src = Min_X (Bitmap_Bounds img) → MinY src = Min_Y (Bitmap_Bounds img) →
  (∀ x y, Bitmap_At img x y = Some (At src x y)) →
  0 ≤ x < Width img → 0 ≤ y < Height img →
  ∃ v, Bitmap_Get img x y = Some v
       ∧ lumAt colorToGray src x y
         = colorToGray (if v then color_Black else color_White).
Proof.
  intros Hwf HminX HminY Hat Hx Hy.
  pose proof Hwf as (HW & HH & _)%wf_spec.
  rewrite Bitmap_Bounds_wf in HminX, HminY by done. simpl in *.
  unfold lumAt. rewrite HminX, HminY.
  unfold int_add. rewrite !Z.add_0_r, !int_wrap_small by lia.
  destruct (Get_is_Some img x y Hwf) as [v Hv]; [lia | lia |].
  exists v. split; [done |].
  pose proof (Hat x y) as Hc. rewrite Bitmap_At_Get in Hc by done.
  injection Hc as <-. rewrite Hv. destruct v.
  - by rewrite decide_True by (repeat split; (lia || done)).
  - by rewrite decide_False by (by intros (_ & _ & [=])).
Qed.

Lemma view_size (img : Bitmap) (src : Image color) :
  wf img →
  MinX src = Min_X (Bitmap_Bounds img) → MinY src = Min_Y (Bitmap_Bounds img) →
  MaxX src = Max_X (Bitmap_Bounds img) → MaxY src = Max_Y (Bitmap_Bounds img) →
  clip (int_sub (MaxX src) (MinX src)) = Width img
  ∧ clip (int_sub (MaxY src) (MinY src)) = Height img.
Proof.
  intros Hwf -> -> -> ->. pose proof Hwf as (HW & HH & _)%wf_spec.
  rewrite Bitmap_Bounds_wf by done. simpl.
  unfold int_sub, clip. rewrite !Z.sub_0_r, !int_wrap_small by lia.
  destruct (Z.ltb_spec (Width img) 0), (Z.ltb_spec 255 (Width img)),
    (Z.ltb_spec (Height img) 0), (Z.ltb_spec 255 (Height img)); lia.
Qed.

Lemma ByThreshold_view (colorToGray : color → Z) (img : Bitmap)
    (src : Image color) (threshold : Z) :
  wf img →
  MinX src = Min_X (Bitmap_Bounds img) → MinY src = Min_Y (Bitmap_Bounds img) →
  MaxX src = Max_X (Bitmap_Bounds img) → MaxY src = Max_Y (Bitmap_Bounds img) →
  (∀ x y, Bitmap_At img x y = Some (At src x y)) →
  colorToGray color_Black < threshold ≤ colorToGray color_White →
  ∃ bmp, ByThreshold colorToGray src threshold = Some bmp
         ∧ Width bmp = Width img ∧ Height bmp = Height img
         ∧ ∀ x y, 0 ≤ x < 256 → 0 ≤ y < 256 →
                  Bitmap_Get bmp x y = Bitmap_Get img x y.
Proof.
  intros Hwf HminX HminY HmaxX HmaxY Hat Ht.
  destruct (ByThreshold_spec colorToGray src threshold)
    as (bmp & Hrun & Hwf' & HW & HH & Hpix).
  destruct (view_size img src) as [HcW HcH]; [done .. |].
  rewrite HcW in HW. rewrite HcH in HH.
  exists bmp. repeat split; try done.
  intros x y Hx Hy.
  destruct (Z.le_gt_cases (Width img) x) as [Hox | Hix];
    [rewrite !Get_out_of_range by (left; lia); done |].
  destruct (Z.le_gt_cases (Height img) y) as [Hoy | Hiy];
    [rewrite !Get_out_of_range by (right; lia); done |].
  rewrite Hpix by lia.
  destruct (view_lumAt colorToGray img src x y) as (v & -> & ->);
    [done | done | done | done | lia | lia |].
  f_equal. destruct v; [apply Z.ltb_lt | apply Z.ltb_ge]; lia.
Qed.

(** X16. Converting the image view of a bitmap (bounds [Bounds()], colours
    [At]) with [ByThreshold] gives the pixels of the bitmap back, for any
    threshold above the luminance of black and not above that of white
    (1..255 with Go's grey model). *)
Theorem ByThreshold_of_Bitmap (colorToGray : color → Z) (img : Bitmap)
    (src : Image color) (threshold : Z) :
  wf img →
  MinX src = Min_X (Bitmap_Bounds img) → MinY src = Min_Y (Bitmap_Bounds img) →
  MaxX src = Max_X (Bitmap_Bounds img) → MaxY src = Max_Y (Bitmap_Bounds img) →
  (∀ x y, Bitmap_At img x y = Some (At src x y)) →
  colorToGray color_Black < threshold ≤ colorToGray color_White →
  ∃ bmp, ByThreshold colorToGray src threshold = Some bmp
         ∧ Width bmp = Width img ∧ Height bmp = Height img
         ∧ ∀ x y, 0 ≤ x < 256 → 0 ≤ y < 256 →
                  Bitmap_Get bmp x y = Bitmap_Get img x y.
Proof. apply ByThreshold_view. Qed.

Lemma ByThreshold_of_Bitmap_witness :
  ∃ bmp,
    ByThreshold (λ c, match c with color_Black => 0 | color_White => 255 end)
      {| MinX := 0; MinY := 0; MaxX := 10; MaxY := 2;
         At := λ x y,
           default color_White
             (Bitmap_At {| Width := 10; Height := 2;
                           PixelRows := [[129; 3]; [64; 1]] |} x y) |} 128
    = Some bmp
    ∧ Width bmp = 10 ∧ Height bmp = 2
    ∧ ∀ x y, 0 ≤ x < 256 → 0 ≤ y < 256 →
             Bitmap_Get bmp x y
             = Bitmap_Get {| Width := 10; Height := 2;
                             PixelRows := [[129; 3]; [64; 1]] |} x y.
Proof.
  apply (ByThreshold_of_Bitmap
           (λ c, match c with color_Black => 0 | color_White => 255 end)
           {| Width := 10; Height := 2; PixelRows := [[129; 3]; [64; 1]] |}
           {| MinX := 0; MinY := 0; MaxX := 10; MaxY := 2;
              At := λ x y,
                default color_White
                  (Bitmap_At {| Width := 10; Height := 2;
                                PixelRows := [[129; 3]; [64; 1]] |} x y) |}
           128 eq_refl eq_refl eq_refl eq_refl eq_refl).
  - intros x y. simpl. by rewrite Bitmap_At_Get.
  - simpl. lia.
Defined.

(* ===================================================================== *)
(** ** The grey map and the filling pass *)
(* ===================================================================== *)

Lemma floatGrayMap_cells {Color} (colorToGray : Color → Z) (src : Image Color)
    (w h : Z) :
  0 ≤ w ≤ 255 → 0 ≤ h ≤ 255 →
  ∃ g, floatGrayMap colorToGray src w h = Some g
       ∧ Z.of_nat (length g) = w * h
       ∧ ∀ x y, 0 ≤ x < w → 0 ≤ y < h →
                g !! Z.to_nat (y * w + x)
                = Some (normalize (lumAt colorToGray src x y)).
Proof.
  intros Hw Hh. unfold floatGrayMap, make.
  assert (int_mul w h = w * h) as ->
    by (unfold int_mul; apply int_wrap_small; nia).
  destruct (Z.ltb_spec (w * h) 0); [nia |]. simpl.
  set (g0 := replicate (Z.to_nat (w * h)) 0%float).
  assert (Hl0 : Z.of_nat (length g0) = w * h)
    by (unfold g0; rewrite length_replicate; lia).
  clearbody g0.
  destruct (for_range_inv
    (λ y (t : list float),
       Z.of_nat (length t) = w * h
       ∧ ∀ x' y', 0 ≤ x' < w → 0 ≤ y' < y →
                  t !! Z.to_nat (y' * w + x')
                  = Some (normalize (lumAt colorToGray src x' y')))
    (λ y t, for_range w
       (λ x t, store t (int_add (int_mul y w) x)
                 (normalize (lumAt colorToGray src x y))) t) h g0)
    as (g & Hrun & Hl & Hcells).
  - split; [done |]. intros x' y' _ Hy'. lia.
  - intros y t Hy [Ht Hdone].
    destruct (for_range_inv
      (λ x (u : list float),
         Z.of_nat (length u) = w * h
         ∧ (∀ x' y', 0 ≤ x' < w → 0 ≤ y' < y →
                     u !! Z.to_nat (y' * w + x')
                     = Some (normalize (lumAt colorToGray src x' y')))
         ∧ ∀ x', 0 ≤ x' < x →
                 u !! Z.to_nat (y * w + x')
                 = Some (normalize (lumAt colorToGray src x' y)))
      (λ x u, store u (int_add (int_mul y w) x)
                (normalize (lumAt colorToGray src x y))) w t)
      as (t' & Hrow & Hl' & Hold & Hnew).
    + split; [done |]. split; [done |]. intros x' Hx'. lia.
    + intros x u Hx (Hu & Hrows & Hcols).
      change (int_add (int_mul y w) x) with (here_index w x y).
      rewrite (here_index_exact w h x y) by (done || nia).
      rewrite store_in_range by nia.
      eexists. split; [done |]. split; [by rewrite length_insert |]. split.
      * intros x' y' Hx' Hy'. rewrite list_lookup_insert_ne by nia.
        by apply Hrows.
      * intros x' Hx'.
        destruct (decide (x' = x)) as [-> | Hne].
        -- apply list_lookup_insert_eq. nia.
        -- rewrite list_lookup_insert_ne by nia. apply Hcols. lia.
    + exists t'. split; [done |]. split; [done |].
      intros x' y' Hx' Hy'.
      destruct (decide (y' = y)) as [-> | Hne]; [apply Hnew; lia |].
      apply Hold; lia.
  - exists g. split; [done |]. split; [done |].
    intros x y Hx Hy. apply Hcells; lia.
Qed.

(** The 256 luminances, checked one by one. *)
Lemma normalize_checked :
  forallb (λ lum, (0 <=? normalize lum)%float && (normalize lum <=? 1)%float
                  && Bool.eqb (0.5 <=? normalize lum)%float (128 <=? lum)
                  && Bool.eqb (0.5 <? normalize lum)%float (128 <=? lum))
          (seqZ 0 256) = true.
Proof. vm_compute. reflexivity. Qed.

Lemma normalize_range (lum : Z) :
  0 ≤ lum ≤ 255 →
  (0 <=? normalize lum)%float = true
  ∧ (normalize lum <=? 1)%float = true
  ∧ (0.5 <=? normalize lum)%float = (128 <=? lum)
  ∧ (0.5 <? normalize lum)%float = (128 <=? lum).
Proof.
  intros Hlum. pose proof normalize_checked as Hall.
  rewrite forallb_forall in Hall.
  specialize (Hall lum). rewrite <- list_elem_of_In, elem_of_seqZ in Hall.
  specialize (Hall ltac:(lia)).
  apply andb_true_iff in Hall as [[[H0 H1]%andb_true_iff H2]%andb_true_iff H3].
  apply Bool.eqb_prop in H2, H3. done.
Qed.

(** X17. [floatGrayMap] on clipped dimensions never panics and returns
    [w * h] values; the value at [y * w + x] is the luminance of the
    source pixel of the cell divided by 255, which lies in [0, 1] and is
    at least 0.5 exactly for the luminances from 128 on. *)
Theorem floatGrayMap_values {Color} (colorToGray : Color → Z)
    (src : Image Color) (w h : Z) :
  0 ≤ w ≤ 255 → 0 ≤ h ≤ 255 →
  (∀ c, 0 ≤ colorToGray c ≤ 255) →
  ∃ g, floatGrayMap colorToGray src w h = Some g
       ∧ Z.of_nat (length g) = w * h
       ∧ ∀ x y, 0 ≤ x < w → 0 ≤ y < h →
           ∃ v, g !! Z.to_nat (y * w + x) = Some v
                ∧ v = normalize (lumAt colorToGray src x y)
                ∧ (0 <=? v)%float = true ∧ (v <=? 1)%float = true
                ∧ (0.5 <=? v)%float = (128 <=? lumAt colorToGray src x y).
Proof.
  intros Hw Hh Hgray.
  destruct (floatGrayMap_cells colorToGray src w h Hw Hh) as (g & Hrun & Hl & Hc).
  exists g. split; [done |]. split; [done |].
  intros x y Hx Hy. eexists. split; [by apply Hc |]. split; [done |].
  destruct (normalize_range (lumAt colorToGray src x y)) as (? & ? & ? & _);
    [apply Hgray | done].
Qed.

Lemma floatGrayMap_values_witness :
  ∃ g, floatGrayMap uint8 (gray_image [[191; 160]; [12; 255]]) 2 2 = Some g
       ∧ Z.of_nat (length g) = 2 * 2
       ∧ ∀ x y, 0 ≤ x < 2 → 0 ≤ y < 2 →
           ∃ v, g !! Z.to_nat (y * 2 + x) = Some v
                ∧ v = normalize (lumAt uint8
                                   (gray_image [[191; 160]; [12; 255]]) x y)
                ∧ (0 <=? v)%float = true ∧ (v <=? 1)%float = true
                ∧ (0.5 <=? v)%float
                  = (128 <=? lumAt uint8
                               (gray_image [[191; 160]; [12; 255]]) x y).
Proof.
  apply (floatGrayMap_values uint8
           (gray_image [[191; 160]; [12; 255]]) 2 2); [lia | lia |].
  intros c. pose proof (uint8_range c). lia.
Defined.

(* ===================================================================== *)
(** ** Dithering what is already black and white *)
(* ===================================================================== *)

(** The error of a cell that holds 0.0 or 1.0 is zero, and so is every
    share of it. *)
Lemma share_of_binary (orig v : float) :
  orig = 1%float ∨ orig = 0%float → v = 1%float ∨ v = 0%float →
  quantize orig = orig
  ∧ (v + (orig - quantize orig) * 7 / 16 = v)%float
  ∧ (v + (orig - quantize orig) * 3 / 16 = v)%float
  ∧ (v + (orig - quantize orig) * 5 / 16 = v)%float
  ∧ (v + (orig - quantize orig) * 1 / 16 = v)%float.
Proof. intros [-> | ->] [-> | ->]; repeat split; reflexivity. Qed.

Lemma add_at_same (g : list float) (i : Z) (d : float) :
  0 ≤ i < Z.of_nat (length g) →
  (∀ v, g !! Z.to_nat i = Some v → (v + d)%float = v) →
  add_at g i d = Some g.
Proof.
  intros Hi Hd. destruct (add_at_in_range g i d Hi) as (v & Hv & ->).
  rewrite (Hd v Hv). by rewrite list_insert_id.
Qed.

Lemma dither_cell_binary (w h x y : Z) (g : list float) :
  0 ≤ x < w → 0 ≤ y < h →
  Z.of_nat (length g) = w * h → w * h < 2 ^ 63 →
  binary g → dither_cell w h x y g = Some g.
Proof.
  intros Hx Hy Hlen Hsize Hbin.
  pose proof (cell_below_size w h x y Hx Hy) as Hcell.
  unfold dither_cell.
  rewrite (int_sub_w_1 w h x y), (int_sub_h_1 w h x y) by done.
  rewrite (here_index_exact w h x y) by done.
  destruct (lookup_lt_is_Some_2 g (Z.to_nat (y * w + x))) as [orig Ho]; [nia |].
  rewrite index_nonneg, Ho by nia. simpl.
  pose proof (Hbin _ _ Ho) as Horig.
  assert (Hshare : ∀ v, v = 1%float ∨ v = 0%float →
            quantize orig = orig
            ∧ (v + (orig - quantize orig) * 7 / 16 = v)%float
            ∧ (v + (orig - quantize orig) * 3 / 16 = v)%float
            ∧ (v + (orig - quantize orig) * 5 / 16 = v)%float
            ∧ (v + (orig - quantize orig) * 1 / 16 = v)%float)
    by (intros v Hv; by apply share_of_binary).
  destruct (Hshare _ Horig) as (Hq & _).
  rewrite store_in_range by nia. simpl.
  replace (<[Z.to_nat (y * w + x) := quantize orig]> g) with g
    by (rewrite Hq; symmetry; by apply list_insert_id).
  assert (He : (if negb (x =? w - 1)
                then add_at g (east_index w x y)
                       ((orig - quantize orig) * 7 / 16)%float
                else Some g) = Some g).
  { destruct (Z.eqb_spec x (w - 1)); simpl; [done |].
    rewrite (east_index_exact w h x y) by done.
    apply add_at_same; [nia |]. intros v Hv.
    by destruct (Hshare v (Hbin _ _ Hv)) as (_ & ? & _). }
  rewrite He. simpl.
  destruct (Z.eqb_spec y (h - 1)) as [Hye | Hye]; simpl; [done |].
  pose proof (next_row_below_size w h x y Hx Hy Hye) as Hnext.
  rewrite (southwest_index_exact w h x y), (south_index_exact w h x y) by done.
  rewrite add_at_same; [| nia |].
  2: { intros v Hv. by destruct (Hshare v (Hbin _ _ Hv)) as (_ & _ & ? & _). }
  simpl. rewrite add_at_same; [| nia |].
  2: { intros v Hv. by destruct (Hshare v (Hbin _ _ Hv)) as (_ & _ & _ & ? & _). }
  simpl. destruct (Z.eqb_spec x (w - 1)); simpl; [done |].
  rewrite (southeast_index_exact w h x y) by done.
  apply add_at_same; [nia |]. intros v Hv.
  by destruct (Hshare v (Hbin _ _ Hv)) as (_ & _ & _ & _ & ?).
Qed.

Lemma floydSteinbergDither_binary (g : list float) (w h : Z) :
  0 ≤ w → 0 ≤ h → Z.of_nat (length g) = w * h → w * h < 2 ^ 63 →
  binary g → floydSteinbergDither g w h = Some g.
Proof.
  intros Hw Hh Hlen Hsize Hbin. unfold floydSteinbergDither.
  destruct (for_range_inv (λ _ (t : list float), t = g)
    (λ y t, for_range w (λ x t, dither_cell w h x y t) t) h g)
    as (g' & Hrun & ->); [done | | done].
  intros y t Hy ->.
  destruct (for_range_inv (λ _ (u : list float), u = g)
    (λ x u, dither_cell w h x y u) w g) as (t' & Hrow & ->); [done | | eauto].
  intros x u Hx ->. exists g. split; [| done].
  by apply dither_cell_binary.
Qed.

(** X18. A grid that holds nothing but 0.0 and 1.0 is left exactly as it
    is by the dithering pass, for every width, width 1 included. *)
Theorem dither_binary_unchanged (g : list float) (w h : Z) :
  0 ≤ w → 0 ≤ h → Z.of_nat (length g) = w * h → w * h < 2 ^ 63 →
  (∀ j v, g !! j = Some v → v = 1%float ∨ v = 0%float) →
  floydSteinbergDither g w h = Some g.
Proof. apply floydSteinbergDither_binary. Qed.

Lemma dither_binary_unchanged_witness :
  floydSteinbergDither [1; 0; 0]%float 1 3 = Some [1; 0; 0]%float.
Proof.
  apply (dither_binary_unchanged [1; 0; 0]%float 1 3);
    [lia | lia | reflexivity | lia |].
  intros [| [| [| j]]] v [= <-]; auto.
Defined.

Lemma dither_result_binary (g : list float) (w h : Z) :
  2 ≤ w → 0 ≤ h → Z.of_nat (length g) = w * h → w * h < 2 ^ 63 →
  ∃ g', floydSteinbergDither g w h = Some g'
        ∧ length g' = length g ∧ binary g'.
Proof.
  intros Hw Hh Hlen Hsize. unfold floydSteinbergDither.
  destruct (for_range_inv
    (λ y (t : list float),
       length t = length g
       ∧ ∀ j v, Z.of_nat j < y * w → t !! j = Some v →
                v = 1%float ∨ v = 0%float)
    (λ y t, for_range w (λ x t, dither_cell w h x y t) t) h g)
    as (g' & Hrun & Hl & Hfin).
  - split; [done |]. intros j v Hj. lia.
  - intros y t Hy [Ht Hdone].
    destruct (for_range_inv
      (λ x (u : list float),
         length u = length g
         ∧ ∀ j v, Z.of_nat j < y * w + x → u !! j = Some v →
                  v = 1%float ∨ v = 0%float)
      (λ x u, dither_cell w h x y u) w t) as (t' & Hrow & Hl' & Hfin').
    + split; [done |]. intros j v Hj. apply Hdone. lia.
    + intros x u Hx [Hu Hseen].
      destruct (dither_cell_frame w h x y u)
        as (u' & orig & Hcell & Hlu & _ & Hf & Hq); [done | done | lia | done |].
      exists u'. split; [done |]. split; [lia |].
      intros j v Hj.
      destruct (decide (Z.of_nat j < y * w + x)) as [Hlt | Hge].
      * rewrite Hf by lia. by apply Hseen.
      * assert (j = Z.to_nat (y * w + x)) as -> by lia.
        rewrite Hq by (by left). intros [= <-]. apply quantize_cases.
    + exists t'. split; [done |]. split; [done |].
      intros j v Hj. apply Hfin'. lia.
  - exists g'. split; [done |]. split; [done |].
    intros j v Hv. apply (Hfin j v); [| done].
    apply lookup_lt_Some in Hv. nia.
Qed.

(** X19. For a width of at least 2 the dithering pass is idempotent:
    applied to its own result it returns that result unchanged. *)
Theorem dither_idempotent (g : list float) (w h : Z) :
  2 ≤ w → 0 ≤ h → Z.of_nat (length g) = w * h → w * h < 2 ^ 63 →
  ∃ g', floydSteinbergDither g w h = Some g'
        ∧ floydSteinbergDither g' w h = Some g'.
Proof.
  intros Hw Hh Hlen Hsize.
  destruct (dither_result_binary g w h) as (g' & Hrun & Hl & Hbin); [done .. |].
  exists g'. split; [done |].
  apply floydSteinbergDither_binary; (done || lia).
Qed.

Lemma dither_idempotent_witness :
  ∃ g', floydSteinbergDither [0.75; 0.625; 0.75; 0.75]%float 2 2 = Some g'
        ∧ floydSteinbergDither g' 2 2 = Some g'.
Proof.
  apply (dither_idempotent [0.75; 0.625; 0.75; 0.75]%float 2 2);
    (lia || reflexivity).
Defined.

(** On an image whose luminances are all 0 or 255 the grey map is black
    and white, the dithering pass changes nothing, and the filling pass
    sets the pixels that a threshold in 1..255 sets. *)
Lemma ByDither_bw {Color} (colorToGray : Color → Z) (src : Image Color)
    (threshold : Z) :
  1 ≤ threshold ≤ 255 →
  (∀ x y, 0 ≤ x < clip (int_sub (MaxX src) (MinX src)) →
          0 ≤ y < clip (int_sub (MaxY src) (MinY src)) →
          lumAt colorToGray src x y = 0 ∨ lumAt colorToGray src x y = 255) →
  ByDither colorToGray src = ByThreshold colorToGray src threshold.
Proof.
  intros Ht Hbw. unfold ByDither, ByThreshold.
  destruct (createFromImageSize_spec src) as (bmp0 & -> & Hwf & HW & HH).
  simpl.
  set (w := clip (int_sub (MaxX src) (MinX src))) in *.
  set (h := clip (int_sub (MaxY src) (MinY src))) in *.
  pose proof (clip_range (int_sub (MaxX src) (MinX src))) as Hw.
  pose proof (clip_range (int_sub (MaxY src) (MinY src))) as Hh.
  fold w in Hw. fold h in Hh.
  destruct (floatGrayMap_cells colorToGray src w h) as (g & -> & Hl & Hcells);
    [done | done |].
  simpl.
  assert (Hbin : binary g).
  { intros j v Hv. pose proof (lookup_lt_Some _ _ _ Hv) as Hj.
    assert (Hw0 : 0 < w) by nia.
    specialize (Hcells (Z.of_nat j mod w) (Z.of_nat j / w)).
    replace (Z.of_nat j / w * w + Z.of_nat j mod w) with (Z.of_nat j) in Hcells
      by (Z.div_mod_to_equations; nia).
    rewrite Nat2Z.id, Hv in Hcells.
    assert (Hxr : 0 ≤ Z.of_nat j mod w < w) by (Z.div_mod_to_equations; nia).
    assert (Hyr : 0 ≤ Z.of_nat j / w < h) by (Z.div_mod_to_equations; nia).
    specialize (Hcells Hxr Hyr). injection Hcells as ->.
    destruct (Hbw _ _ Hxr Hyr) as [-> | ->]; [by right | by left]. }
  rewrite floydSteinbergDither_binary by (done || lia || nia). simpl.
  unfold fillByGrayMap.
  apply for_range_ext. intros y b Hy.
  apply for_range_ext. intros x c Hx.
  change (int_add (int_mul y w) x) with (here_index w x y).
  rewrite (here_index_exact w h x y) by (done || nia).
  rewrite index_nonneg, Hcells by (done || nia). simpl.
  f_equal.
  destruct (Hbw x y Hx Hy) as [-> | ->].
  - change (negb (0.5 <? normalize 0)%float) with true.
    symmetry. apply Z.ltb_lt. lia.
  - change (negb (0.5 <? normalize 255)%float) with false.
    symmetry. apply Z.ltb_ge. lia.
Qed.

(** X20. On a source whose luminances in the clipped window are all 0 or
    255, [ByDither] returns the same bitmap as [ByThreshold] with any
    threshold from 1 to 255. *)
Theorem ByDither_black_and_white {Color} (colorToGray : Color → Z)
    (src : Image Color) (threshold : Z) :
  1 ≤ threshold ≤ 255 →
  (∀ x y, 0 ≤ x < clip (int_sub (MaxX src) (MinX src)) →
          0 ≤ y < clip (int_sub (MaxY src) (MinY src)) →
          lumAt colorToGray src x y = 0 ∨ lumAt colorToGray src x y = 255) →
  ∃ bmp, ByDither colorToGray src = Some bmp
         ∧ ByThreshold colorToGray src threshold = Some bmp.
Proof.
  intros Ht Hbw.
  destruct (ByThreshold_spec colorToGray src threshold) as (bmp & Hrun & _).
  exists bmp. split; [| done].
  rewrite <- Hrun. by apply ByDither_bw.
Qed.

Lemma ByDither_black_and_white_witness :
  ∃ bmp, ByDither (λ c : bool, if c then 255 else 0)
           {| MinX := 0; MinY := 0; MaxX := 3; MaxY := 2;
              At := λ x y, Z.even (x + y) |} = Some bmp
         ∧ ByThreshold (λ c : bool, if c then 255 else 0)
             {| MinX := 0; MinY := 0; MaxX := 3; MaxY := 2;
                At := λ x y, Z.even (x + y) |} 128 = Some bmp.
Proof.
  apply (ByDither_black_and_white (λ c : bool, if c then 255 else 0)
           {| MinX := 0; MinY := 0; MaxX := 3; MaxY := 2;
              At := λ x y, Z.even (x + y) |} 128);
    [lia |].
  intros x y _ _. unfold lumAt. simpl.
  destruct (Z.even _); auto.
Defined.

(** X21. Converting the image view of a bitmap with [ByDither] gives the
    pixels of the bitmap back, when the grey model maps black to 0 and
    white to 255. *)
Theorem ByDither_of_Bitmap (colorToGray : color → Z) (img : Bitmap)
    (src : Image color) :
  wf img →
  MinX src = Min_X (Bitmap_Bounds img) → MinY src = Min_Y (Bitmap_Bounds img) →
  MaxX src = Max_X (Bitmap_Bounds img) → MaxY src = Max_Y (Bitmap_Bounds img) →
  (∀ x y, Bitmap_At img x y = Some (At src x y)) →
  colorToGray color_Black = 0 → colorToGray color_White = 255 →
  ∃ bmp, ByDither colorToGray src = Some bmp
         ∧ Width bmp = Width img ∧ Height bmp = Height img
         ∧ ∀ x y, 0 ≤ x < 256 → 0 ≤ y < 256 →
                  Bitmap_Get bmp x y = Bitmap_Get img x y.
Proof.
  intros Hwf HminX HminY HmaxX HmaxY Hat Hblack Hwhite.
  rewrite (ByDither_bw colorToGray src 128); [| lia |].
  - apply ByThreshold_view; try done. lia.
  - destruct (view_size img src) as [-> ->]; [done .. |].
    intros x y Hx Hy.
    destruct (view_lumAt colorToGray img src x y) as (v & _ & ->);
      [done .. |].
    destruct v; auto.
Qed.

Lemma ByDither_of_Bitmap_witness :
  ∃ bmp,
    ByDither (λ c, match c with color_Black => 0 | color_White => 255 end)
      {| MinX := 0; MinY := 0; MaxX := 10; MaxY := 2;
         At := λ x y,
           default color_White
             (Bitmap_At {| Width := 10; Height := 2;
                           PixelRows := [[129; 3]; [64; 1]] |} x y) |}
    = Some bmp
    ∧ Width bmp = 10 ∧ Height bmp = 2
    ∧ ∀ x y, 0 ≤ x < 256 → 0 ≤ y < 256 →
             Bitmap_Get bmp x y
             = Bitmap_Get {| Width := 10; Height := 2;
                             PixelRows := [[129; 3]; [64; 1]] |} x y.
Proof.
  apply (ByDither_of_Bitmap
           (λ c, match c with color_Black => 0 | color_White => 255 end)
           {| Width := 10; Height := 2; PixelRows := [[129; 3]; [64; 1]] |}
           {| MinX := 0; MinY := 0; MaxX := 10; MaxY := 2;
              At := λ x y,
                default color_White
                  (Bitmap_At {| Width := 10; Height := 2;
                                PixelRows := [[129; 3]; [64; 1]] |} x y) |}
           eq_refl eq_refl eq_refl eq_refl eq_refl);
    [| reflexivity | reflexivity].
  intros x y. simpl. by rewrite Bitmap_At_Get.
Defined.

(* ===================================================================== *)
(** ** More on the converters *)
(* ===================================================================== *)

(** X22. With 8-bit luminances, [ByThreshold] with the threshold 0 gives
    a bitmap without any black pixel, and a source pixel of luminance 255
    is white for every threshold up to 255. *)
Theorem ByThreshold_extremes {Color} (colorToGray : Color → Z)
    (src : Image Color) :
  (∀ c, 0 ≤ colorToGray c ≤ 255) →
  (∃ bmp, ByThreshold colorToGray src 0 = Some bmp
          ∧ ∀ x y, 0 ≤ x < 256 → 0 ≤ y < 256 →
                   Bitmap_Get bmp x y = Some false)
  ∧ ∀ threshold, threshold ≤ 255 →
      ∃ bmp, ByThreshold colorToGray src threshold = Some bmp
             ∧ ∀ x y, 0 ≤ x < Width bmp → 0 ≤ y < Height bmp →
                      lumAt colorToGray src x y = 255 →
                      Bitmap_Get bmp x y = Some false.
Proof.
  intros Hgray. split.
  - destruct (ByThreshold_spec colorToGray src 0)
      as (bmp & Hrun & _ & _ & _ & Hpix).
    exists bmp. split; [done |]. intros x y Hx Hy.
    destruct (Z.le_gt_cases (Width bmp) x) as [Hox | Hix];
      [by apply Get_out_of_range; left |].
    destruct (Z.le_gt_cases (Height bmp) y) as [Hoy | Hiy];
      [by apply Get_out_of_range; right |].
    rewrite Hpix by lia. f_equal. apply Z.ltb_ge. apply Hgray.
  - intros threshold Ht.
    destruct (ByThreshold_spec colorToGray src threshold)
      as (bmp & Hrun & _ & _ & _ & Hpix).
    exists bmp. split; [done |]. intros x y Hx Hy Hlum.
    rewrite Hpix, Hlum by done. f_equal. apply Z.ltb_ge. lia.
Qed.

Lemma ByThreshold_extremes_witness :
  ∃ bmp, ByThreshold uint8 (gray_image [[0; 128; 255]]) 0 = Some bmp
         ∧ ∀ x y, 0 ≤ x < 256 → 0 ≤ y < 256 →
                  Bitmap_Get bmp x y = Some false.
Proof.
  apply (proj1 (ByThreshold_extremes uint8 (gray_image [[0; 128; 255]])
                  (λ c, ltac:(pose proof (uint8_range c); lia)))).
Defined.

Lemma concat_insert_uniform {A} (rows : list (list A)) (s i j : nat)
    (row : list A) (a : A) :
  Forall (λ r, length r = s) rows →
  rows !! i = Some row → (j < s)%nat →
  concat (<[i := <[j := a]> row]> rows) = <[(i * s + j)%nat := a]> (concat rows).
Proof.
  intros Huni. revert i. induction Huni as [| r rows Hr _ IH]; intros i Hrow Hj;
    [done |].
  destruct i as [| i]; simpl in *.
  - injection Hrow as ->. by rewrite insert_app_l by lia.
  - rewrite insert_app_r_alt by lia.
    replace (s + i * s + j - length r)%nat with (i * s + j)%nat by lia.
    by rewrite IH.
Qed.

(** With the rows held by value, [Set] changes one byte of the encoding:
    the one at offset [2 + y * ceil(width/8) + x / 8], whose bit [x mod 8]
    is set to [v]. *)
Lemma Set_encode (img : Bitmap) (x y : Z) (v : bool) :
  wf img → 0 ≤ x < Width img → 0 ≤ y < Height img →
  ∃ img' b,
    Bitmap_Set img x y v = Some img'
    ∧ encode img !! Z.to_nat (2 + y * ceil8 (Width img) + x / 8) = Some b
    ∧ encode img'
      = <[Z.to_nat (2 + y * ceil8 (Width img) + x / 8) :=
            set_bit b (x mod 8) v]> (encode img)
    ∧ Z.testbit (set_bit b (x mod 8) v) (x mod 8) = v
    ∧ ∀ j, 0 ≤ j < 8 → j ≠ x mod 8 →
           Z.testbit (set_bit b (x mod 8) v) j = Z.testbit b j.
Proof.
  intros Hwf Hx Hy.
  destruct (wf_byte_at img x y) as (row & b & Hrow & Hlen & Hbyte & Hb);
    [done .. |].
  pose proof (Set_in_range img x y v row b Hx Hy Hrow Hbyte) as HS.
  destruct (Set_wf img _ x y v Hwf ltac:(lia) ltac:(lia) HS) as (Hwf' & _ & _).
  eexists _, b. split; [done |].
  pose proof Hwf as (HW & HH & Hl & Hr)%wf_spec.
  assert (Huni : Forall (λ r, length r = Z.to_nat (stride_of (Width img)))
                   (PixelRows img)).
  { apply (Forall_impl _ _ _ Hr). by intros r [? _]. }
  assert (Hs : 0 ≤ ceil8 (Width img)) by (pose proof (ceil8_bound _ HW); lia).
  replace (Z.to_nat (2 + y * ceil8 (Width img) + x / 8))
    with (2 + (Z.to_nat y * Z.to_nat (stride_of (Width img))
               + Z.to_nat (x / 8)))%nat
    by (rewrite stride_of_ceil8 by lia; nia).
  rewrite (encode_wf img Hwf), (encode_wf _ Hwf'). simpl.
  split; [by apply (lookup_concat_uniform _ _ _ _ row) |].
  split.
  - do 2 f_equal. apply concat_insert_uniform; [done | done | lia].
  - split.
    + rewrite set_bit_testbit by (Z.div_mod_to_equations; lia).
      by rewrite decide_True.
    + intros j Hj Hne.
      rewrite set_bit_testbit by (done || Z.div_mod_to_equations; lia).
      by rewrite decide_False.
Qed.

(* ===================================================================== *)
(** ** The first pixel of a dithered image *)
(* ===================================================================== *)

Lemma dither_first_cell (w h : Z) (g : list float) (orig : float) :
  0 < w → 0 < h → Z.of_nat (length g) = w * h → w * h < 2 ^ 63 →
  g !! 0%nat = Some orig →
  ∃ g1, dither_cell w h 0 0 g = Some g1
        ∧ length g1 = length g
        ∧ g1 !! 0%nat = Some (first_cell_value w h orig).
Proof.
  intros Hw Hh Hlen Hsize Ho. unfold first_cell_value.
  destruct (decide (w = 1 ∧ h ≠ 1)) as [[-> Hh1] | Hother].
  - assert (Hl2 : (2 ≤ length g)%nat) by lia.
    unfold dither_cell.
    rewrite (int_sub_w_1 1 h 0 0), (int_sub_h_1 1 h 0 0) by lia.
    rewrite (here_index_exact 1 h 0 0) by lia.
    rewrite (southwest_index_exact 1 h 0 0), (south_index_exact 1 h 0 0) by lia.
    change (0 * 1 + 0) with 0. change ((0 + 1) * 1 + 0 - 1) with 0.
    change ((0 + 1) * 1 + 0) with 1. change (0 =? 1 - 1) with true.
    destruct (Z.eqb_spec 0 (h - 1)); [lia |].
    rewrite index_nonneg by lia. change (Z.to_nat 0) with 0%nat.
    rewrite Ho. cbn [mbind option_bind negb].
    rewrite store_in_range by lia. change (Z.to_nat 0) with 0%nat.
    cbn [mbind option_bind negb].
    destruct (add_at_in_range (<[0%nat := quantize orig]> g) 0
                ((orig - quantize orig) * 3 / 16)%float) as (v & Hv & ->);
      [rewrite length_insert; lia |].
    change (Z.to_nat 0) with 0%nat in *.
    rewrite list_lookup_insert_eq in Hv by lia. injection Hv as <-.
    rewrite list_insert_insert_eq. cbn [mbind option_bind].
    destruct (add_at_in_range
                (<[0%nat := (quantize orig + (orig - quantize orig) * 3 / 16)%float]> g)
                1 ((orig - quantize orig) * 5 / 16)%float) as (v & _ & ->);
      [rewrite length_insert; lia |].
    cbn [mbind option_bind]. eexists. split; [done |].
    split; [by rewrite !length_insert |].
    rewrite list_lookup_insert_ne by done.
    apply list_lookup_insert_eq. lia.
  - destruct (dither_cell_frame w h 0 0 g)
      as (g1 & orig' & Hrun & Hl & Ho' & _ & Hq); [lia | lia | done | done |].
    replace (Z.to_nat (0 * w + 0)) with 0%nat in Ho', Hq by lia.
    assert (orig' = orig) as -> by congruence.
    exists g1. split; [done |]. split; [done |].
    apply Hq. lia.
Qed.

(** The steps after the first one leave the first cell as it is. *)
Lemma dither_first_cell_final (w h : Z) (g : list float) (orig : float) :
  0 < w → 0 < h → Z.of_nat (length g) = w * h → w * h < 2 ^ 63 →
  g !! 0%nat = Some orig →
  ∃ final, floydSteinbergDither g w h = Some final
           ∧ final !! 0%nat = Some (first_cell_value w h orig).
Proof.
  intros Hw Hh Hlen Hsize Ho. unfold floydSteinbergDither.
  destruct (for_range_inv
    (λ y (t : list float),
       length t = length g
       ∧ (y = 0 ∧ t = g
          ∨ 0 < y ∧ t !! 0%nat = Some (first_cell_value w h orig)))
    (λ y t, for_range w (λ x t, dither_cell w h x y t) t) h g)
    as (final & Hrun & _ & [[? _] | [_ Hfinal]]); [by auto | | lia | eauto].
  intros y t Hy [Ht Hstate].
  destruct (for_range_inv
    (λ x (u : list float),
       length u = length g
       ∧ (y = 0 ∧ x = 0 ∧ u = g
          ∨ (0 < y ∨ 0 < x) ∧ u !! 0%nat = Some (first_cell_value w h orig)))
    (λ x u, dither_cell w h x y u) w t)
    as (t' & Hrow & Hl' & [(_ & ? & _) | [_ Hfirst]]); [| | lia |].
  - split; [done |]. destruct Hstate as [[-> ->] | [? ?]]; [by left | right].
    split; [by left | done].
  - intros x u Hx [Hu Hcase].
    destruct Hcase as [(-> & -> & ->) | [Hpos Hfirst]].
    + destruct (dither_first_cell w h g orig) as (g1 & Hcell & Hl1 & H1);
        [done .. |].
      exists g1. split; [done |]. split; [done |]. right. split; [lia | done].
    + destruct (dither_cell_safe w h x y u) as (u' & Hcell & Hlu & Hframe);
        [done | done | lia | done |].
      exists u'. split; [done |]. split; [lia |]. right. split; [lia |].
      rewrite Hframe by nia. done.
  - exists t'. split; [done |]. split; [done |]. right. split; [lia | done].
Qed.

(** The 256 luminances, checked one by one: the value the first cell ends
    with is above 0.5 exactly for the luminances from 128 on. *)
Lemma first_cell_checked :
  forallb (λ lum,
             Bool.eqb (0.5 <? quantize (normalize lum))%float (128 <=? lum)
             && Bool.eqb
                  (0.5 <? quantize (normalize lum)
                          + (normalize lum - quantize (normalize lum)) * 3 / 16)%float
                  (128 <=? lum))
          (seqZ 0 256) = true.
Proof. vm_compute. reflexivity. Qed.

Lemma first_cell_white (w h lum : Z) :
  0 ≤ lum ≤ 255 →
  (0.5 <? first_cell_value w h (normalize lum))%float = (128 <=? lum).
Proof.
  intros Hlum. pose proof first_cell_checked as Hall.
  rewrite forallb_forall in Hall.
  specialize (Hall lum). rewrite <- list_elem_of_In, elem_of_seqZ in Hall.
  specialize (Hall ltac:(lia)).
  apply andb_true_iff in Hall as [H1 H2].
  apply Bool.eqb_prop in H1, H2.
  unfold first_cell_value. by case_decide.
Qed.

(** X25. With 8-bit luminances, the top-left pixel of the bitmap that
    [ByDither] returns for a non-empty source is black exactly when the
    luminance of the top-left source pixel is below 128, for every width,
    width 1 included. *)
Theorem ByDither_first_pixel {Color} (colorToGray : Color → Z)
    (src : Image Color) :
  (∀ c, 0 ≤ colorToGray c ≤ 255) →
  0 < int_sub (MaxX src) (MinX src) → 0 < int_sub (MaxY src) (MinY src) →
  ∃ bmp, ByDither colorToGray src = Some bmp
         ∧ Bitmap_Get bmp 0 0 = Some (lumAt colorToGray src 0 0 <? 128).
Proof.
  intros Hgray HX HY.
  destruct (ByDither_spec colorToGray src)
    as (bmp & grid & final & Hrun & Hwf & HW & HH & Hgrid & Hfinal & Hpix).
  exists bmp. split; [done |].
  pose proof Hwf as (HWr & HHr & _)%wf_spec.
  assert (HW0 : 0 < Width bmp).
  { rewrite HW. unfold clip.
    destruct (Z.ltb_spec (int_sub (MaxX src) (MinX src)) 0); [lia |].
    destruct (Z.ltb_spec 255 (int_sub (MaxX src) (MinX src))); lia. }
  assert (HH0 : 0 < Height bmp).
  { rewrite HH. unfold clip.
    destruct (Z.ltb_spec (int_sub (MaxY src) (MinY src)) 0); [lia |].
    destruct (Z.ltb_spec 255 (int_sub (MaxY src) (MinY src))); lia. }
  destruct (floatGrayMap_cells colorToGray src (Width bmp) (Height bmp))
    as (grid' & Hgrid' & Hlg & Hcells); [lia | lia |].
  assert (grid' = grid) as -> by congruence.
  pose proof (Hcells 0 0 ltac:(lia) ltac:(lia)) as Hc0.
  replace (Z.to_nat (0 * Width bmp + 0)) with 0%nat in Hc0 by lia.
  destruct (dither_first_cell_final (Width bmp) (Height bmp) grid _
              HW0 HH0 Hlg ltac:(nia) Hc0) as (final' & Hfinal' & Hv).
  assert (final' = final) as -> by congruence.
  destruct (Hpix 0 0 ltac:(lia) ltac:(lia)) as (v & Hv' & ->).
  replace (Z.to_nat (0 * Width bmp + 0)) with 0%nat in Hv' by lia.
  assert (v = first_cell_value (Width bmp) (Height bmp)
                (normalize (lumAt colorToGray src 0 0))) as -> by congruence.
  rewrite first_cell_white by apply Hgray.
  f_equal. destruct (Z.leb_spec 128 (lumAt colorToGray src 0 0));
    simpl; symmetry; [apply Z.ltb_ge | apply Z.ltb_lt]; lia.
Qed.

Lemma ByDither_first_pixel_witness :
  ∃ bmp, ByDither uint8 (gray_image [[127]; [200]]) = Some bmp
         ∧ Bitmap_Get bmp 0 0
           = Some (lumAt uint8 (gray_image [[127]; [200]]) 0 0 <? 128).
Proof.
  apply (ByDither_first_pixel uint8 (gray_image [[127]; [200]])
           (λ c, ltac:(pose proof (uint8_range c); lia)));
    vm_compute; reflexivity.
Defined.

(* ===================================================================== *)
(** ** Rows that share memory *)
(* ===================================================================== *)

(** The functions over a memory agree with the functions over rows held
    by value as long as no two rows of the bitmap show a common byte. *)

Lemma slice_bytes_spec (m : memory) (s : slice) (r : list Z) :
  slice_bytes m s = Some r ↔
  ∃ a, m !! s_array s = Some a
       ∧ (s_offset s + s_len s ≤ length a)%nat
       ∧ r = take (s_len s) (drop (s_offset s) a).
Proof.
  unfold slice_bytes. destruct (m !! s_array s) as [a |]; simpl.
  - destruct (Nat.leb_spec (s_offset s + s_len s) (length a)).
    + split.
      * intros [= <-]. by exists a.
      * intros (a' & [= <-] & _ & ->). done.
    + split; [done |]. intros (a' & [= <-] & ? & _). lia.
  - split; [done |]. by intros (a' & [=] & _).
Qed.

Lemma slice_bytes_length (m : memory) (s : slice) (r : list Z) :
  slice_bytes m s = Some r → length r = s_len s.
Proof.
  intros (a & _ & Hl & ->)%slice_bytes_spec.
  rewrite length_take, length_drop. lia.
Qed.

Lemma slice_index_bytes (m : memory) (s : slice) (r : list Z) (i : Z) :
  slice_bytes m s = Some r → slice_index m s i = index r i.
Proof.
  intros Hr. pose proof (slice_bytes_length _ _ _ Hr) as Hlen.
  apply slice_bytes_spec in Hr as (a & Ha & Hl & ->).
  unfold slice_index, index. rewrite Ha. simpl.
  destruct (Z.leb_spec 0 i), (Z.ltb_spec i 0); try lia; simpl.
  - destruct (Z.ltb_spec i (Z.of_nat (s_len s))).
    + rewrite lookup_take_lt by lia. by rewrite lookup_drop.
    + symmetry. apply lookup_ge_None. lia.
  - done.
Qed.

Lemma slice_store_bytes (m : memory) (s : slice) (r : list Z) (i v : Z) :
  slice_bytes m s = Some r → 0 ≤ i < Z.of_nat (length r) →
  ∃ a, m !! s_array s = Some a
       ∧ (s_offset s + Z.to_nat i < length a)%nat
       ∧ slice_store m s i v
         = Some (<[s_array s := <[(s_offset s + Z.to_nat i)%nat := v]> a]> m).
Proof.
  intros Hr Hi. pose proof (slice_bytes_length _ _ _ Hr) as Hlen.
  apply slice_bytes_spec in Hr as (a & Ha & Hl & ->).
  exists a. split; [done |]. split; [lia |].
  unfold slice_store. rewrite Ha. simpl.
  destruct (Z.leb_spec 0 i), (Z.ltb_spec i (Z.of_nat (s_len s)));
    try lia; simpl.
  destruct (Nat.ltb_spec (s_offset s + Z.to_nat i) (length a)); [done | lia].
Qed.

(** The written slice shows the new byte. *)
Lemma slice_bytes_written (m : memory) (s : slice) (a r : list Z) (i : nat)
    (v : Z) :
  m !! s_array s = Some a → slice_bytes m s = Some r → (i < s_len s)%nat →
  slice_bytes (<[s_array s := <[(s_offset s + i)%nat := v]> a]> m) s
  = Some (<[i := v]> r).
Proof.
  intros Ha Hr Hi.
  apply slice_bytes_spec in Hr as (a' & Ha' & Hl & ->).
  assert (a' = a) as -> by congruence.
  apply slice_bytes_spec. exists (<[(s_offset s + i)%nat := v]> a).
  split; [apply list_lookup_insert_eq; by eapply lookup_lt_Some |].
  split; [by rewrite length_insert |].
  rewrite drop_insert_ge by lia. rewrite take_insert_lt by lia.
  f_equal. lia.
Qed.

(** A slice that shares no byte with the written one shows what it did. *)
Lemma slice_bytes_frame (m : memory) (s t : slice) (a r : list Z) (i : nat)
    (v : Z) :
  m !! s_array s = Some a → (i < s_len s)%nat → overlap s t = false →
  slice_bytes m t = Some r →
  slice_bytes (<[s_array s := <[(s_offset s + i)%nat := v]> a]> m) t = Some r.
Proof.
  intros Ha Hi Hov Hr.
  apply slice_bytes_spec in Hr as (a' & Ha' & Hl & ->).
  apply slice_bytes_spec.
  destruct (decide (s_array s = s_array t)) as [Heq | Hne].
  - rewrite <- Heq in Ha'. assert (a' = a) as -> by congruence.
    exists (<[(s_offset s + i)%nat := v]> a).
    split; [rewrite <- Heq; apply list_lookup_insert_eq;
            by eapply lookup_lt_Some |].
    split; [by rewrite length_insert |].
    assert (Hcases : (s_offset s + i < s_offset t
                      ∨ s_offset t + s_len t ≤ s_offset s + i)%nat).
    { unfold overlap in Hov.
      destruct (Nat.eqb_spec (s_array s) (s_array t)); [| done].
      destruct (Nat.ltb_spec (s_offset s) (s_offset t + s_len t)),
               (Nat.ltb_spec (s_offset t) (s_offset s + s_len s)),
               (Nat.ltb_spec 0 (s_len s)), (Nat.ltb_spec 0 (s_len t));
        simpl in Hov; try done; lia. }
    destruct Hcases.
    + by rewrite drop_insert_lt by lia.
    + rewrite drop_insert_ge by lia. by rewrite take_insert_ge by lia.
  - exists a'. split; [by rewrite list_lookup_insert_ne |]. done.
Qed.

Lemma overlap_sym (s t : slice) : overlap s t = overlap t s.
Proof.
  unfold overlap.
  destruct (Nat.eqb_spec (s_array s) (s_array t)),
           (Nat.eqb_spec (s_array t) (s_array s)); try congruence; simpl;
    [| done].
  destruct (s_offset s <? s_offset t + s_len t)%nat,
           (s_offset t <? s_offset s + s_len s)%nat,
           (0 <? s_len s)%nat, (0 <? s_len t)%nat; done.
Qed.

Lemma rows_disjoint_lookup (rows : list slice) (i j : nat) (s t : slice) :
  rows_disjoint rows = true → i ≠ j →
  rows !! i = Some s → rows !! j = Some t → overlap s t = false.
Proof.
  revert i j. induction rows as [| r rows IH]; intros i j Hd Hne Hi Hj;
    [done |].
  simpl in Hd. apply andb_true_iff in Hd as [Hhead Hrest].
  rewrite forallb_forall in Hhead.
  destruct i as [| i], j as [| j]; simpl in *; try done.
  - injection Hi as ->. apply negb_true_iff, Hhead.
    apply list_elem_of_In. by eapply list_elem_of_lookup_2.
  - injection Hj as ->. rewrite overlap_sym. apply negb_true_iff, Hhead.
    apply list_elem_of_In. by eapply list_elem_of_lookup_2.
  - apply (IH i j); (done || lia).
Qed.

Lemma view_spec (m : memory) (img : MBitmap) (bmp : Bitmap) :
  view m img = Some bmp ↔
  Width bmp = MWidth img ∧ Height bmp = MHeight img
  ∧ Forall2 (λ s r, slice_bytes m s = Some r) (MPixelRows img) (PixelRows bmp).
Proof.
  unfold view. split.
  - destruct (mapM (slice_bytes m) (MPixelRows img)) as [rows |] eqn:Hrows;
      [| done].
    simpl. intros [= <-]. simpl. by apply mapM_Some in Hrows.
  - intros (HW & HH & Hrows). apply mapM_Some in Hrows. rewrite Hrows. simpl.
    destruct bmp. simpl in *. by subst.
Qed.

Lemma mwf_view (m : memory) (img : MBitmap) :
  mwf m img ↔ ∃ bmp, view m img = Some bmp ∧ wf bmp.
Proof.
  unfold mwf, wf. destruct (view m img) as [bmp |].
  - split; [intros H; by exists bmp | by intros (? & [= <-] & ?)].
  - split; [done | by intros (? & [=] & _)].
Qed.

Lemma Mem_Get_view (m : memory) (img : MBitmap) (bmp : Bitmap) (x y : Z) :
  view m img = Some bmp → Mem_Get m img x y = Bitmap_Get bmp x y.
Proof.
  intros (HW & HH & Hrows)%view_spec.
  unfold Mem_Get, Bitmap_Get. rewrite HW, HH.
  destruct ((MWidth img <=? x) || (MHeight img <=? y)); [done |].
  unfold index at 1 3. destruct (y <? 0); [done |].
  destruct (MPixelRows img !! Z.to_nat y) as [s |] eqn:Hs.
  - destruct (Forall2_lookup_l _ _ _ _ _ Hrows Hs) as (r & Hr & Hsr).
    rewrite Hr. simpl. by rewrite (slice_index_bytes m s r).
  - apply lookup_ge_None in Hs. rewrite (Forall2_length _ _ _ Hrows) in Hs.
    apply lookup_ge_None in Hs. by rewrite Hs.
Qed.

Lemma index_Some {A} (l : list A) (i : Z) (x : A) :
  index l i = Some x ↔ 0 ≤ i ∧ l !! Z.to_nat i = Some x.
Proof.
  unfold index. destruct (Z.ltb_spec i 0).
  - split; [done | lia].
  - split; [done | by intros [_ ?]].
Qed.

Lemma Mem_Set_view (m : memory) (img : MBitmap) (bmp bmp' : Bitmap)
    (x y : Z) (v : bool) :
  view m img = Some bmp → rows_disjoint (MPixelRows img) = true →
  Bitmap_Set bmp x y v = Some bmp' →
  ∃ m', Mem_Set m img x y v = Some m' ∧ view m' img = Some bmp'.
Proof.
  intros Hview Hdis HS.
  pose proof Hview as (HW & HH & Hrows)%view_spec.
  unfold Mem_Set, Bitmap_Set in *. rewrite HW, HH in HS.
  destruct ((MWidth img <=? x) || (MHeight img <=? y)).
  { injection HS as <-. by exists m. }
  destruct (index (PixelRows bmp) y) as [row |] eqn:Hrow; [| done].
  apply index_Some in Hrow as [Hy0 Hrow]. simpl in HS.
  destruct (Forall2_lookup_r _ _ _ _ _ Hrows Hrow) as (s & Hs & Hsr).
  rewrite (proj2 (index_Some _ _ _) (conj Hy0 Hs)). simpl.
  rewrite (slice_index_bytes m s row _ Hsr).
  destruct (index row (x / 8)) as [b |] eqn:Hb; [| done]. simpl in *.
  set (b' := if v then _ else _) in *.
  unfold store in HS.
  destruct (Z.leb_spec 0 (x / 8)), (Z.ltb_spec (x / 8) (Z.of_nat (length row)));
    simpl in HS; try done.
  destruct (Z.leb_spec 0 y), (Z.ltb_spec y (Z.of_nat (length (PixelRows bmp))));
    simpl in HS; try done.
  injection HS as <-.
  destruct (slice_store_bytes m s row (x / 8) b' Hsr) as (a & Ha & Hl & Hst);
    [lia |].
  eexists. split; [done |].
  pose proof (slice_bytes_length _ _ _ Hsr) as Hlen.
  apply view_spec. simpl. split; [done |]. split; [done |].
  apply Forall2_same_length_lookup. split.
  { rewrite length_insert. by eapply Forall2_length. }
  intros j t r Ht Hr.
  destruct (decide (j = Z.to_nat y)) as [-> | Hne].
  - rewrite list_lookup_insert_eq in Hr by lia. injection Hr as <-.
    assert (t = s) as -> by congruence.
    apply slice_bytes_written; try done. Z.div_mod_to_equations. lia.
  - rewrite list_lookup_insert_ne in Hr by done.
    apply slice_bytes_frame; [done | Z.div_mod_to_equations; lia | |].
    + apply (rows_disjoint_lookup (MPixelRows img) (Z.to_nat y) j); done.
    + exact (Forall2_lookup_lr _ _ _ j _ _ Hrows Ht Hr).
Qed.

(** [Set] at an in-range pixel, by the byte it writes. *)
Lemma Mem_Set_in_range (m : memory) (img : MBitmap) (x y : Z) (v : bool) :
  mwf m img → 0 ≤ x < MWidth img → 0 ≤ y < MHeight img →
  ∃ s a b,
    MPixelRows img !! Z.to_nat y = Some s
    ∧ m !! s_array s = Some a
    ∧ 0 ≤ x / 8 < Z.of_nat (s_len s)
    ∧ (s_offset s + s_len s ≤ length a)%nat
    ∧ a !! (s_offset s + Z.to_nat (x / 8))%nat = Some b
    ∧ Mem_Set m img x y v
      = Some (<[s_array s :=
                 <[(s_offset s + Z.to_nat (x / 8))%nat :=
                     set_bit b (x mod 8) v]> a]> m).
Proof.
  intros (bmp & Hview & Hwf)%mwf_view Hx Hy.
  pose proof Hview as (HW & HH & Hrows)%view_spec.
  destruct (wf_byte_at bmp x y) as (row & b & Hrow & Hlen & Hb & Hr);
    [done | lia | lia |].
  destruct (Forall2_lookup_r _ _ _ _ _ Hrows Hrow) as (s & Hs & Hsr).
  pose proof (slice_bytes_length _ _ _ Hsr) as Hsl.
  destruct (slice_store_bytes m s row (x / 8) (set_bit b (x mod 8) v) Hsr)
    as (a & Ha & Hl & Hst); [lia |].
  pose proof Hsr as (a' & Ha' & Hla & Heq)%slice_bytes_spec.
  assert (a' = a) as -> by congruence.
  exists s, a, b. split; [done |]. split; [done |]. split; [lia |].
  split; [done |].
  split.
  { rewrite Heq in Hb. rewrite lookup_take_lt in Hb by lia.
    by rewrite lookup_drop in Hb. }
  unfold Mem_Set.
  destruct (Z.leb_spec (MWidth img) x), (Z.leb_spec (MHeight img) y);
    try lia; simpl.
  rewrite (proj2 (index_Some _ _ _) (conj (proj1 Hy) Hs)). simpl.
  rewrite (slice_index_bytes m s row _ Hsr).
  rewrite (proj2 (index_Some _ _ _) (conj (proj1 Hr) Hb)). simpl.
  exact Hst.
Qed.

Lemma for_loop_sim {St Tt} (R : St → Tt → Prop) (f : Z → St → option St)
    (g : Z → Tt → option Tt) (n : nat) (i : Z) (s s' : St) (t : Tt) :
  (∀ j a a' b, R a b → f j a = Some a' → ∃ b', g j b = Some b' ∧ R a' b') →
  R s t → for_loop n i f s = Some s' →
  ∃ t', for_loop n i g t = Some t' ∧ R s' t'.
Proof.
  intros Hstep. revert i s t. induction n as [| n IH]; intros i s t HR Hrun.
  - injection Hrun as <-. by exists t.
  - simpl in *. destruct (f i s) as [s1 |] eqn:Hf; [| done]. simpl in Hrun.
    destruct (Hstep i s s1 t HR Hf) as (t1 & Hg & HR1). rewrite Hg. simpl.
    by apply (IH (i + 1) s1).
Qed.

Lemma Mem_fillByGrayMap_view (src : list float) (m : memory) (dst : MBitmap)
    (bmp bmp' : Bitmap) (w h : Z) :
  view m dst = Some bmp → rows_disjoint (MPixelRows dst) = true →
  fillByGrayMap src bmp w h = Some bmp' →
  ∃ m', Mem_fillByGrayMap src m dst w h = Some m' ∧ view m' dst = Some bmp'.
Proof.
  intros Hview Hdis Hrun. unfold fillByGrayMap, Mem_fillByGrayMap, for_range in *.
  refine (for_loop_sim (λ b m, view m dst = Some b) _ _ _ _ _ _ _ _ Hview Hrun).
  intros y b b' m0 Hv Hrow.
  refine (for_loop_sim (λ b m, view m dst = Some b) _ _ _ _ _ _ _ _ Hv Hrow).
  intros x b1 b1' m1 Hv1 Hcell.
  destruct (index src (int_add (int_mul y w) x)) as [g |]; [| done].
  simpl in *. by apply (Mem_Set_view m1 dst b1 b1').
Qed.

Lemma Mem_write_rows_view {W} `{Writer W} (m : memory) (slices : list slice)
    (rows : list (list Z)) (n : Z) (w : W) :
  Forall2 (λ s r, slice_bytes m s = Some r) slices rows →
  Mem_write_rows m slices n w = Some (write_rows rows n w).
Proof.
  intros Hrows. revert n w. induction Hrows as [| s r slices rows Hs _ IH];
    intros n w; [done |].
  simpl. rewrite Hs. simpl. destruct (io_Write w r) as [[n2 [e |]] w']; [done |].
  apply IH.
Qed.

Lemma Mem_Write_view {W} `{Writer W} (m : memory) (img : MBitmap)
    (bmp : Bitmap) (w : W) :
  view m img = Some bmp → Mem_Write m img w = Some (Bitmap_Write bmp w).
Proof.
  intros (HW & HH & Hrows)%view_spec. unfold Mem_Write, Bitmap_Write.
  rewrite HW, HH.
  destruct (io_Write w [uint8 (MWidth img); uint8 (MHeight img)])
    as [[n [e |]] w']; [done |].
  by apply Mem_write_rows_view.
Qed.

Lemma Mem_encode_view (m : memory) (img : MBitmap) (bmp : Bitmap) :
  view m img = Some bmp → Mem_encode m img = Some (encode bmp).
Proof.
  intros Hview. unfold Mem_encode, encode.
  rewrite (Mem_Write_view m img bmp _ Hview). simpl.
  by destruct (Bitmap_Write bmp {| buf := [] |}) as [[n e] w].
Qed.

Lemma Mem_Set_mwf (m m' : memory) (img : MBitmap) (x y : Z) (v : bool) :
  mwf m img → rows_disjoint (MPixelRows img) = true →
  0 ≤ x → 0 ≤ y → Mem_Set m img x y v = Some m' → mwf m' img.
Proof.
  intros (bmp & Hview & Hwf)%mwf_view Hdis Hx Hy HS.
  pose proof Hview as (HW & HH & _)%view_spec.
  assert (∃ bmp', Bitmap_Set bmp x y v = Some bmp') as [bmp' HS'].
  { destruct (decide (x < Width bmp ∧ y < Height bmp)) as [[? ?] | Hout].
    - apply Set_succeeds; (done || lia).
    - exists bmp. apply Set_out_of_range. lia. }
  destruct (Mem_Set_view m img bmp bmp' x y v Hview Hdis HS')
    as (m1 & HS1 & Hview1).
  assert (m1 = m') as -> by congruence.
  apply mwf_view. exists bmp'. split; [done |].
  by destruct (Set_wf bmp bmp' x y v Hwf Hx Hy HS').
Qed.

(** X5. On a bitmap over a memory that satisfies the invariant and whose
    rows share no byte, [Set] at an in-range pixel succeeds, keeps the
    invariant, makes the pixel the value written and changes no other
    pixel.  Without the condition on the rows the last part fails: see
    [shared_rows_Set]. *)
Theorem Mem_Set_frame (m : memory) (img : MBitmap) (x y : Z) (black : bool) :
  mwf m img → rows_disjoint (MPixelRows img) = true →
  0 ≤ x < MWidth img → 0 ≤ y < MHeight img →
  ∃ m', Mem_Set m img x y black = Some m'
        ∧ mwf m' img
        ∧ Mem_Get m' img x y = Some black
        ∧ ∀ x' y', 0 ≤ x' < 256 → 0 ≤ y' < 256 → (x', y') ≠ (x, y) →
                   Mem_Get m' img x' y' = Mem_Get m img x' y'.
Proof.
  intros Hm Hdis Hx Hy.
  pose proof Hm as (bmp & Hview & Hwf)%mwf_view.
  pose proof Hview as (HW & HH & _)%view_spec.
  destruct (Set_frame bmp x y black) as (bmp' & HS & Hwf' & _ & _ & Hframe);
    [done | lia | lia |].
  destruct (Mem_Set_view m img bmp bmp' x y black Hview Hdis HS)
    as (m' & HS' & Hview').
  exists m'. split; [done |].
  split; [apply mwf_view; by exists bmp' |].
  split.
  - rewrite (Mem_Get_view m' img bmp' x y Hview').
    rewrite (Get_Set bmp bmp' x y x y black) by (done || lia).
    by rewrite decide_True.
  - intros x' y' Hx' Hy' Hne.
    rewrite (Mem_Get_view m' img bmp' x' y' Hview').
    rewrite (Mem_Get_view m img bmp x' y' Hview).
    by apply Hframe.
Qed.

Lemma Mem_Set_frame_witness :
  ∃ m', Mem_Set [[129; 3]; [64; 1]] rows_apart 9 1 false = Some m'
        ∧ mwf m' rows_apart
        ∧ Mem_Get m' rows_apart 9 1 = Some false
        ∧ ∀ x' y', 0 ≤ x' < 256 → 0 ≤ y' < 256 → (x', y') ≠ (9, 1) →
                   Mem_Get m' rows_apart x' y'
                   = Mem_Get [[129; 3]; [64; 1]] rows_apart x' y'.
Proof.
  apply (Mem_Set_frame [[129; 3]; [64; 1]] rows_apart 9 1 false);
    [reflexivity | reflexivity | simpl; lia | simpl; lia].
Defined.

(** Two in-range pixels of rows that share no byte are stored in the same
    byte only when they are in the same row and the same byte of it. *)
Lemma same_byte_same_row (rows : list slice) (y1 y2 : nat) (s1 s2 : slice)
    (i1 i2 : nat) :
  rows_disjoint rows = true →
  rows !! y1 = Some s1 → rows !! y2 = Some s2 →
  (i1 < s_len s1)%nat → (i2 < s_len s2)%nat →
  s_array s1 = s_array s2 →
  (s_offset s1 + i1 = s_offset s2 + i2)%nat →
  y1 = y2 ∧ i1 = i2.
Proof.
  intros Hdis Hs1 Hs2 Hi1 Hi2 Harr Hoff.
  destruct (decide (y1 = y2)) as [-> | Hne].
  - assert (s2 = s1) as -> by congruence. split; [done | lia].
  - pose proof (rows_disjoint_lookup rows y1 y2 s1 s2 Hdis Hne Hs1 Hs2) as Hov.
    unfold overlap in Hov.
    destruct (Nat.eqb_spec (s_array s1) (s_array s2)); [| done].
    destruct (Nat.ltb_spec (s_offset s1) (s_offset s2 + s_len s2)),
             (Nat.ltb_spec (s_offset s2) (s_offset s1 + s_len s1)),
             (Nat.ltb_spec 0 (s_len s1)), (Nat.ltb_spec 0 (s_len s2));
      simpl in Hov; try done; lia.
Qed.

(** X8. On a bitmap over a memory that satisfies the invariant and whose
    rows share no byte, writes to two different in-range pixels commute:
    both orders succeed and leave the same memory, whether the pixels are
    in one byte, one row or two rows.  With shared rows the order can
    matter: see [shared_rows_order]. *)
Theorem Mem_Set_commute (m : memory) (img : MBitmap) (x1 y1 x2 y2 : Z)
    (v1 v2 : bool) :
  mwf m img → rows_disjoint (MPixelRows img) = true →
  0 ≤ x1 < MWidth img → 0 ≤ y1 < MHeight img →
  0 ≤ x2 < MWidth img → 0 ≤ y2 < MHeight img →
  (x1, y1) ≠ (x2, y2) →
  (m1 ← Mem_Set m img x1 y1 v1; Mem_Set m1 img x2 y2 v2)
  = (m2 ← Mem_Set m img x2 y2 v2; Mem_Set m2 img x1 y1 v1)
  ∧ is_Some (m1 ← Mem_Set m img x1 y1 v1; Mem_Set m1 img x2 y2 v2).
Proof.
  intros Hm Hdis Hx1 Hy1 Hx2 Hy2 Hne.
  destruct (Mem_Set_in_range m img x1 y1 v1 Hm Hx1 Hy1)
    as (s1 & a1 & b1 & Hs1 & Ha1 & Hk1 & Hl1 & Hb1 & HS1).
  destruct (Mem_Set_in_range m img x2 y2 v2 Hm Hx2 Hy2)
    as (s2 & a2 & b2 & Hs2 & Ha2 & Hk2 & Hl2 & Hb2 & HS2).
  rewrite HS1, HS2. simpl.
  set (o1 := (s_offset s1 + Z.to_nat (x1 / 8))%nat) in *.
  set (o2 := (s_offset s2 + Z.to_nat (x2 / 8))%nat) in *.
  set (m1 := <[s_array s1 := <[o1 := set_bit b1 (x1 mod 8) v1]> a1]> m) in *.
  set (m2 := <[s_array s2 := <[o2 := set_bit b2 (x2 mod 8) v2]> a2]> m) in *.
  assert (Hm1 : mwf m1 img)
    by (apply (Mem_Set_mwf m m1 img x1 y1 v1); (done || lia)).
  assert (Hm2 : mwf m2 img)
    by (apply (Mem_Set_mwf m m2 img x2 y2 v2); (done || lia)).
  destruct (Mem_Set_in_range m1 img x2 y2 v2 Hm1 Hx2 Hy2)
    as (s2' & a2' & b2' & Hs2' & Ha2' & _ & _ & Hb2' & HS12).
  destruct (Mem_Set_in_range m2 img x1 y1 v1 Hm2 Hx1 Hy1)
    as (s1' & a1' & b1' & Hs1' & Ha1' & _ & _ & Hb1' & HS21).
  assert (s2' = s2) as -> by congruence.
  assert (s1' = s1) as -> by congruence.
  fold o1 in Hb1', HS21. fold o2 in Hb2', HS12.
  rewrite HS12, HS21. split; [| done]. f_equal.
  pose proof (lookup_lt_Some _ _ _ Ha1) as HA1.
  pose proof (lookup_lt_Some _ _ _ Ha2) as HA2.
  pose proof (lookup_lt_Some _ _ _ Hb1) as HO1.
  pose proof (lookup_lt_Some _ _ _ Hb2) as HO2.
  clear Hm1 Hm2 HS1 HS2 HS12 HS21. subst m1 m2.
  destruct (decide (s_array s1 = s_array s2)) as [Harr | Harr].
  - (* the two rows are windows on one array *)
    rewrite <- Harr in *.
    assert (a2 = a1) as -> by congruence.
    rewrite list_lookup_insert_eq in Ha2' by done.
    rewrite list_lookup_insert_eq in Ha1' by done.
    injection Ha2' as <-. injection Ha1' as <-.
    rewrite !list_insert_insert_eq. f_equal.
    destruct (decide (o1 = o2)) as [Ho | Ho].
    + (* one byte: two bits of it *)
      destruct (same_byte_same_row (MPixelRows img) (Z.to_nat y1) (Z.to_nat y2)
                  s1 s2 (Z.to_nat (x1 / 8)) (Z.to_nat (x2 / 8)))
        as [Hy Hk]; [done | done | done | lia | lia | done | done |].
      assert (Hbit : x1 mod 8 ≠ x2 mod 8).
      { intros Hbit. apply Hne.
        assert (x1 / 8 = x2 / 8) by lia. assert (y1 = y2) by lia.
        f_equal; [| done]. Z.div_mod_to_equations. lia. }
      rewrite <- Ho in *.
      assert (b2 = b1) as -> by congruence.
      rewrite list_lookup_insert_eq in Hb2' by done.
      rewrite list_lookup_insert_eq in Hb1' by done.
      injection Hb2' as <-. injection Hb1' as <-.
      rewrite !list_insert_insert_eq. f_equal.
      apply set_bit_commute; [| | done]; by apply Z.mod_pos_bound.
    + rewrite list_lookup_insert_ne in Hb2' by done.
      rewrite list_lookup_insert_ne in Hb1' by done.
      assert (b2' = b2) as -> by congruence.
      assert (b1' = b1) as -> by congruence.
      by apply list_insert_insert_ne.
  - (* two arrays *)
    rewrite list_lookup_insert_ne in Ha2' by done.
    rewrite list_lookup_insert_ne in Ha1' by done.
    assert (a2' = a2) as -> by congruence.
    assert (a1' = a1) as -> by congruence.
    assert (b2' = b2) as -> by congruence.
    assert (b1' = b1) as -> by congruence.
    by apply list_insert_insert_ne.
Qed.

Lemma Mem_Set_commute_witness :
  (m1 ← Mem_Set [[129; 3]; [64; 1]] rows_apart 3 1 true;
   Mem_Set m1 rows_apart 4 1 true)
  = (m2 ← Mem_Set [[129; 3]; [64; 1]] rows_apart 4 1 true;
     Mem_Set m2 rows_apart 3 1 true)
  ∧ is_Some (m1 ← Mem_Set [[129; 3]; [64; 1]] rows_apart 3 1 true;
             Mem_Set m1 rows_apart 4 1 true).
Proof.
  apply (Mem_Set_commute [[129; 3]; [64; 1]] rows_apart 3 1 4 1 true true);
    [reflexivity | reflexivity | simpl; lia .. | discriminate].
Defined.

(** X23. [fillByGrayMap] on a grid of [w * h] values and a bitmap of that
    size over a memory, whose rows share no byte, never panics, keeps the
    invariant and overwrites every pixel: whatever the memory held, the
    pixel [x, y] is afterwards black exactly when the grid value at
    [y * w + x] is not above 0.5.  With shared rows a later row repaints
    an earlier one: see [shared_rows_fill]. *)
Theorem Mem_fillByGrayMap_pixels (src : list float) (m : memory)
    (dst : MBitmap) (w h : Z) :
  mwf m dst → rows_disjoint (MPixelRows dst) = true →
  MWidth dst = w → MHeight dst = h →
  Z.of_nat (length src) = w * h →
  ∃ m',
    Mem_fillByGrayMap src m dst w h = Some m'
    ∧ mwf m' dst
    ∧ ∀ x y, 0 ≤ x < w → 0 ≤ y < h →
        ∃ v, src !! Z.to_nat (y * w + x) = Some v
             ∧ (Mem_Get m' dst x y = Some true ↔ (0.5 <? v)%float = false)
             ∧ (Mem_Get m' dst x y = Some false ↔ (0.5 <? v)%float = true).
Proof.
  intros (bmp & Hview & Hwf)%mwf_view Hdis HW HH Hlen.
  pose proof Hview as (HW' & HH' & _)%view_spec.
  destruct (fillByGrayMap_spec src bmp w h Hwf) as
    (bmp' & Hrun & Hwf' & _ & _ & Hpix); [congruence | congruence | done |].
  destruct (Mem_fillByGrayMap_view src m dst bmp bmp' w h Hview Hdis Hrun)
    as (m' & Hrun' & Hview').
  exists m'. split; [done |].
  split; [apply mwf_view; by exists bmp' |].
  intros x y Hx Hy. destruct (Hpix x y Hx Hy) as (v & Hv & HG).
  exists v. split; [done |].
  rewrite (Mem_Get_view m' dst bmp' x y Hview'), HG.
  destruct (0.5 <? v)%float; simpl; split; split; (done || by intros [=]).
Qed.

Lemma Mem_fillByGrayMap_pixels_witness :
  ∃ m',
    Mem_fillByGrayMap [0.5; 0.75]%float [[2]]
      {| MWidth := 2; MHeight := 1; MPixelRows := [fresh_row 0 1 0] |} 2 1
    = Some m'
    ∧ mwf m' {| MWidth := 2; MHeight := 1; MPixelRows := [fresh_row 0 1 0] |}
    ∧ ∀ x y, 0 ≤ x < 2 → 0 ≤ y < 1 →
        ∃ v, [0.5; 0.75]%float !! Z.to_nat (y * 2 + x) = Some v
             ∧ (Mem_Get m'
                  {| MWidth := 2; MHeight := 1;
                     MPixelRows := [fresh_row 0 1 0] |} x y = Some true
                ↔ (0.5 <? v)%float = false)
             ∧ (Mem_Get m'
                  {| MWidth := 2; MHeight := 1;
                     MPixelRows := [fresh_row 0 1 0] |} x y = Some false
                ↔ (0.5 <? v)%float = true).
Proof.
  apply (Mem_fillByGrayMap_pixels [0.5; 0.75]%float [[2]]
           {| MWidth := 2; MHeight := 1; MPixelRows := [fresh_row 0 1 0] |}
           2 1);
    reflexivity.
Defined.

(** X24. On the wire [Set] changes one byte only, when the rows share no
    byte: the encoding of the bitmap after [Set(x, y, v)] at an in-range
    pixel is the encoding before with the byte at offset
    [2 + y * ceil(width/8) + x / 8] replaced by that byte with its bit
    [x mod 8] set to [v].  With shared rows more than one byte of the
    encoding changes: see [shared_rows_encode]. *)
Theorem Mem_Set_encode (m : memory) (img : MBitmap) (x y : Z) (v : bool) :
  mwf m img → rows_disjoint (MPixelRows img) = true →
  0 ≤ x < MWidth img → 0 ≤ y < MHeight img →
  ∃ m' e b,
    Mem_Set m img x y v = Some m'
    ∧ Mem_encode m img = Some e
    ∧ e !! Z.to_nat (2 + y * ceil8 (MWidth img) + x / 8) = Some b
    ∧ Mem_encode m' img
      = Some (<[Z.to_nat (2 + y * ceil8 (MWidth img) + x / 8) :=
                  set_bit b (x mod 8) v]> e)
    ∧ Z.testbit (set_bit b (x mod 8) v) (x mod 8) = v
    ∧ ∀ j, 0 ≤ j < 8 → j ≠ x mod 8 →
           Z.testbit (set_bit b (x mod 8) v) j = Z.testbit b j.
Proof.
  intros (bmp & Hview & Hwf)%mwf_view Hdis Hx Hy.
  pose proof Hview as (HW & HH & _)%view_spec.
  destruct (Set_encode bmp x y v) as (bmp' & b & HS & Hb & Henc & Hbit & Hrest);
    [done | lia | lia |].
  destruct (Mem_Set_view m img bmp bmp' x y v Hview Hdis HS)
    as (m' & HS' & Hview').
  rewrite HW in Hb, Henc.
  exists m', (encode bmp), b. split; [done |].
  split; [by apply Mem_encode_view |]. split; [done |].
  split; [| done].
  rewrite (Mem_encode_view m' img bmp' Hview'). by rewrite Henc.
Qed.

Lemma Mem_Set_encode_witness :
  ∃ m' e b,
    Mem_Set [[129; 3]; [64; 1]] rows_apart 3 1 true = Some m'
    ∧ Mem_encode [[129; 3]; [64; 1]] rows_apart = Some e
    ∧ e !! Z.to_nat (2 + 1 * ceil8 (MWidth rows_apart) + 3 / 8) = Some b
    ∧ Mem_encode m' rows_apart
      = Some (<[Z.to_nat (2 + 1 * ceil8 (MWidth rows_apart) + 3 / 8) :=
                  set_bit b (3 mod 8) true]> e)
    ∧ Z.testbit (set_bit b (3 mod 8) true) (3 mod 8) = true
    ∧ ∀ j, 0 ≤ j < 8 → j ≠ 3 mod 8 →
           Z.testbit (set_bit b (3 mod 8) true) j = Z.testbit b j.
Proof.
  apply (Mem_Set_encode [[129; 3]; [64; 1]] rows_apart 3 1 true);
    [reflexivity | reflexivity | simpl; lia | simpl; lia].
Defined.

Lemma Mem_Create_rows (m : memory) (W H : Z) :
  0 ≤ W → 0 ≤ H →
  Mem_Create m W H
  = Some (m ++ replicate (Z.to_nat H) (replicate (Z.to_nat (stride_of W)) 0),
          {| MWidth := W; MHeight := H;
             MPixelRows := fresh_row (length m) (Z.to_nat (stride_of W))
                           <$> seq 0 (Z.to_nat H) |}).
Proof.
  intros HW HH. unfold Mem_Create, make.
  destruct (Z.ltb_spec H 0); [lia |]. simpl.
  assert (Hs : 0 ≤ stride_of W)
    by (rewrite stride_of_div by done; apply Z.div_pos; lia).
  set (zeros := replicate (Z.to_nat (stride_of W)) 0).
  set (mk := fresh_row (length m) (Z.to_nat (stride_of W))).
  destruct (for_range_inv
    (λ j (st : memory * list slice),
       0 ≤ j ≤ H
       ∧ st = (m ++ replicate (Z.to_nat j) zeros,
               (mk <$> seq 0 (Z.to_nat j))
               ++ replicate (Z.to_nat (H - j)) nil_slice))
    (λ y '(m, rows),
       '(m, row) ← make_bytes m (stride_of W);
       rows ← store rows y row; Some (m, rows))
    H (m, replicate (Z.to_nat H) nil_slice)) as (st & Hrun & _ & ->).
  - split; [lia |]. simpl. rewrite app_nil_r, Z.sub_0_r. done.
  - intros j st Hj [_ ->]. unfold make_bytes.
    destruct (Z.ltb_spec (stride_of W) 0); [lia |]. simpl.
    unfold store. rewrite length_app, length_fmap, length_seq, length_replicate.
    destruct (Z.leb_spec 0 j), (Z.ltb_spec j (Z.of_nat (Z.to_nat j + Z.to_nat (H - j))));
      try lia; simpl.
    eexists. split; [done |]. split; [lia |].
    replace (Z.to_nat (j + 1)) with (S (Z.to_nat j)) by lia.
    replace (Z.to_nat (H - j)) with (S (Z.to_nat (H - (j + 1)))) by lia.
    f_equal.
    + rewrite replicate_S_end. by rewrite app_assoc.
    + rewrite seq_S, fmap_app, <- app_assoc.
      rewrite insert_app_r_alt by (rewrite length_fmap, length_seq; lia).
      rewrite length_fmap, length_seq, Nat.sub_diag. simpl.
      do 2 f_equal. unfold mk, fresh_row. f_equal.
      rewrite length_app, length_replicate. done.
  - rewrite Hrun. simpl.
    replace (Z.max 0 H) with H by lia. rewrite Z.sub_diag. simpl.
    by rewrite app_nil_r.
Qed.

Lemma fresh_rows_disjoint (base stride a n : nat) :
  rows_disjoint (fresh_row base stride <$> seq a n) = true.
Proof.
  revert a. induction n as [| n IH]; intros a; [done |].
  simpl. rewrite IH, andb_true_r. apply forallb_forall. intros t Ht.
  apply list_elem_of_In, list_elem_of_fmap in Ht as (k & -> & Hk).
  apply elem_of_seq in Hk. apply negb_true_iff. unfold overlap. simpl.
  destruct (Nat.eqb_spec (base + a) (base + k)); [lia | done].
Qed.

Lemma fresh_rows_view (m : memory) (W H : Z) :
  view (m ++ replicate (Z.to_nat H) (replicate (Z.to_nat (stride_of W)) 0))
       {| MWidth := W; MHeight := H;
          MPixelRows := fresh_row (length m) (Z.to_nat (stride_of W))
                        <$> seq 0 (Z.to_nat H) |}
  = Some {| Width := W; Height := H;
            PixelRows := replicate (Z.to_nat H)
                           (replicate (Z.to_nat (stride_of W)) 0) |}.
Proof.
  apply view_spec. simpl. split; [done |]. split; [done |].
  apply Forall2_same_length_lookup. split.
  { by rewrite length_fmap, length_seq, length_replicate. }
  intros i s r Hs Hr.
  apply list_lookup_fmap_Some in Hs as (k & -> & Hk).
  apply lookup_seq in Hk as [-> Hi]. simpl in *.
  apply lookup_replicate in Hr as [-> _].
  apply slice_bytes_spec. simpl.
  exists (replicate (Z.to_nat (stride_of W)) 0).
  split.
  - rewrite lookup_app_r by lia.
    replace (length m + i - length m)%nat with i by lia.
    by apply lookup_replicate_2.
  - rewrite length_replicate. split; [done |].
    rewrite drop_0, take_ge; [done |]. by rewrite length_replicate.
Qed.

(** X26. [Create] over a memory never panics for [uint8] dimensions: it
    leaves the arrays the memory held as they were and adds one array per
    row, so that the rows of the new bitmap share no byte; the bitmap
    satisfies the invariant and is the blank bitmap that [Create] gives
    with the rows held by value. *)
Theorem Mem_Create_fresh (m : memory) (W H : Z) :
  0 ≤ W < 256 → 0 ≤ H < 256 →
  ∃ m' img,
    Mem_Create m W H = Some (m', img)
    ∧ MWidth img = W ∧ MHeight img = H
    ∧ rows_disjoint (MPixelRows img) = true
    ∧ mwf m' img
    ∧ view m' img = Create W H
    ∧ take (length m) m' = m.
Proof.
  intros HW HH. eexists _, _.
  split; [apply Mem_Create_rows; lia |]. simpl.
  split; [done |]. split; [done |].
  split; [apply fresh_rows_disjoint |].
  pose proof (fresh_rows_view m W H) as Hview.
  pose proof (Create_rows W H ltac:(lia) ltac:(lia)) as HC.
  destruct (Create_wf W H _ HW HH HC) as (Hwf & _ & _).
  split; [apply mwf_view; eexists; by split |].
  split; [by rewrite HC |].
  by rewrite take_app_length.
Qed.

Lemma Mem_Create_fresh_witness :
  ∃ m' img,
    Mem_Create [[7]] 10 2 = Some (m', img)
    ∧ MWidth img = 10 ∧ MHeight img = 2
    ∧ rows_disjoint (MPixelRows img) = true
    ∧ mwf m' img
    ∧ view m' img = Create 10 2
    ∧ take (length [[7]]) m' = [[7]].
Proof. apply (Mem_Create_fresh [[7]] 10 2); lia. Defined.

(** What the functions do when the two rows of a bitmap are one slice. *)

Example Mem_Create_10_2 :
  Mem_Create [] 10 2 = Some ([[0; 0]; [0; 0]], rows_apart).
Proof. reflexivity. Qed.

(** A write to the first row shows in the second. *)
Example shared_rows_Set :
  mwf [[0; 0]] rows_shared
  ∧ rows_disjoint (MPixelRows rows_shared) = false
  ∧ Mem_Get [[0; 0]] rows_shared 0 1 = Some false
  ∧ (m ← Mem_Set [[0; 0]] rows_shared 0 0 true; Mem_Get m rows_shared 0 1)
    = Some true.
Proof. repeat split; reflexivity. Qed.

(** The order of two writes to different pixels matters. *)
Example shared_rows_order :
  (m ← Mem_Set [[0; 0]] rows_shared 0 0 true; Mem_Set m rows_shared 0 1 false)
  = Some [[0; 0]]
  ∧ (m ← Mem_Set [[0; 0]] rows_shared 0 1 false;
     Mem_Set m rows_shared 0 0 true)
    = Some [[1; 0]].
Proof. split; reflexivity. Qed.

(** One write changes two bytes of the encoding. *)
Example shared_rows_encode :
  Mem_encode [[0; 0]] rows_shared = Some [10; 2; 0; 0; 0; 0]
  ∧ (m ← Mem_Set [[0; 0]] rows_shared 0 0 true; Mem_encode m rows_shared)
    = Some [10; 2; 1; 0; 1; 0].
Proof. split; reflexivity. Qed.

(** [fillByGrayMap] paints the first row black and the second white, and
    the first row reads white afterwards. *)
Example shared_rows_fill :
  (m ← Mem_fillByGrayMap (replicate 10 0%float ++ replicate 10 1%float)
         [[0; 0]] rows_shared 10 2;
   Mem_Get m rows_shared 0 0)
  = Some false.
Proof. vm_compute. reflexivity. Qed.
